(** * Package Size Inline: a shallow embedding of [src/extension.ts]

    The extension annotates the dependency lines of a [package.json] with
    the size of each package.  This development embeds the functions of
    [extension.ts] as Rocq functions and proves the properties its
    specification states about them.

    Conventions of the embedding.
    - A JavaScript string is a Rocq [string]; its characters stand for the
      UTF-16 code units 0..255 (the Latin-1 range).  The only text outside
      that range the extension handles is the "unknown size" label, kept
      as its UTF-8 bytes.
    - A JavaScript number is an integer [Z].  Byte counts are integral;
      they are exact as doubles below [2^53], and dividing a double by a
      power of two is exact, so quotients are kept as a pair
      numerator/denominator.
    - An exception is [None] in the option monad; a [try]/[catch] is a
      [match] on it.
    - Mutable maps ([sizeCache]) are [gmap]s threaded through the calls;
      maps whose iteration order is observable are association lists. *)

From Stdlib Require Import ZArith Ascii String List Lia.
From stdpp Require Import base option list gmap strings.

#[local] Set Warnings "-register-all".
Local Open Scope Z_scope.

(** ** Strings *)

Module Str.

Fixpoint take (n : nat) (s : string) : string :=
  match n, s with
  | S n', String c s' => String c (take n' s')
  | _, _ => EmptyString
  end.

Fixpoint drop (n : nat) (s : string) : string :=
  match n, s with
  | S n', String _ s' => drop n' s'
  | _, _ => s
  end.

Fixpoint startsWith (p s : string) : bool :=
  match p, s with
  | EmptyString, _ => true
  | String a p', String b s' => if Ascii.eqb a b then startsWith p' s' else false
  | String _ _, EmptyString => false
  end.

Definition endsWith (p s : string) : bool :=
  if Nat.ltb (String.length s) (String.length p) then false
  else String.eqb (drop (String.length s - String.length p) s) p.

(** [s.indexOf(c, from)] for a one-character needle. *)
Fixpoint indexOf (c : ascii) (from : nat) (s : string) : option nat :=
  match s with
  | EmptyString => None
  | String a s' =>
      match from with
      | S from' => S <$> indexOf c from' s'
      | O => if Ascii.eqb a c then Some O else S <$> indexOf c O s'
      end
  end.

(** [s.split(c)]: the pieces between the occurrences of [c]; never empty. *)
Fixpoint split (c : ascii) (s : string) : list string :=
  match s with
  | EmptyString => [EmptyString]
  | String a s' =>
      if Ascii.eqb a c then EmptyString :: split c s'
      else match split c s' with
           | p :: ps => String a p :: ps
           | [] => [String a EmptyString]
           end
  end.

Fixpoint join (sep : string) (l : list string) : string :=
  match l with
  | [] => EmptyString
  | [x] => x
  | x :: l' => x +:+ sep +:+ join sep l'
  end.

Fixpoint all (p : ascii -> bool) (s : string) : bool :=
  match s with
  | EmptyString => true
  | String a s' => p a && all p s'
  end.

Definition code (a : ascii) : Z := Z.of_nat (nat_of_ascii a).
Definition chr (n : Z) : ascii := ascii_of_nat (Z.to_nat n).

End Str.

(** ** Numbers and their rendering *)

Definition digit_char (d : Z) : ascii := Str.chr (48 + d).

(** The digits of the decimal representation of a non-negative integer,
    most significant first. *)
Fixpoint decimal_digits (fuel : nat) (n : Z) (acc : string) : string :=
  match fuel with
  | O => acc
  | S fuel' =>
      let acc' := String (digit_char (n mod 10)) acc in
      if n <? 10 then acc' else decimal_digits fuel' (n / 10) acc'
  end.

Definition decimal (n : Z) : string :=
  decimal_digits (S (Z.to_nat (Z.log2 n))) n "".

(** The largest integer up to which every integer is a double
    ([Number.MAX_SAFE_INTEGER]).  The numbers of this development are the
    integers of that range: on them division by a power of two is exact and
    no rendering reaches the exponent notation, which starts at [10^21]. *)
Definition MAX_SAFE_INTEGER : Z := 2 ^ 53 - 1.

(** [Number::toString] on an integer below [10^21]. *)
Definition Number_toString (n : Z) : string :=
  if n <? 0 then "-" +:+ decimal (- n) else decimal n.

(** [Number.prototype.toFixed(1)] on the exact value [num / den], [den > 0],
    below [10^21], following the steps of ECMA-262: [n] is the integer for
    which [n / 10 - x] is as close to zero as possible, the larger one when
    there are two; its digits are padded to two and the point is put before
    the last. *)
Definition toFixed1_nearest (num den : Z) : Z := (20 * num + den) / (2 * den).

Definition toFixed1 (num den : Z) : string :=
  let s := if num <? 0 then "-" else "" in
  let x := Z.abs num in
  let n := toFixed1_nearest x den in
  let m := if n =? 0 then "0" else decimal n in
  let m := if Nat.leb (String.length m) 1 then "0" +:+ m else m in
  let k := String.length m in
  s +:+ Str.take (k - 1) m +:+ "." +:+ Str.drop (k - 1) m.

(** <<
function formatBytes(bytes: number): string {
  if (bytes >= 1024 * 1024) return (bytes / (1024 * 1024)).toFixed(1) + ' MB';
  if (bytes >= 1024) return (bytes / 1024).toFixed(1) + ' kB';
  return bytes + ' B';
}
>>
    on a byte count that is an integer of the safe range: the quotients
    are then exact and stay below [10^21], where [toFixed] would turn to
    the exponent notation. *)
Definition formatBytes (bytes : Z) : string :=
  if bytes >=? 1024 * 1024 then toFixed1 bytes (1024 * 1024) +:+ " MB"
  else if bytes >=? 1024 then toFixed1 bytes 1024 +:+ " kB"
  else Number_toString bytes +:+ " B".


(** ** JSON documents and the JavaScript values read from them *)

(** What [JSON.parse] and [Response.json()] return.  An object keeps its
    members in insertion order, each name once. *)
Inductive JSON : Type :=
| JNull
| JBool (b : bool)
| JNum (n : Z)
| JStr (s : string)
| JArr (items : list JSON)
| JObj (members : list (string * JSON)).

(** The values the extension reads out of such a document: a member, the
    value [undefined] of a missing member, or a member inherited from a
    built-in prototype (a function object such as [toString], or the
    prototype itself for [__proto__]). *)
Inductive Value : Type :=
| Undefined
| Json (j : JSON)
| Builtin.

Definition Object_prototype_keys : list string :=
  ["constructor"; "__defineGetter__"; "__defineSetter__"; "hasOwnProperty";
   "__lookupGetter__"; "__lookupSetter__"; "isPrototypeOf";
   "propertyIsEnumerable"; "toString"; "valueOf"; "__proto__";
   "toLocaleString"].

Definition Array_prototype_keys : list string :=
  ["at"; "concat"; "copyWithin"; "fill"; "find"; "findIndex"; "findLast";
   "findLastIndex"; "lastIndexOf"; "pop"; "push"; "reverse"; "shift";
   "unshift"; "slice"; "sort"; "splice"; "includes"; "indexOf"; "join";
   "keys"; "entries"; "values"; "forEach"; "filter"; "flat"; "flatMap";
   "map"; "every"; "some"; "reduce"; "reduceRight"; "toReversed";
   "toSorted"; "toSpliced"; "with"].

Definition mem (k : string) (l : list string) : bool :=
  existsb (String.eqb k) l.

(** The own member [k] of an object. *)
Fixpoint member (k : string) (ms : list (string * JSON)) : option JSON :=
  match ms with
  | [] => None
  | (k', v) :: ms' => if String.eqb k' k then Some v else member k ms'
  end.

(** The element of an array whose index is written [k]. *)
Fixpoint element (k : string) (i : Z) (items : list JSON) : option JSON :=
  match items with
  | [] => None
  | x :: items' =>
      if String.eqb (decimal i) k then Some x else element k (i + 1) items'
  end.

(** ToBoolean. *)
Definition truthy (v : Value) : bool :=
  match v with
  | Undefined | Json JNull => false
  | Json (JBool b) => b
  | Json (JNum n) => negb (n =? 0)
  | Json (JStr s) => negb (String.eqb s "")
  | Json (JArr _) | Json (JObj _) | Builtin => true
  end.

(** [v == null]. *)
Definition nullish (v : Value) : bool :=
  match v with
  | Undefined | Json JNull => true
  | _ => false
  end.

(** [v.k] for the member names the extension writes out ([dependencies],
    [devDependencies], [versions], [dist-tags], [latest], [dist],
    [unpackedSize]); no built-in prototype defines one of them, so the
    result is the own member or [undefined].  Reading a member of [null] or
    [undefined] throws a TypeError. *)
Definition get_field (v : Value) (k : string) : option Value :=
  match v with
  | Undefined | Json JNull => None
  | Json (JObj ms) => Some (from_option Json Undefined (member k ms))
  | _ => Some Undefined
  end.

(** [v?.k] *)
Definition get_field_opt (v : Value) (k : string) : Value :=
  if nullish v then Undefined else default Undefined (get_field v k).

(** [o[k]] for a computed name [k], on a value whose [typeof] is ['object']
    and that is not [null]: an own member, else one found on the prototype
    chain. *)
Definition get_computed (o : JSON) (k : string) : Value :=
  match o with
  | JObj ms =>
      match member k ms with
      | Some v => Json v
      | None => if mem k Object_prototype_keys then Builtin else Undefined
      end
  | JArr items =>
      match element k 0 items with
      | Some v => Json v
      | None =>
          if String.eqb k "length" then Json (JNum (Z.of_nat (length items)))
          else if mem k Array_prototype_keys || mem k Object_prototype_keys
               then Builtin else Undefined
      end
  | _ => Undefined
  end.

(** [k in v]: a TypeError unless [v] is an object. *)
Definition has_property (v : Value) (k : string) : option bool :=
  match v with
  | Json (JObj _ as o) | Json (JArr _ as o) =>
      Some (match get_computed o k with Undefined => false | _ => true end)
  | _ => None
  end.

(** [typeof v === 'object'] *)
Definition typeof_object (v : Value) : bool :=
  match v with
  | Json JNull | Json (JArr _) | Json (JObj _) => true
  | _ => false
  end.

(** ToString, as applied to a computed member name. *)
Fixpoint JSON_toString (j : JSON) : string :=
  match j with
  | JNull => "null"
  | JBool true => "true"
  | JBool false => "false"
  | JNum n => Number_toString n
  | JStr s => s
  | JArr items =>
      Str.join ","
        (map (fun x => match x with JNull => "" | _ => JSON_toString x end) items)
  | JObj _ => "[object Object]"
  end.

Definition toPropertyKey (v : Value) : string :=
  match v with
  | Undefined => "undefined"
  | Json j => JSON_toString j
  | Builtin => "[object Object]"
  end.

(** ** Regular expressions *)

Module Regex.

Inductive re : Type :=
| Void
| Eps
| Class (p : ascii -> bool)
| Seq (r1 r2 : re)
| Alt (r1 r2 : re)
| Star (r : re).

Definition Chr (c : ascii) : re := Class (Ascii.eqb c).
Definition Plus (r : re) : re := Seq r (Star r).
Definition Opt (r : re) : re := Alt r Eps.

Fixpoint nullable (r : re) : bool :=
  match r with
  | Void | Class _ => false
  | Eps | Star _ => true
  | Seq r1 r2 => nullable r1 && nullable r2
  | Alt r1 r2 => nullable r1 || nullable r2
  end.

(** The derivative of [r] by the character [a]. *)
Fixpoint deriv (a : ascii) (r : re) : re :=
  match r with
  | Void | Eps => Void
  | Class p => if p a then Eps else Void
  | Seq r1 r2 =>
      if nullable r1 then Alt (Seq (deriv a r1) r2) (deriv a r2)
      else Seq (deriv a r1) r2
  | Alt r1 r2 => Alt (deriv a r1) (deriv a r2)
  | Star r1 => Seq (deriv a r1) (Star r1)
  end.

(** [/^r$/.test(s)] *)
Fixpoint test (r : re) (s : string) : bool :=
  match s with
  | EmptyString => nullable r
  | String a s' => test (deriv a r) s'
  end.

(** The language of [r]. *)
Inductive lang : re -> string -> Prop :=
| L_Eps : lang Eps ""
| L_Class p a : p a = true -> lang (Class p) (String a "")
| L_Seq r1 r2 s1 s2 : lang r1 s1 -> lang r2 s2 -> lang (Seq r1 r2) (s1 +:+ s2)
| L_Alt_l r1 r2 s : lang r1 s -> lang (Alt r1 r2) s
| L_Alt_r r1 r2 s : lang r2 s -> lang (Alt r1 r2) s
| L_Star_nil r : lang (Star r) ""
| L_Star_cons r s1 s2 : lang r s1 -> lang (Star r) s2 -> lang (Star r) (s1 +:+ s2).

End Regex.

(** The character classes of the two regular expressions of the source. *)
Definition is_digit (a : ascii) : bool :=
  (48 <=? Str.code a) && (Str.code a <=? 57).

(** [\s] restricted to the code units below 256. *)
Definition is_space (a : ascii) : bool :=
  let c := Str.code a in
  ((9 <=? c) && (c <=? 13)) || (c =? 32) || (c =? 160).

(** [.] without the [s] flag: anything but a line terminator. *)
Definition is_dot (a : ascii) : bool :=
  let c := Str.code a in negb ((c =? 10) || (c =? 13)).

Definition dquote : ascii := Str.chr 34.
Definition not_dquote (a : ascii) : bool := negb (Ascii.eqb a dquote).
Definition not_plus (a : ascii) : bool := negb (Ascii.eqb a "+"%char).

(** ** Package specs and version strings *)

Definition FILE_PROTOCOL : string := "file:".
Definition NPM_REGISTRY : string := "https://registry.npmjs.org".

(** <<
function parsePackageSpec(spec: string): { name: string; version: string } {
  const at = spec.indexOf('@', 1);
  if (at === -1) return { name: spec, version: '*' };
  return { name: spec.slice(0, at), version: spec.slice(at + 1) || '*' };
}
>> *)
Definition parsePackageSpec (spec : string) : string * string :=
  match Str.indexOf "@"%char 1 spec with
  | None => (spec, "*")
  | Some at_ =>
      let version := Str.drop (at_ + 1) spec in
      (Str.take at_ spec, if String.eqb version "" then "*" else version)
  end.

(** The pattern of [isExactVersion], anchored at both ends: digits, a dot,
    digits, a dot, digits; then optionally a hyphen and one or more
    characters other than a plus; then optionally a plus and any characters
    of its line. *)
Definition exact_version_re : Regex.re :=
  let digits := Regex.Plus (Regex.Class is_digit) in
  let dot := Regex.Chr "."%char in
  Regex.Seq digits (Regex.Seq dot (Regex.Seq digits (Regex.Seq dot
  (Regex.Seq digits
  (Regex.Seq
     (Regex.Opt (Regex.Seq (Regex.Chr "-"%char) (Regex.Plus (Regex.Class not_plus))))
     (Regex.Opt (Regex.Seq (Regex.Chr "+"%char) (Regex.Star (Regex.Class is_dot))))))))).

(** <<
function isExactVersion(version: string): boolean {
  return EXACT.test(version) || version === '*';   // EXACT: the pattern above
}
>> *)
Definition isExactVersion (version : string) : bool :=
  Regex.test exact_version_re version || String.eqb version "*".

(** [version.startsWith(FILE_PROTOCOL)] *)
Definition isFileDependency (version : string) : bool :=
  Str.startsWith FILE_PROTOCOL version.

(** [const useExact = version && version !== '*' && isExactVersion(version)] *)
Definition useExact (version : string) : bool :=
  negb (String.eqb version "") && negb (String.eqb version "*")
  && isExactVersion version.

(** [encodeURIComponent]: the unreserved characters stay, every other code
    unit becomes the [%XX] escapes of its UTF-8 bytes. *)
Definition uri_unreserved (a : ascii) : bool :=
  let c := Str.code a in
  ((65 <=? c) && (c <=? 90)) || ((97 <=? c) && (c <=? 122)) || is_digit a
  || mem (String a "") ["-"; "_"; "."; "!"; "~"; "*"; "'"; "("; ")"].

Definition hex_digit (d : Z) : ascii :=
  if d <? 10 then Str.chr (48 + d) else Str.chr (55 + d).

Definition percent (byte : Z) : string :=
  String (Str.chr 37) (String (hex_digit (byte / 16)) (String (hex_digit (byte mod 16)) "")).

Fixpoint encodeURIComponent (s : string) : string :=
  match s with
  | EmptyString => EmptyString
  | String a s' =>
      let c := Str.code a in
      (if uri_unreserved a then String a ""
       else if c <? 128 then percent c
       else percent (192 + c / 64) +:+ percent (128 + c mod 64))
      +:+ encodeURIComponent s'
  end.

(** ** The text document of the editor *)

Record Position : Type := { line : nat; character : nat }.

Record Range : Type := { range_start : Position; range_end : Position }.

(** The document as the extension host holds it: its lines, without their
    terminators, and the terminator that joins them. *)
Record TextDocument : Type := {
  fsPath : string;
  fileName : string;
  lines : list string;
  eol : string
}.

Definition getText (doc : TextDocument) : string := Str.join (eol doc) (lines doc).

(** [doc.positionAt(offset)]: the line whose span, terminator included,
    holds the offset, and the column, never past the end of the line. *)
Fixpoint positionAt_from (ls : list string) (eolLen offset ln : nat) : Position :=
  match ls with
  | [] => {| line := ln; character := 0 |}
  | l :: ls' =>
      match ls' with
      | [] => {| line := ln; character := Nat.min offset (String.length l) |}
      | _ :: _ =>
          if Nat.ltb offset (String.length l + eolLen)
          then {| line := ln; character := Nat.min offset (String.length l) |}
          else positionAt_from ls' eolLen (offset - (String.length l + eolLen)) (S ln)
      end
  end.

Definition positionAt (doc : TextDocument) (offset : nat) : Position :=
  positionAt_from (lines doc) (String.length (eol doc)) offset 0.

(** [doc.lineAt(ln).range.end] *)
Definition lineEnd (doc : TextDocument) (ln : nat) : Position :=
  {| line := ln; character := String.length (nth ln (lines doc) "") |}.

(** The offset at which line [ln] starts in [getText doc]. *)
Definition lineStart (doc : TextDocument) (ln : nat) : nat :=
  list_sum (map (fun l => String.length l + String.length (eol doc))%nat
                (firstn ln (lines doc))).

Definition PACKAGE_JSON : string := "package.json".

(** [String.prototype.toLowerCase] on the code units below 256. *)
Definition lower_char (a : ascii) : ascii :=
  let c := Str.code a in
  if ((65 <=? c) && (c <=? 90)) || ((192 <=? c) && (c <=? 222) && negb (c =? 215))
  then Str.chr (c + 32) else a.

Fixpoint toLowerCase (s : string) : string :=
  match s with
  | EmptyString => EmptyString
  | String a s' => String (lower_char a) (toLowerCase s')
  end.

(** <<
function isPackageJson(doc: vscode.TextDocument): boolean {
  const path = doc.uri.fsPath.toLowerCase();
  return path.endsWith(PACKAGE_JSON) || doc.fileName.toLowerCase() === PACKAGE_JSON;
}
>> *)
Definition isPackageJson (doc : TextDocument) : bool :=
  Str.endsWith PACKAGE_JSON (toLowerCase (fsPath doc))
  || String.eqb (toLowerCase (fileName doc)) PACKAGE_JSON.

(** ** The dependency parser *)

Record DepEntry : Type := { name : string; version : string; range : Range }.

(** One result of [re.exec(text)]: [m.index], [m[1]] and [m[2]]. *)
Record Match : Type := { index : nat; group1 : string; group2 : string }.

Fixpoint span (p : ascii -> bool) (s : string) : string * string :=
  match s with
  | EmptyString => (EmptyString, EmptyString)
  | String a s' =>
      if p a then let '(x, r) := span p s' in (String a x, r)
      else (EmptyString, s)
  end.

(** The pattern of the parser at the head of [s]: a double quote, one or
    more characters other than a double quote, a double quote, white space,
    a colon, white space, a double quote, characters other than a double
    quote, a double quote.  Every repetition is followed by a character
    outside its class, so the match, when there is one, is unique.  The
    result is the two groups and the length of the match. *)
Definition match_here (s : string) : option (string * string * nat) :=
  match s with
  | String q s1 =>
      if Ascii.eqb q dquote then
        let '(k, s2) := span not_dquote s1 in
        if String.eqb k "" then None else
        match s2 with
        | String _ s3 =>
            let '(w1, s4) := span is_space s3 in
            match s4 with
            | String c s5 =>
                if Ascii.eqb c ":"%char then
                  let '(w2, s6) := span is_space s5 in
                  match s6 with
                  | String q' s7 =>
                      if Ascii.eqb q' dquote then
                        let '(v, s8) := span not_dquote s7 in
                        match s8 with
                        | String _ _ =>
                            Some (k, v,
                                  (String.length k + String.length w1
                                   + String.length w2 + String.length v + 5)%nat)
                        | EmptyString => None
                        end
                      else None
                  | EmptyString => None
                  end
                else None
            | EmptyString => None
            end
        | EmptyString => None
        end
      else None
  | EmptyString => None
  end.

(** The loop [while ((m = re.exec(text)) !== null)] of a global pattern: the
    leftmost match at or after [lastIndex], which then moves past it.
    [skip] counts the characters left of the previous match. *)
Fixpoint exec_all (s : string) (skip pos : nat) : list Match :=
  match s with
  | EmptyString => []
  | String _ s' =>
      match skip with
      | S skip' => exec_all s' skip' (S pos)
      | O =>
          match match_here s with
          | Some (k, v, len) =>
              {| index := pos; group1 := k; group2 := v |}
                :: exec_all s' (len - 1) (S pos)
          | None => exec_all s' 0 (S pos)
          end
      end
  end.

Definition scan (text : string) : list Match := exec_all text 0 0.

Definition WILDCARD : string := "*".

(** The entry pushed for a match:
    [{ name, version: value || '*', range: new vscode.Range(lineEnd, lineEnd) }]
    with [lineEnd = doc.lineAt(doc.positionAt(m.index).line).range.end]. *)
Definition entryOf (doc : TextDocument) (m : Match) : DepEntry :=
  let pos := positionAt doc (index m) in
  let le := lineEnd doc (line pos) in
  {| name := group1 m;
     version := if String.eqb (group2 m) "" then WILDCARD else group2 m;
     range := {| range_start := le; range_end := le |} |}.

(** The body of the [while] loop over the matches.  [name in dependencies]
    throws when [dependencies] is not an object; the [catch] then ends the
    function with the entries pushed so far. *)
Fixpoint collect (doc : TextDocument) (dependencies devDependencies : Value)
    (ms : list Match) (deps devDeps : list DepEntry)
  : list DepEntry * list DepEntry :=
  match ms with
  | [] => (deps, devDeps)
  | m :: ms' =>
      match has_property dependencies (group1 m) with
      | None => (deps, devDeps)
      | Some true =>
          collect doc dependencies devDependencies ms' (deps ++ [entryOf doc m]) devDeps
      | Some false =>
          match has_property devDependencies (group1 m) with
          | None => (deps, devDeps)
          | Some true =>
              collect doc dependencies devDependencies ms' deps (devDeps ++ [entryOf doc m])
          | Some false => collect doc dependencies devDependencies ms' deps devDeps
          end
      end
  end.

(** [x || {}] *)
Definition or_empty_object (v : Value) : Value :=
  if truthy v then v else Json (JObj []).

(** <<
function parseDepsFromDocument(doc) {
  const text = doc.getText();
  const deps = [];  const devDeps = [];
  try {
    const json = JSON.parse(text);
    const dependencies = json.dependencies || {};
    const devDependencies = json.devDependencies || {};
    const re = ...;  let m;
    while ((m = re.exec(text)) !== null) {
      const name = m[1];  const value = m[2];
      if (name in dependencies) { ... deps.push({...}); }
      else if (name in devDependencies) { ... devDeps.push({...}); }
    }
  } catch { }
  return { deps, devDeps };
}
>>
    [JSON_parse] is the host's [JSON.parse]; [None] is its SyntaxError. *)
Definition parseDepsFromDocument (JSON_parse : string -> option JSON)
    (doc : TextDocument) : list DepEntry * list DepEntry :=
  let text := getText doc in
  match JSON_parse text with
  | None => ([], [])
  | Some json =>
      match get_field (Json json) "dependencies",
            get_field (Json json) "devDependencies" with
      | Some d, Some v =>
          collect doc (or_empty_object d) (or_empty_object v) (scan text) [] []
      | _, _ => ([], [])
      end
  end.

(** ** Paths (the POSIX flavour of Node's [path] module) *)

Definition is_slash (a : ascii) : bool := Ascii.eqb a "/"%char.

(** [normalizeString]: empty segments and [.] vanish, [..] removes the
    segment before it, or stays when there is none and the path is
    relative. *)
Definition normalize_step (allowAboveRoot : bool) (rev_res : list string)
    (seg : string) : list string :=
  if String.eqb seg "" || String.eqb seg "." then rev_res
  else if String.eqb seg ".." then
    match rev_res with
    | last :: before =>
        if String.eqb last ".." then (if allowAboveRoot then seg :: rev_res else rev_res)
        else before
    | [] => if allowAboveRoot then [seg] else []
    end
  else seg :: rev_res.

Definition normalize_segments (allowAboveRoot : bool) (segs : list string) : list string :=
  rev (fold_left (normalize_step allowAboveRoot) segs []).

(** [path.normalize] *)
Definition path_normalize (p : string) : string :=
  if String.eqb p "" then "." else
  let isAbsolute := Str.startsWith "/" p in
  let trailingSeparator := Str.endsWith "/" p in
  let s := Str.join "/" (normalize_segments (negb isAbsolute) (Str.split "/"%char p)) in
  if String.eqb s "" then
    (if isAbsolute then "/" else if trailingSeparator then "./" else ".")
  else
    (if isAbsolute then "/" else "") +:+ s +:+ (if trailingSeparator then "/" else "").

(** [path.join(...args)] *)
Definition path_join (args : list string) : string :=
  match List.filter (fun a => negb (String.eqb a "")) args with
  | [] => "."
  | parts => path_normalize (Str.join "/" parts)
  end.

Fixpoint drop_while {A} (p : A -> bool) (l : list A) : list A :=
  match l with
  | [] => []
  | x :: l' => if p x then drop_while p l' else l
  end.

(** [path.dirname]: the path up to the last separator that is followed by
    a segment, looked for from the end down to index 1. *)
Definition path_dirname (p : string) : string :=
  match p with
  | EmptyString => "."
  | String c0 rest =>
      let hasRoot := is_slash c0 in
      let r := rev (list_ascii_of_string rest) in
      match drop_while (fun a => negb (is_slash a)) (drop_while is_slash r) with
      | [] => if hasRoot then "/" else "."
      | _ :: before =>
          if hasRoot && Nat.eqb (length before) 0 then "//"
          else String c0 (string_of_list_ascii (rev before))
      end
  end.

(** ** The file system *)

(** What [fs.stat] and [fs.readdir] see below a path: a regular file and
    its size; a directory and its listing, [None] when listing is refused;
    an entry that can be stat'ed but is neither a regular file nor a
    directory entry (a socket, a FIFO), with the size [stat] reports; an
    entry that cannot be stat'ed (a dangling link, a permission error). *)
Inductive FsNode : Type :=
| FsFile (size : Z)
| FsDir (listing : option (list (string * FsNode)))
| FsSpecial (size : Z)
| FsUnreadable.

Fixpoint child (nm : string) (ents : list (string * FsNode)) : option FsNode :=
  match ents with
  | [] => None
  | (nm', n) :: ents' => if String.eqb nm' nm then Some n else child nm ents'
  end.

Fixpoint walk (node : FsNode) (segs : list string) : option FsNode :=
  match segs with
  | [] => Some node
  | s :: segs' =>
      match node with
      | FsDir (Some ents) =>
          match child s ents with
          | Some n => walk n segs'
          | None => None
          end
      | _ => None
      end
  end.

(** [await fs.stat(path)]; [None] when the promise rejects. *)
Definition fs_stat (root : FsNode) (path : string) : option FsNode :=
  match walk root (List.filter (fun s => negb (String.eqb s "")) (Str.split "/"%char path)) with
  | Some (FsDir l) => Some (FsDir l)
  | Some (FsFile sz) => if Str.endsWith "/" path then None else Some (FsFile sz)
  | Some (FsSpecial sz) => if Str.endsWith "/" path then None else Some (FsSpecial sz)
  | Some FsUnreadable | None => None
  end.

(** ** Effects *)

(** What a run of the extension asks of its collaborators, in order. *)
Inductive Effect : Type :=
| EParse                                  (* JSON.parse of the document text *)
| EFetch (url : string)                   (* fetch(url) *)
| EStat (path : string)                   (* fs.stat(path) *)
| EReaddir (path : string)                (* fs.readdir(path) *)
| ECreateType (sizeText : string)         (* createTextEditorDecorationType *)
| ESetDecorations (editor : nat) (sizeText : string) (ranges : list Range).

Definition is_lookup (e : Effect) : bool :=
  match e with
  | EFetch _ | EStat _ | EReaddir _ => true
  | _ => false
  end.

Definition is_paint (e : Effect) : bool :=
  match e with
  | ECreateType _ | ESetDecorations _ _ _ => true
  | _ => false
  end.

(** <<
async function getDirSize(dirPath: string): Promise<number> {
  let total = 0;
  const entries = await fs.readdir(dirPath, { withFileTypes: true });
  for (const ent of entries) {
    const full = path.join(dirPath, ent.name);
    if (ent.isDirectory()) total += await getDirSize(full);
    else { const stat = await fs.stat(full); total += stat.size; }
  }
  return total;
}
>>
    on the directory [node] found at [dirPath]; the result is the calls
    made and the total, [None] when a call rejects.  [sumEntries] is the
    [for] loop, with the recursive call as a parameter. *)
Section SumEntries.

Variable getDirSize : string -> FsNode -> list Effect * option Z.
Variable dirPath : string.

Fixpoint sumEntries (ents : list (string * FsNode)) (total : Z)
  : list Effect * option Z :=
  match ents with
  | [] => ([], Some total)
  | (nm, ent) :: rest =>
      let full := path_join [dirPath; nm] in
      match ent with
      | FsDir _ =>
          match getDirSize full ent with
          | (ops, Some n) =>
              let '(ops', r) := sumEntries rest (total + n) in (ops ++ ops', r)
          | (ops, None) => (ops, None)
          end
      | FsFile sz | FsSpecial sz =>
          let '(ops', r) := sumEntries rest (total + sz) in (EStat full :: ops', r)
      | FsUnreadable => ([EStat full], None)
      end
  end.

End SumEntries.

Fixpoint getDirSize (dirPath : string) (node : FsNode) {struct node}
  : list Effect * option Z :=
  match node with
  | FsDir (Some ents) =>
      let '(ops, r) := sumEntries getDirSize dirPath ents 0 in
      (EReaddir dirPath :: ops, r)
  | _ => ([EReaddir dirPath], None)
  end.

(** ** The size cache and the two resolvers *)

(** The label of a size that could not be determined (an em dash). *)
Definition UNKNOWN : string := "—".

(** What [await fetch(url)] gives: a rejected promise, or a response with
    its [ok] flag and the value of [res.json()], [None] when the body is
    not JSON. *)
Inductive FetchResult : Type :=
| NetworkError
| Response (ok : bool) (body : option JSON).

(** The collaborators of the extension. *)
Record Env : Type := {
  enabled : bool;                          (* packageSizeInline.enabled *)
  JSON_parse : string -> option JSON;
  fetch : string -> FetchResult;
  fsRoot : FsNode
}.

(** An [async] resolver runs up to its first [await] when it is called and
    resumes when the awaited call settles: it has either returned (from the
    cache) or is waiting for the call it issued. *)
Inductive Started : Type :=
| Returned (text : string)
| Awaiting (call : Effect).

Definition registry_url (nm ver : string) : string :=
  if useExact ver
  then NPM_REGISTRY +:+ "/" +:+ encodeURIComponent nm +:+ "/" +:+ encodeURIComponent ver
  else NPM_REGISTRY +:+ "/" +:+ encodeURIComponent nm.

(** [fetchSize] up to [await fetch(url)]. *)
Definition fetchSize_begin (cache : gmap string string) (packageSpec : string)
  : gmap string string * Started :=
  match cache !! packageSpec with
  | Some cached => (cache, Returned cached)
  | None =>
      let '(nm, ver) := parsePackageSpec packageSpec in
      if String.eqb nm "" then (<[packageSpec := UNKNOWN]> cache, Returned UNKNOWN)
      else (cache, Awaiting (EFetch (registry_url nm ver)))
  end.

(** [bytes == null || typeof bytes !== 'number'] decides between the label
    of the size and the unknown label. *)
Definition size_label (bytes : Value) : string :=
  match bytes with
  | Json (JNum n) => formatBytes n
  | _ => UNKNOWN
  end.

(** The [try] block of [fetchSize] after the response arrived; [None] is an
    exception, which the [catch] turns into the unknown label. *)
Definition fetchSize_try (ver : string) (res : FetchResult) : option string :=
  match res with
  | NetworkError => None
  | Response false _ => Some UNKNOWN
  | Response true body =>
      data ← body;
      if useExact ver then
        Some (size_label (get_field_opt (get_field_opt (Json data) "dist") "unpackedSize"))
      else
        versions ← get_field (Json data) "versions";
        match versions with
        | Json vs =>
            if negb (truthy versions) || negb (typeof_object versions) then Some UNKNOWN
            else
              let latest := get_field_opt (get_field_opt (Json data) "dist-tags") "latest" in
              let versionToUse :=
                if String.eqb ver "" || String.eqb ver "*" then latest else Json (JStr ver) in
              let picked := get_computed vs (toPropertyKey versionToUse) in
              let v :=
                if truthy versionToUse && truthy picked then picked
                else get_computed vs
                       (toPropertyKey (if nullish latest then Json (JStr "") else latest)) in
              Some (size_label (get_field_opt (get_field_opt v "dist") "unpackedSize"))
        | _ => Some UNKNOWN
        end
  end.

(** [fetchSize] from the response on: every path stores its label under
    [packageSpec] and returns it. *)
Definition fetchSize_resume (cache : gmap string string) (packageSpec : string)
    (res : FetchResult) : gmap string string * string :=
  let text := default UNKNOWN (fetchSize_try (snd (parsePackageSpec packageSpec)) res) in
  (<[packageSpec := text]> cache, text).

(** A call of [fetchSize] that runs to its end before anything else does. *)
Definition fetchSize (env : Env) (cache : gmap string string) (packageSpec : string)
  : string * gmap string string * list Effect :=
  match fetchSize_begin cache packageSpec with
  | (cache', Returned text) => (text, cache', [])
  | (cache', Awaiting call) =>
      let res := match call with EFetch url => fetch env url | _ => NetworkError end in
      let '(cache'', text) := fetchSize_resume cache' packageSpec res in
      (text, cache'', [call])
  end.

Definition nodeModulesKey (docDir packageName : string) : string :=
  "node_modules:" +:+ path_join [docDir; "node_modules"; packageName].

Definition installPath (docDir packageName : string) : string :=
  let parts := if Str.startsWith "@" packageName
               then Str.split "/"%char packageName else [packageName] in
  path_join (docDir :: "node_modules" :: parts).

(** [getNodeModulesPackageSize] up to [await fs.stat(installPath)]. *)
Definition getNodeModulesPackageSize_begin (cache : gmap string string)
    (docDir packageName : string) : gmap string string * Started :=
  match cache !! nodeModulesKey docDir packageName with
  | Some cached => (cache, Returned cached)
  | None => (cache, Awaiting (EStat (installPath docDir packageName)))
  end.

(** The [try] block after [fs.stat] was called: the further calls made and
    the label, [None] for an exception. *)
Definition getNodeModulesPackageSize_try (root : FsNode) (path : string)
  : list Effect * option string :=
  match fs_stat root path with
  | None => ([], None)
  | Some (FsFile sz) => ([], Some (formatBytes sz))
  | Some (FsDir l) =>
      let '(ops, total) := getDirSize path (FsDir l) in (ops, formatBytes <$> total)
  | Some _ => ([], Some UNKNOWN)
  end.

Definition getNodeModulesPackageSize_resume (root : FsNode)
    (cache : gmap string string) (docDir packageName : string)
  : gmap string string * string * list Effect :=
  let '(ops, r) := getNodeModulesPackageSize_try root (installPath docDir packageName) in
  let text := default UNKNOWN r in
  (<[nodeModulesKey docDir packageName := text]> cache, text, ops).

Definition getNodeModulesPackageSize (env : Env) (cache : gmap string string)
    (docDir packageName : string) : string * gmap string string * list Effect :=
  match getNodeModulesPackageSize_begin cache docDir packageName with
  | (cache', Returned text) => (text, cache', [])
  | (cache', Awaiting call) =>
      let '(cache'', text, ops) :=
        getNodeModulesPackageSize_resume (fsRoot env) cache' docDir packageName in
      (text, cache'', call :: ops)
  end.

(** ** The render coordinator *)

Record TextEditor : Type := { editorId : nat; document : TextDocument }.

(** The module-level state: the two caches, the decorations each editor
    shows for each decoration type (a type is known by its size text), and
    the editor the pending debounce timer will update. *)
Record State : Type := {
  sizeCache : gmap string string;
  decorationTypeCache : list string;
  decorations : gmap (nat * string) (list Range);
  timeout : option nat
}.

(** The ranges an editor shows with the label [sizeText]. *)
Definition painted (st : State) (editor : nat) (sizeText : string) : list Range :=
  default [] (decorations st !! (editor, sizeText)).

(** [const spec = d.version && d.version !== '*' ? `${d.name}@${d.version}` : d.name] *)
Definition specOf (d : DepEntry) : string :=
  if negb (String.eqb (version d) "") && negb (String.eqb (version d) "*")
  then name d +:+ "@" +:+ version d else name d.

(** The key under which the size of an entry is cached. *)
Definition cacheKeyOf (docDir : string) (d : DepEntry) : string :=
  if isFileDependency (version d) then nodeModulesKey docDir (name d) else specOf d.

(** The callback of [all.map]: the resolver of the entry, up to its first
    [await]. *)
Definition resolve_begin (docDir : string) (cache : gmap string string) (d : DepEntry)
  : gmap string string * Started :=
  if isFileDependency (version d)
  then getNodeModulesPackageSize_begin cache docDir (name d)
  else fetchSize_begin cache (specOf d).

Definition resolve_resume (env : Env) (docDir : string) (cache : gmap string string)
    (d : DepEntry) (call : Effect) : gmap string string * string * list Effect :=
  if isFileDependency (version d)
  then getNodeModulesPackageSize_resume (fsRoot env) cache docDir (name d)
  else
    let res := match call with EFetch url => fetch env url | _ => NetworkError end in
    let '(cache', text) := fetchSize_resume cache (specOf d) res in (cache', text, []).

(** One entry resolved on its own, from call to return. *)
Definition resolve (env : Env) (docDir : string) (cache : gmap string string)
    (d : DepEntry) : string * gmap string string * list Effect :=
  if isFileDependency (version d)
  then getNodeModulesPackageSize env cache docDir (name d)
  else fetchSize env cache (specOf d).

(** [Promise.all(all.map(...))]: [map] calls the resolver of every entry in
    turn, and each runs up to its first [await]; only then do the awaited
    calls settle and the resolvers resume.  They resume here in the order
    of the entries, each to its end, and all are answered by one
    environment: the schedule of a pass on which nothing else intrudes.
    The other schedules are those of [interleave] below. *)
Fixpoint begin_all (docDir : string) (cache : gmap string string) (all : list DepEntry)
  : gmap string string * list Started :=
  match all with
  | [] => (cache, [])
  | d :: rest =>
      let '(cache1, s) := resolve_begin docDir cache d in
      let '(cache2, ss) := begin_all docDir cache1 rest in
      (cache2, s :: ss)
  end.

Fixpoint resume_all (env : Env) (docDir : string) (cache : gmap string string)
    (all : list DepEntry) (started : list Started)
  : gmap string string * list string * list Effect :=
  match all, started with
  | d :: rest, Returned text :: ss =>
      let '(cache', sizes, ops) := resume_all env docDir cache rest ss in
      (cache', text :: sizes, ops)
  | d :: rest, Awaiting call :: ss =>
      let '(cache1, text, ops1) := resolve_resume env docDir cache d call in
      let '(cache2, sizes, ops2) := resume_all env docDir cache1 rest ss in
      (cache2, text :: sizes, ops1 ++ ops2)
  | _, _ => (cache, [], [])
  end.

Definition issued (started : list Started) : list Effect :=
  omap (fun s => match s with Awaiting call => Some call | Returned _ => None end) started.

Definition resolveAll (env : Env) (docDir : string) (cache : gmap string string)
    (all : list DepEntry) : list string * gmap string string * list Effect :=
  let '(cache1, started) := begin_all docDir cache all in
  let '(cache2, sizes, ops) := resume_all env docDir cache1 all started in
  (sizes, cache2, issued started ++ ops).

(** *** Resolvers in flight

    A resolver reads the cache when it is called and writes it once, when
    it ends; in between it waits for its calls.  Meanwhile other resolvers,
    of the same pass or of another one, are called and end, in any order,
    and each gets the answers of its own moment.  A resolver in flight is
    known by its entry and the call it waits for. *)
Record InFlight : Type := {
  flightDir : string;
  flightEntry : DepEntry;
  flightCall : Effect
}.

Inductive Action : Type :=
| Called (docDir : string) (d : DepEntry)   (* a resolver is called *)
| Settled (i : nat) (env : Env).            (* the i-th resolver in flight is answered and ends *)

(** One action: the cache and the resolvers in flight after it, the label
    a resolver returned, if one did, and the calls made. *)
Definition act (cache : gmap string string) (flights : list InFlight) (a : Action)
  : gmap string string * list InFlight * (option string * list Effect) :=
  match a with
  | Called docDir d =>
      match resolve_begin docDir cache d with
      | (cache', Returned text) => (cache', flights, (Some text, []))
      | (cache', Awaiting call) =>
          (cache',
           flights ++ [{| flightDir := docDir; flightEntry := d; flightCall := call |}],
           (None, [call]))
      end
  | Settled i env =>
      match flights !! i with
      | Some f =>
          let '(cache', text, ops) :=
            resolve_resume env (flightDir f) cache (flightEntry f) (flightCall f) in
          (cache', delete i flights, (Some text, ops))
      | None => (cache, flights, (None, []))
      end
  end.

Fixpoint interleave (cache : gmap string string) (flights : list InFlight)
    (acts : list Action)
  : gmap string string * list InFlight * list (option string * list Effect) :=
  match acts with
  | [] => (cache, flights, [])
  | a :: rest =>
      let '(cache1, flights1, out) := act cache flights a in
      let '(cache2, flights2, outs) := interleave cache1 flights1 rest in
      (cache2, flights2, out :: outs)
  end.

(** [bySize]: a [Map] from size text to ranges, in insertion order. *)
Fixpoint group_add (sizeText : string) (r : Range) (m : list (string * list Range))
  : list (string * list Range) :=
  match m with
  | [] => [(sizeText, [r])]
  | (k, rs) :: m' =>
      if String.eqb k sizeText then (k, rs ++ [r]) :: m'
      else (k, rs) :: group_add sizeText r m'
  end.

Fixpoint group_all (sizes : list string) (all : list DepEntry)
    (m : list (string * list Range)) : list (string * list Range) :=
  match sizes, all with
  | s :: sizes', d :: all' => group_all sizes' all' (group_add s (range d) m)
  | _, _ => m
  end.

Definition bySize (sizes : list string) (all : list DepEntry) : list (string * list Range) :=
  group_all sizes all [].

Definition setDecorations (st : State) (editor : nat) (sizeText : string)
    (ranges : list Range) : State :=
  {| sizeCache := sizeCache st;
     decorationTypeCache := decorationTypeCache st;
     decorations := <[(editor, sizeText) := ranges]> (decorations st);
     timeout := timeout st |}.

(** [getDecorationType]: the type of a size text is created once. *)
Definition getDecorationType (st : State) (sizeText : string) : State * list Effect :=
  if mem sizeText (decorationTypeCache st) then (st, [])
  else ({| sizeCache := sizeCache st;
           decorationTypeCache := decorationTypeCache st ++ [sizeText];
           decorations := decorations st;
           timeout := timeout st |},
        [ECreateType sizeText]).

(** [for (const [sizeText, ranges] of bySize) { ... editor.setDecorations(type, ranges); }] *)
Fixpoint paint_groups (editor : nat) (groups : list (string * list Range)) (st : State)
  : State * list Effect :=
  match groups with
  | [] => (st, [])
  | (sizeText, ranges) :: rest =>
      let '(st1, ops1) := getDecorationType st sizeText in
      let st2 := setDecorations st1 editor sizeText ranges in
      let '(st3, ops3) := paint_groups editor rest st2 in
      (st3, ops1 ++ ESetDecorations editor sizeText ranges :: ops3)
  end.

(** [for (const [cachedText, type] of decorationTypeCache)
      if (!typesUsed.has(cachedText)) editor.setDecorations(type, []);] *)
Fixpoint clear_unused (editor : nat) (typesUsed : list string) (types : list string)
    (st : State) : State * list Effect :=
  match types with
  | [] => (st, [])
  | cachedText :: rest =>
      if mem cachedText typesUsed then clear_unused editor typesUsed rest st
      else
        let '(st', ops) :=
          clear_unused editor typesUsed rest (setDecorations st editor cachedText []) in
        (st', ESetDecorations editor cachedText [] :: ops)
  end.

Definition with_sizeCache (st : State) (cache : gmap string string) : State :=
  {| sizeCache := cache;
     decorationTypeCache := decorationTypeCache st;
     decorations := decorations st;
     timeout := timeout st |}.

Definition with_timeout (st : State) (t : option nat) : State :=
  {| sizeCache := sizeCache st;
     decorationTypeCache := decorationTypeCache st;
     decorations := decorations st;
     timeout := t |}.

(** <<
async function updateDecorations(editor, context) {
  const config = vscode.workspace.getConfiguration('packageSizeInline');
  if (!config.get<boolean>('enabled', true)) return;
  if (!isPackageJson(editor.document)) return;
  const { deps, devDeps } = parseDepsFromDocument(editor.document);
  const all = [...deps, ...devDeps];
  if (all.length === 0) return;
  const docDir = path.dirname(editor.document.uri.fsPath);
  const sizes = await Promise.all(all.map(...));
  const bySize = new Map();  ...
  const typesUsed = new Set();
  for (const [sizeText, ranges] of bySize) { ... }
  for (const [cachedText, type] of decorationTypeCache) { ... }
}
>>
    run from its call to its end. *)
Definition updateDecorations (env : Env) (st : State) (editor : TextEditor)
  : State * list Effect :=
  if negb (enabled env) then (st, [])
  else if negb (isPackageJson (document editor)) then (st, [])
  else
    let '(deps, devDeps) := parseDepsFromDocument (JSON_parse env) (document editor) in
    let all := deps ++ devDeps in
    if Nat.eqb (length all) 0 then (st, [EParse])
    else
      let docDir := path_dirname (fsPath (document editor)) in
      let '(sizes, cache, ops) := resolveAll env docDir (sizeCache st) all in
      let groups := bySize sizes all in
      let '(st1, ops1) := paint_groups (editorId editor) groups (with_sizeCache st cache) in
      let '(st2, ops2) :=
        clear_unused (editorId editor) (map fst groups) (decorationTypeCache st1) st1 in
      (st2, EParse :: ops ++ ops1 ++ ops2).

(** <<
function clearAllDecorations(editor) {
  for (const type of decorationTypeCache.values()) editor.setDecorations(type, []);
}
>> *)
Definition clearAllDecorations (st : State) (editor : nat) : State * list Effect :=
  clear_unused editor [] (decorationTypeCache st) st.

(** [triggerUpdate(editor, throttle)] of [activate]; a throttled update
    waits for the timer. *)
Definition triggerUpdate (env : Env) (st : State) (editor : option TextEditor)
    (throttle : bool) : State * list Effect :=
  let st := with_timeout st None in
  match editor with
  | None => (st, [])
  | Some ed =>
      if negb (isPackageJson (document ed)) then clearAllDecorations st (editorId ed)
      else if throttle then (with_timeout st (Some (editorId ed)), [])
      else updateDecorations env st ed
  end.

(** What the host reports to the listeners [activate] subscribes. *)
Inductive Event : Type :=
| ActiveEditorChanged (editor : option TextEditor)
| TextChanged (active : TextEditor)       (* the document of the active editor changed *)
| DocumentOpened (active : TextEditor)    (* a manifest opened in the active editor *)
| TimerFired (doc : TextDocument).        (* 400 ms passed; [doc] is the editor's document now *)

Definition handle (env : Env) (st : State) (ev : Event) : State * list Effect :=
  match ev with
  | ActiveEditorChanged (Some ed) =>
      if isPackageJson (document ed) then triggerUpdate env st (Some ed) false
      else clearAllDecorations st (editorId ed)
  | ActiveEditorChanged None => (st, [])
  | TextChanged ed => triggerUpdate env st (Some ed) true
  | DocumentOpened ed =>
      if isPackageJson (document ed) then triggerUpdate env st (Some ed) false else (st, [])
  | TimerFired doc =>
      match timeout st with
      | Some ed => updateDecorations env (with_timeout st None) {| editorId := ed; document := doc |}
      | None => (st, [])
      end
  end.

(** A run of the extension: each event is handled under the environment of
    its moment, and to its end before the next one arrives, so the passes
    of a run do not overlap. *)
Fixpoint run (st : State) (evs : list (Env * Event)) : State * list Effect :=
  match evs with
  | [] => (st, [])
  | (env, ev) :: rest =>
      let '(st1, ops1) := handle env st ev in
      let '(st2, ops2) := run st1 rest in
      (st2, ops1 ++ ops2)
  end.

(** <<
export function deactivate() {
  decorationTypeCache.forEach((t) => t.dispose());
  decorationTypeCache.clear();
  sizeCache.clear();
}
>> *)
Definition deactivate (st : State) : State :=
  {| sizeCache := ∅;
     decorationTypeCache := [];
     decorations :=
       filter (fun kv => negb (mem (snd (fst kv)) (decorationTypeCache st))) (decorations st);
     timeout := timeout st |}.

(** ** A reference [JSON.parse]

    The theorems below hold for whatever function the host provides as
    [JSON.parse].  To run the extension on concrete manifests, this module
    gives one: a recursive-descent parser of the JSON grammar, for texts
    whose numbers are integer literals and whose [\u] escapes stay below
    256. *)

Module RefJSON.

Definition is_ws (a : ascii) : bool :=
  let c := Str.code a in (c =? 32) || (c =? 9) || (c =? 10) || (c =? 13).

Fixpoint skip_ws (s : string) : string :=
  match s with
  | String a s' => if is_ws a then skip_ws s' else s
  | EmptyString => s
  end.

Definition hex_val (a : ascii) : option Z :=
  let c := Str.code a in
  if is_digit a then Some (c - 48)
  else if (65 <=? c) && (c <=? 70) then Some (c - 55)
  else if (97 <=? c) && (c <=? 102) then Some (c - 87)
  else None.

Definition simple_escape (e : ascii) : option ascii :=
  let c := Str.code e in
  if (c =? 34) || (c =? 92) || (c =? 47) then Some e
  else if c =? 98 then Some (Str.chr 8)
  else if c =? 102 then Some (Str.chr 12)
  else if c =? 110 then Some (Str.chr 10)
  else if c =? 114 then Some (Str.chr 13)
  else if c =? 116 then Some (Str.chr 9)
  else None.

(** The characters of a string literal after its opening quote, and the
    text after its closing quote. *)
Fixpoint parse_chars (s : string) : option (string * string) :=
  match s with
  | EmptyString => None
  | String a s' =>
      if Ascii.eqb a dquote then Some (EmptyString, s')
      else if Str.code a <? 32 then None
      else if Str.code a =? 92 then
        match s' with
        | String e s'' =>
            match simple_escape e with
            | Some c => '(r, rest) ← parse_chars s''; Some (String c r, rest)
            | None =>
                if Str.code e =? 117 then
                  match s'' with
                  | String h1 (String h2 (String h3 (String h4 t))) =>
                      d1 ← hex_val h1; d2 ← hex_val h2;
                      d3 ← hex_val h3; d4 ← hex_val h4;
                      if (d1 =? 0) && (d2 =? 0) then
                        '(r, rest) ← parse_chars t;
                        Some (String (Str.chr (16 * d3 + d4)) r, rest)
                      else None
                  | _ => None
                  end
                else None
            end
        | EmptyString => None
        end
      else '(r, rest) ← parse_chars s'; Some (String a r, rest)
  end.

Fixpoint parse_digits (s : string) (acc : Z) : Z * string :=
  match s with
  | String a s' =>
      if is_digit a then parse_digits s' (10 * acc + (Str.code a - 48)) else (acc, s)
  | EmptyString => (acc, s)
  end.

(** An integer literal: [0], or a non-zero digit and more digits. *)
Definition parse_int (s : string) : option (Z * string) :=
  match s with
  | String a s' =>
      if is_digit a then
        let '(n, rest) :=
          if Str.code a =? 48 then (0, s') else parse_digits s' (Str.code a - 48) in
        match rest with
        | String c _ =>
            if mem (String c "") ["."; "e"; "E"] then None else Some (n, rest)
        | EmptyString => Some (n, rest)
        end
      else None
  | EmptyString => None
  end.

(** Setting a member: a repeated name keeps its place and takes the new
    value. *)
Fixpoint set_member (k : string) (v : JSON) (ms : list (string * JSON))
  : list (string * JSON) :=
  match ms with
  | [] => [(k, v)]
  | (k', v') :: ms' =>
      if String.eqb k' k then (k', v) :: ms' else (k', v') :: set_member k v ms'
  end.

Fixpoint parse_value (fuel : nat) (s : string) {struct fuel} : option (JSON * string) :=
  match fuel with
  | O => None
  | S fuel' =>
      match skip_ws s with
      | EmptyString => None
      | String a s' =>
          let c := Str.code a in
          if c =? 123 then
            match skip_ws s' with
            | String b s'' =>
                if Str.code b =? 125 then Some (JObj [], s'')
                else parse_members fuel' (String b s'') []
            | EmptyString => None
            end
          else if c =? 91 then
            match skip_ws s' with
            | String b s'' =>
                if Str.code b =? 93 then Some (JArr [], s'')
                else parse_elements fuel' (String b s'') []
            | EmptyString => None
            end
          else if c =? 34 then
            '(str, rest) ← parse_chars s'; Some (JStr str, rest)
          else if c =? 45 then
            '(n, rest) ← parse_int s'; Some (JNum (- n), rest)
          else if is_digit a then
            '(n, rest) ← parse_int (String a s'); Some (JNum n, rest)
          else if Str.startsWith "true" (String a s') then Some (JBool true, Str.drop 4 (String a s'))
          else if Str.startsWith "false" (String a s') then Some (JBool false, Str.drop 5 (String a s'))
          else if Str.startsWith "null" (String a s') then Some (JNull, Str.drop 4 (String a s'))
          else None
      end
  end
with parse_members (fuel : nat) (s : string) (acc : list (string * JSON)) {struct fuel}
  : option (JSON * string) :=
  match fuel with
  | O => None
  | S fuel' =>
      match skip_ws s with
      | String q s1 =>
          if Ascii.eqb q dquote then
            '(k, s2) ← parse_chars s1;
            match skip_ws s2 with
            | String c s3 =>
                if Str.code c =? 58 then
                  '(v, s4) ← parse_value fuel' s3;
                  let acc' := set_member k v acc in
                  match skip_ws s4 with
                  | String d s5 =>
                      if Str.code d =? 44 then parse_members fuel' s5 acc'
                      else if Str.code d =? 125 then Some (JObj acc', s5)
                      else None
                  | EmptyString => None
                  end
                else None
            | EmptyString => None
            end
          else None
      | EmptyString => None
      end
  end
with parse_elements (fuel : nat) (s : string) (acc : list JSON) {struct fuel}
  : option (JSON * string) :=
  match fuel with
  | O => None
  | S fuel' =>
      '(v, s1) ← parse_value fuel' s;
      match skip_ws s1 with
      | String d s2 =>
          if Str.code d =? 44 then parse_elements fuel' s2 (acc ++ [v])
          else if Str.code d =? 93 then Some (JArr (acc ++ [v]), s2)
          else None
      | EmptyString => None
      end
  end.

Definition parse (text : string) : option JSON :=
  match parse_value (2 * String.length text + 2) text with
  | Some (j, rest) => if String.eqb (skip_ws rest) "" then Some j else None
  | None => None
  end.

End RefJSON.

(** Writing texts that contain double quotes: [qq] turns every apostrophe
    into a double quote. *)
Fixpoint qq (s : string) : string :=
  match s with
  | EmptyString => EmptyString
  | String a s' => String (if Ascii.eqb a "'"%char then dquote else a) (qq s')
  end.

(** ** Specification predicates *)

(** [m] is the integer for which [m / 10 - num / den] is as close to zero as
    possible, the larger one when two are equally close. *)
Definition nearest_tenths (num den m : Z) : Prop :=
  forall k : Z,
    Z.abs (10 * num - m * den) <= Z.abs (10 * num - k * den)
    /\ (Z.abs (10 * num - m * den) = Z.abs (10 * num - k * den) -> k <= m).

Definition all_digits (s : string) : Prop := s <> "" /\ Str.all is_digit s = true.

(** A version of the shape digits.digits.digits, optionally followed by a
    prerelease suffix (a hyphen and one or more characters other than a
    plus) and by a build suffix (a plus and characters of the same line). *)
Definition exact_shape (v : string) : Prop :=
  exists major minor patch pre build : string,
    v = major +:+ "." +:+ minor +:+ "." +:+ patch +:+ pre +:+ build
    /\ all_digits major /\ all_digits minor /\ all_digits patch
    /\ (pre = "" \/ exists p, pre = "-" +:+ p /\ p <> "" /\ Str.all not_plus p = true)
    /\ (build = "" \/ exists b, build = "+" +:+ b /\ Str.all is_dot b = true).

(** The names a manifest declares in one of its two categories: the members
    of the object found there, none when the category is absent (or
    [null], [false], [0] or the empty string).  A category that holds
    anything else declares no name set. *)
Definition declared (json : JSON) (category : string) : option (list (string * JSON)) :=
  match get_field (Json json) category with
  | Some (Json (JObj ms)) => Some ms
  | Some v => if truthy v then None else Some []
  | None => None
  end.

(** [k in o] for an object with the members [ms]. *)
Definition name_in (ms : list (string * JSON)) (k : string) : bool :=
  match get_computed (JObj ms) k with
  | Undefined => false
  | _ => true
  end.

(** Line [ln] of the document holds the offset: the offset lies between the
    start of the line and the end of its terminator. *)
Definition line_holds (doc : TextDocument) (ln offset : nat) : Prop :=
  (ln < length (lines doc))%nat
  /\ (lineStart doc ln <= offset
      < lineStart doc ln + String.length (nth ln (lines doc) "")
        + String.length (eol doc))%nat.

(** The text found at an offset is a match of the parser's pattern with the
    groups [k] and [v]. *)
Definition pattern_at (text : string) (offset : nat) (k v : string) : Prop :=
  exists w1 w2 rest : string,
    Str.drop offset text =
      String dquote k +:+ String dquote w1 +:+ ":" +:+ w2
        +:+ String dquote v +:+ String dquote rest
    /\ k <> "" /\ Str.all not_dquote k = true /\ Str.all not_dquote v = true
    /\ Str.all is_space w1 = true /\ Str.all is_space w2 = true.

(** The same, with the number of characters the match covers. *)
Definition pattern_span (text : string) (offset : nat) (k v : string) (n : nat) : Prop :=
  exists w1 w2 rest : string,
    Str.drop offset text =
      String dquote k +:+ String dquote w1 +:+ ":" +:+ w2
        +:+ String dquote v +:+ String dquote rest
    /\ k <> "" /\ Str.all not_dquote k = true /\ Str.all not_dquote v = true
    /\ Str.all is_space w1 = true /\ Str.all is_space w2 = true
    /\ n = (String.length k + String.length w1 + String.length w2
            + String.length v + 5)%nat.

(** Matches that follow one another in the text without overlapping: each
    is an occurrence of the pattern, and every later one starts at or after
    its end. *)
Inductive spaced (text : string) : list Match -> Prop :=
| spaced_nil : spaced text []
| spaced_cons (m : Match) (l : list Match) (n : nat) :
    pattern_span text (index m) (group1 m) (group2 m) n ->
    Forall (fun m' => (index m + n <= index m')%nat) l ->
    spaced text l ->
    spaced text (m :: l).

(** The matches [ms] leave out no occurrence of the pattern but those that
    begin inside one of them. *)
Definition exhaustive (text : string) (ms : list Match) : Prop :=
  forall i k v,
    pattern_at text i k v ->
    exists m n,
      In m ms /\ pattern_span text (index m) (group1 m) (group2 m) n
      /\ ((index m = i /\ group1 m = k /\ group2 m = v)
          \/ (index m < i < index m + n)%nat).

(** *** The registry lookup, in the words of the specification

    For a version spec that is not an exact version, the package's full
    metadata is looked up; the size is that of the version the spec names
    when the versions map has it, else that of the version the [latest]
    tag names; a response that is not a success, a missing [versions],
    [dist] or [unpackedSize], or a size that is not a number, give the
    unknown label. *)

(** The [latest] member of the [dist-tags] object, when there is one. *)
Definition latest_json (body : list (string * JSON)) : option JSON :=
  match member "dist-tags" body with
  | Some (JObj tags) => member "latest" tags
  | _ => None
  end.

Definition latest_tag (body : list (string * JSON)) : option string :=
  match latest_json body with
  | Some (JStr l) => Some l
  | _ => None
  end.

(** The label of [versions[v].dist.unpackedSize]. *)
Definition version_size (vs : list (string * JSON)) (v : string) : string :=
  match member v vs with
  | Some (JObj entry) =>
      match member "dist" entry with
      | Some (JObj dist) =>
          match member "unpackedSize" dist with
          | Some (JNum n) => formatBytes n
          | _ => UNKNOWN
          end
      | _ => UNKNOWN
      end
  | _ => UNKNOWN
  end.

Definition metadata_size (ver : string) (res : FetchResult) : string :=
  match res with
  | Response true (Some (JObj body)) =>
      match member "versions" body with
      | Some (JObj vs) =>
          if negb (String.eqb ver "*") && bool_decide (is_Some (member ver vs))
          then version_size vs ver
          else match latest_tag body with
               | Some l => version_size vs l
               | None => UNKNOWN
               end
      | _ => UNKNOWN
      end
  | _ => UNKNOWN
  end.

(** *** The registry lookup, as the code performs it

    The name the [latest] tag gives: the tag as a member name, or the empty
    name when there is no tag (or the tag is [null]). *)
Definition tag_name (body : list (string * JSON)) : string :=
  match latest_json body with
  | None | Some JNull => ""
  | Some tag => JSON_toString tag
  end.

(** The entry the versions value has under a name: a member of the
    object; for an array, the element with that index, or its length. *)
Definition entry_of (versions : JSON) (k : string) : option JSON :=
  match versions with
  | JObj vs => member k vs
  | JArr items =>
      match element k 0 items with
      | Some e => Some e
      | None =>
          if String.eqb k "length" then Some (JNum (Z.of_nat (length items))) else None
      end
  | _ => None
  end.

(** The names the versions value has without an entry of its own: those
    every object, or every array, inherits. *)
Definition inherits (versions : JSON) (k : string) : bool :=
  match versions with
  | JObj _ => mem k Object_prototype_keys
  | JArr _ => mem k Array_prototype_keys || mem k Object_prototype_keys
  | _ => false
  end.

(** The label of [dist.unpackedSize] of an entry. *)
Definition entry_size (entry : option JSON) : string :=
  match entry with
  | Some (JObj e) =>
      match member "dist" e with
      | Some (JObj dist) =>
          match member "unpackedSize" dist with
          | Some (JNum n) => formatBytes n
          | _ => UNKNOWN
          end
      | _ => UNKNOWN
      end
  | _ => UNKNOWN
  end.

(** A spec names a version of its own when it is not the wildcard and the
    versions value has a truthy entry under it, or inherits the name. *)
Definition names_version (versions : JSON) (ver : string) : bool :=
  negb (String.eqb ver "*")
  && match entry_of versions ver with
     | Some e => truthy (Json e)
     | None => inherits versions ver
     end.

(** The size is that of the entry the spec names, when it names one, else
    that of the entry under the name the [latest] tag gives; the unknown
    label unless the response is a success whose body is an object with an
    object (or array) as [versions]. *)
Definition metadata_label (ver : string) (res : FetchResult) : string :=
  match res with
  | Response true (Some (JObj body)) =>
      match member "versions" body with
      | Some ((JObj _ | JArr _) as versions) =>
          if names_version versions ver then entry_size (entry_of versions ver)
          else entry_size (entry_of versions (tag_name body))
      | _ => UNKNOWN
      end
  | _ => UNKNOWN
  end.

(** *** The installed size, in the words of the specification

    The sizes of all files transitively contained in a directory, and
    whether every directory below can be listed and every entry can be
    stat'ed. *)
Fixpoint files_below (node : FsNode) : list Z :=
  match node with
  | FsFile sz | FsSpecial sz => [sz]
  | FsDir (Some ents) => flat_map (fun e => files_below (snd e)) ents
  | FsDir None | FsUnreadable => []
  end.

Fixpoint intact (node : FsNode) : bool :=
  match node with
  | FsFile _ | FsSpecial _ => true
  | FsDir (Some ents) => forallb (fun e => intact (snd e)) ents
  | FsDir None | FsUnreadable => false
  end.

Definition sumZ (l : list Z) : Z := fold_right Z.add 0 l.

Definition installed_label (root : FsNode) (path : string) : string :=
  match fs_stat root path with
  | Some (FsFile sz) => formatBytes sz
  | Some (FsDir l) =>
      if intact (FsDir l) then formatBytes (sumZ (files_below (FsDir l))) else UNKNOWN
  | Some (FsSpecial _) | Some FsUnreadable | None => UNKNOWN
  end.

Definition no_slash (s : string) : Prop := Str.all (fun a => negb (is_slash a)) s = true.

(** *** Lookups *)

(** The call an entry's resolver issues when it does not return from the
    cache. *)
Definition request_of (docDir : string) (d : DepEntry) : Effect :=
  if isFileDependency (version d) then EStat (installPath docDir (name d))
  else let '(nm, ver) := parsePackageSpec (specOf d) in EFetch (registry_url nm ver).

(** An entry issues a call when its key is not cached, unless it is a
    registry entry with an empty spec. *)
Definition needs_lookup (cache : gmap string string) (docDir : string) (d : DepEntry) : bool :=
  bool_decide (cache !! cacheKeyOf docDir d = None)
  && (isFileDependency (version d) || negb (String.eqb (specOf d) "")).

Definition is_fetch (e : Effect) : bool :=
  match e with
  | EFetch _ => true
  | _ => false
  end.

(** The label an entry's resolver computes once its awaited call settles,
    and the further calls it makes on the way. *)
Definition settled (env : Env) (docDir : string) (d : DepEntry) : string * list Effect :=
  if isFileDependency (version d) then
    let '(ops, r) := getNodeModulesPackageSize_try (fsRoot env) (installPath docDir (name d)) in
    (default UNKNOWN r, ops)
  else
    let '(nm, ver) := parsePackageSpec (specOf d) in
    (default UNKNOWN (fetchSize_try ver (fetch env (registry_url nm ver))), []).

(** The calls of a pass in which the resolvers of the entries [l] miss the
    cache: first the call each issues, then what each does when it
    resumes. *)
Definition pass_ops (env : Env) (docDir : string) (l : list DepEntry) : list Effect :=
  map (request_of docDir) l ++ flat_map (fun d => snd (settled env docDir d)) l.

(** What the first phase of a pass leaves for an entry. *)
Definition started_of (docDir : string) (cache : gmap string string) (d : DepEntry)
  : Started :=
  if needs_lookup cache docDir d then Awaiting (request_of docDir d)
  else Returned (default UNKNOWN (cache !! cacheKeyOf docDir d)).

(** The first phase changes the cache at most under the empty key. *)
Definition begin_inv (cache cache' : gmap string string) : Prop :=
  forall k, cache' !! k = cache !! k
            \/ (k = "" /\ cache !! k = None /\ cache' !! k = Some UNKNOWN).

(** What [getDirSize] returns for a directory. *)
Definition dir_total (node : FsNode) : Prop :=
  match node with
  | FsDir _ =>
      forall dirPath,
        snd (getDirSize dirPath node)
        = if intact node then Some (sumZ (files_below node)) else None
  | _ => True
  end.

(** No resolver of the key is in flight. *)
Definition none_in_flight (key : string) (flights : list InFlight) : Prop :=
  Forall (fun f => cacheKeyOf (flightDir f) (flightEntry f) <> key) flights.

(** A resolver called for the key returned the label at once, without a
    call. *)
Definition served (key label : string) (a : Action) (out : option string * list Effect)
  : Prop :=
  match a with
  | Called docDir d => cacheKeyOf docDir d = key -> out = (Some label, [])
  | Settled _ _ => True
  end.

(** *** The coordinator *)

(** The event concerns an editor that shows a manifest. *)
Definition manifest_event (ev : Event) : Prop :=
  match ev with
  | ActiveEditorChanged (Some ed) | TextChanged ed | DocumentOpened ed =>
      isPackageJson (document ed) = true
  | ActiveEditorChanged None | TimerFired _ => True
  end.

(** The ranges of the group of a size text. *)
Fixpoint group_of (sizeText : string) (groups : list (string * list Range)) : list Range :=
  match groups with
  | [] => []
  | (k, rs) :: groups' => if String.eqb k sizeText then rs else group_of sizeText groups'
  end.

(** The calls of [editor.setDecorations] in a trace. *)
Definition setDecorations_calls (ops : list Effect) : list (nat * string * list Range) :=
  omap (fun e => match e with
                 | ESetDecorations ed t rs => Some (ed, t, rs)
                 | _ => None
                 end) ops.

(** ** Sample data *)

Definition LF : string := String (Str.chr 10) "".

Definition sample_manifest : TextDocument :=
  {| fsPath := "/proj/package.json";
     fileName := "/proj/package.json";
     eol := LF;
     lines := map qq
       ["{";
        "  'name': 'demo',";
        "  'dependencies': {";
        "    'lodash': '4.17.21',";
        "    'left-pad': 'file:../left-pad'";
        "  },";
        "  'devDependencies': { 'lodash': '', '@babel/core' :  '^7.0.0' }";
        "}"] |}.

(** The same manifest in the middle of an edit. *)
Definition sample_broken : TextDocument :=
  {| fsPath := "/proj/package.json";
     fileName := "/proj/package.json";
     eol := LF;
     lines := map qq ["{"; "  'dependencies': {"; "    'lodash': '4.17.21',"] |}.

Definition sample_json : JSON :=
  Eval vm_compute in default JNull (RefJSON.parse (getText sample_manifest)).

Definition sample_dependencies : list (string * JSON) :=
  Eval vm_compute in default [] (declared sample_json "dependencies").

Definition sample_devDependencies : list (string * JSON) :=
  Eval vm_compute in default [] (declared sample_json "devDependencies").

Definition sample_metadata : JSON :=
  JObj [("name", JStr "lodash");
        ("dist-tags", JObj [("latest", JStr "4.17.21")]);
        ("versions",
         JObj [("4.17.20", JObj [("dist", JObj [("unpackedSize", JNum 1409704)])]);
               ("4.17.21", JObj [("dist", JObj [("unpackedSize", JNum 1434895)])])])].

Definition sample_fetch (url : string) : FetchResult :=
  if String.eqb url "https://registry.npmjs.org/lodash"
  then Response true (Some sample_metadata)
  else if String.eqb url "https://registry.npmjs.org/lodash/4.17.21"
  then Response true (Some (JObj [("dist", JObj [("unpackedSize", JNum 1434895)])]))
  else Response false None.

(** Metadata without a [latest] tag, with a version of the empty name. *)
Definition sample_untagged : JSON :=
  JObj [("name", JStr "pkg");
        ("versions", JObj [("", JObj [("dist", JObj [("unpackedSize", JNum 7)])])])].

(** Metadata in which the entry of a version is [null]. *)
Definition sample_null_entry : JSON :=
  JObj [("name", JStr "pkg");
        ("dist-tags", JObj [("latest", JStr "1.0.0")]);
        ("versions",
         JObj [("next", JNull);
               ("1.0.0", JObj [("dist", JObj [("unpackedSize", JNum 100)])])])].

Definition env_answering (body : JSON) : Env :=
  {| enabled := true;
     JSON_parse := RefJSON.parse;
     fetch := fun _ => Response true (Some body);
     fsRoot := FsDir (Some []) |}.

(** A project whose installed [left-pad] totals 2048 bytes. *)
Definition sample_fs : FsNode :=
  FsDir (Some
    [("proj",
      FsDir (Some
        [("package.json", FsFile 310);
         ("node_modules",
          FsDir (Some
            [("left-pad",
              FsDir (Some
                [("package.json", FsFile 548);
                 ("index.js", FsFile 1000);
                 ("lib", FsDir (Some [("pad.js", FsFile 500)]))]));
             ("@scope", FsDir (Some [("tool", FsFile 1572864)]));
             ("broken", FsDir (Some [("a.js", FsFile 10); ("gone", FsUnreadable)]))]))]))]).

Definition sample_env : Env :=
  {| enabled := true;
     JSON_parse := RefJSON.parse;
     fetch := sample_fetch;
     fsRoot := sample_fs |}.

Definition sample_range : Range :=
  {| range_start := {| line := 4; character := 34 |};
     range_end := {| line := 4; character := 34 |} |}.

Definition sample_left_pad : DepEntry :=
  {| name := "left-pad"; version := "file:../left-pad"; range := sample_range |}.

Definition sample_lodash : DepEntry :=
  {| name := "lodash"; version := "^4.17.0"; range := sample_range |}.

(** An environment in which nothing can be reached. *)
Definition offline_env : Env :=
  {| enabled := true;
     JSON_parse := RefJSON.parse;
     fetch := fun _ => NetworkError;
     fsRoot := FsDir (Some []) |}.

(** Two resolvers of one key are called before either is answered; the
    first is answered by a network error, the second by the registry; then
    the key is resolved once more. *)
Definition sample_race : list Action :=
  [Called "/proj" sample_lodash; Called "/proj" sample_lodash;
   Settled 0 offline_env; Settled 0 sample_env; Called "/proj" sample_lodash].

Definition initial_state : State :=
  {| sizeCache := ∅; decorationTypeCache := []; decorations := ∅; timeout := None |}.

Definition sample_editor : TextEditor := {| editorId := 1; document := sample_manifest |}.

(** A manifest that declares the same package, with the same range, in both
    categories. *)
Definition sample_duplicates : TextDocument :=
  {| fsPath := "/proj/package.json";
     fileName := "/proj/package.json";
     eol := LF;
     lines := map qq
       ["{";
        "  'dependencies': { 'lodash': '^4.17.0' },";
        "  'devDependencies': { 'lodash': '^4.17.0' }";
        "}"] |}.

(** The sample manifest after every dependency was deleted. *)
Definition sample_emptied : TextDocument :=
  {| fsPath := "/proj/package.json";
     fileName := "/proj/package.json";
     eol := LF;
     lines := map qq ["{"; "  'name': 'demo'"; "}"] |}.

Definition disabled_env : Env :=
  {| enabled := false;
     JSON_parse := RefJSON.parse;
     fetch := sample_fetch;
     fsRoot := sample_fs |}.

(** * Further definitions *)

(** The size an exact-version lookup reports: [dist.unpackedSize] of the
    version document, when the response is a success and the size a
    number. *)
Definition exact_size (res : FetchResult) : string :=
  match res with
  | Response true (Some (JObj body)) =>
      match member "dist" body with
      | Some (JObj dist) =>
          match member "unpackedSize" dist with
          | Some (JNum n) => formatBytes n
          | _ => UNKNOWN
          end
      | _ => UNKNOWN
      end
  | _ => UNKNOWN
  end.

(** The longest prefix of a list whose elements pass a test. *)
Fixpoint while_true {A} (p : A -> bool) (l : list A) : list A :=
  match l with
  | [] => []
  | x :: l' => if p x then x :: while_true p l' else []
  end.

Definition sample_babel : DepEntry :=
  {| name := "@babel/core"; version := "^7.0.0"; range := sample_range |}.

(** A manifest whose development dependencies are not an object. *)
Definition sample_bad_dev : TextDocument :=
  {| fsPath := "/proj/package.json";
     fileName := "/proj/package.json";
     eol := LF;
     lines := map qq
       ["{";
        "  'name': 'demo',";
        "  'dependencies': { 'lodash': '4.17.21' },";
        "  'devDependencies': 7";
        "}"] |}.

Definition sample_bad_dev_json : JSON :=
  Eval vm_compute in default JNull (RefJSON.parse (getText sample_bad_dev)).

(** A file that is not named [package.json], in mixed case. *)
Definition sample_other_name : TextDocument :=
  {| fsPath := "/proj/my-Package.JSON";
     fileName := "/proj/my-Package.JSON";
     eol := LF;
     lines := ["{}"] |}.

(** The last entry the parser records for the sample manifest. *)
Definition sample_babel_entry : DepEntry :=
  {| name := "@babel/core"; version := "^7.0.0";
     range := {| range_start := {| line := 6; character := 64 |};
                 range_end := {| line := 6; character := 64 |} |} |}.

(** A manifest without dependencies whose scripts carry a name that every
    object inherits. *)
Definition sample_inherited : TextDocument :=
  {| fsPath := "/proj/package.json";
     fileName := "/proj/package.json";
     eol := LF;
     lines := map qq
       ["{";
        "  'name': 'demo',";
        "  'scripts': { 'toString': 'echo' }";
        "}"] |}.

Definition sample_inherited_json : JSON :=
  Eval vm_compute in default JNull (RefJSON.parse (getText sample_inherited)).

(** The length of the text a match of the scan covers ([m[0].length]). *)
Definition match_length (text : string) (m : Match) : nat :=
  match match_here (Str.drop (index m) text) with
  | Some (_, _, n) => n
  | None => 0
  end.

(** The size texts for which a run created a decoration type. *)
Definition created (ops : list Effect) : list string :=
  omap (fun e => match e with ECreateType t => Some t | _ => None end) ops.

(** Every label an editor shows has its decoration type in the cache. *)
Definition labels_typed (st : State) : Prop :=
  forall ed t, painted st ed t <> [] -> mem t (decorationTypeCache st) = true.

(** What every step of the extension keeps: the type cache grows by the
    types created, without repeating one; a cached size stays as it is;
    shown labels keep their types. *)
Definition keeps (st st' : State) (ops : list Effect) : Prop :=
  decorationTypeCache st' = decorationTypeCache st ++ created ops
  /\ (NoDup (decorationTypeCache st) -> NoDup (decorationTypeCache st'))
  /\ (forall k v, sizeCache st !! k = Some v -> sizeCache st' !! k = Some v)
  /\ (labels_typed st -> labels_typed st').

(** An edit of the manifest in the active editor. *)
Definition manifest_edit (p : Env * Event) : Prop :=
  exists ed, snd p = TextChanged ed /\ isPackageJson (document ed) = true.

(** An editor on a file that is not a manifest. *)
Definition sample_readme : TextEditor :=
  {| editorId := 2;
     document := {| fsPath := "/proj/README.md"; fileName := "/proj/README.md";
                    eol := LF; lines := ["# demo"] |} |}.

(** The sample manifest becomes the active editor. *)
Definition sample_opening : list (Env * Event) :=
  [(sample_env, ActiveEditorChanged (Some sample_editor))].

(** The first phase of a resolver has its key cached when it returns. *)
Definition returned_cached (docDir : string) (cache : gmap string string)
    (d : DepEntry) (s : Started) : Prop :=
  match s with
  | Returned _ => is_Some (cache !! cacheKeyOf docDir d)
  | Awaiting _ => True
  end.

(** The state after the sample manifest was painted in editor 1, and that
    editor on a file that is not a manifest. *)
Definition sample_painted : State := fst (run initial_state sample_opening).

Definition sample_left : TextEditor :=
  {| editorId := 1; document := document sample_readme |}.
(** * Properties *)

(** ** Facts about strings *)

Module StrFacts.
Import Str.

Lemma app_cons (a : ascii) (s t : string) : String a s +:+ t = String a (s +:+ t).
Proof. reflexivity. Qed.

Lemma app_nil_l (s : string) : "" +:+ s = s.
Proof. reflexivity. Qed.

Lemma length_app (s t : string) :
  String.length (s +:+ t) = (String.length s + String.length t)%nat.
Proof.
  induction s as [|a s IH]; [reflexivity|].
  rewrite app_cons. simpl. now rewrite IH.
Qed.

Lemma app_assoc (s t u : string) : (s +:+ t) +:+ u = s +:+ t +:+ u.
Proof.
  induction s as [|a s IH]; [reflexivity|].
  rewrite !app_cons. now rewrite IH.
Qed.

Lemma app_nil_r (s : string) : s +:+ "" = s.
Proof.
  induction s as [|a s IH]; [reflexivity|].
  rewrite app_cons. now rewrite IH.
Qed.

Lemma take_app_length (s t : string) : take (String.length s) (s +:+ t) = s.
Proof.
  induction s as [|a s IH]; [now destruct t|].
  rewrite app_cons. simpl. now rewrite IH.
Qed.

Lemma drop_app_length (s t : string) : drop (String.length s) (s +:+ t) = t.
Proof.
  induction s as [|a s IH]; [now destruct t|].
  rewrite app_cons. simpl. exact IH.
Qed.

Lemma drop_add (n m : nat) (s : string) : drop (n + m) s = drop n (drop m s).
Proof.
  revert s. induction m as [|m IH]; intros s.
  - now rewrite Nat.add_0_r.
  - rewrite Nat.add_succ_r. destruct s as [|a s]; simpl; [now destruct n|apply IH].
Qed.

End StrFacts.

(** ** Rendering numbers *)

Section Decimal.

Lemma decimal_digits_acc (fuel : nat) (n : Z) (acc : string) :
  decimal_digits fuel n acc = decimal_digits fuel n "" +:+ acc.
Proof.
  revert n acc. induction fuel as [|fuel IH]; intros n acc; simpl; [reflexivity|].
  destruct (n <? 10); [reflexivity|].
  rewrite IH, (IH _ (String _ "")). now rewrite StrFacts.app_assoc.
Qed.

Lemma decimal_digits_more (fuel : nat) (n : Z) (acc : string) :
  0 <= n < 10 ^ Z.of_nat (S fuel) ->
  decimal_digits (S (S fuel)) n acc = decimal_digits (S fuel) n acc.
Proof.
  revert n acc. induction fuel as [|fuel IH]; intros n acc Hn.
  - simpl. destruct (n <? 10) eqn:E; [reflexivity|].
    apply Z.ltb_ge in E. change (10 ^ Z.of_nat 1) with 10 in Hn. lia.
  - change (decimal_digits (S (S (S fuel))) n acc)
      with (let acc' := String (digit_char (n mod 10)) acc in
            if n <? 10 then acc' else decimal_digits (S (S fuel)) (n / 10) acc').
    change (decimal_digits (S (S fuel)) n acc)
      with (let acc' := String (digit_char (n mod 10)) acc in
            if n <? 10 then acc' else decimal_digits (S fuel) (n / 10) acc').
    cbv zeta. destruct (n <? 10); [reflexivity|].
    apply IH. split; [apply Z.div_pos; lia|].
    apply Z.div_lt_upper_bound; [lia|].
    replace (Z.of_nat (S (S fuel))) with (Z.succ (Z.of_nat (S fuel))) in Hn by lia.
    rewrite Z.pow_succ_r in Hn by lia. lia.
Qed.

Lemma decimal_digits_fuel (f g : nat) (n : Z) (acc : string) :
  0 <= n < 10 ^ Z.of_nat (S f) -> (f <= g)%nat ->
  decimal_digits (S g) n acc = decimal_digits (S f) n acc.
Proof.
  intros Hn Hle. induction Hle as [|g Hle IH]; [reflexivity|].
  rewrite decimal_digits_more; [exact IH|].
  split; [lia|]. eapply Z.lt_le_trans; [apply Hn|].
  apply Z.pow_le_mono_r; lia.
Qed.

Lemma log2_fuel (n : Z) : 0 <= n -> n < 10 ^ Z.of_nat (S (Z.to_nat (Z.log2 n))).
Proof.
  intros Hn. destruct (Z.eq_dec n 0) as [->|Hne]; [reflexivity|].
  pose proof (Z.log2_spec n ltac:(lia)) as [_ Hlt].
  pose proof (Z.log2_nonneg n) as Hl.
  replace (Z.of_nat (S (Z.to_nat (Z.log2 n)))) with (Z.succ (Z.log2 n)) by lia.
  eapply Z.lt_le_trans; [exact Hlt|].
  apply Z.pow_le_mono_l. lia.
Qed.

(** The digits of [10 * q + d] are those of [q] followed by [d]. *)
Lemma decimal_snoc (n : Z) :
  10 <= n ->
  decimal n = decimal (n / 10) +:+ String (digit_char (n mod 10)) "".
Proof.
  intros Hn. unfold decimal at 1.
  set (f := Z.to_nat (Z.log2 n)).
  change (decimal_digits (S f) n "")
    with (let acc' := String (digit_char (n mod 10)) "" in
          if n <? 10 then acc' else decimal_digits f (n / 10) acc').
  cbv zeta. destruct (n <? 10) eqn:E; [apply Z.ltb_lt in E; lia|].
  rewrite decimal_digits_acc. f_equal.
  assert (Hq : 0 <= n / 10) by (apply Z.div_pos; lia).
  assert (Hf : exists f', f = S f').
  { assert (1 <= Z.log2 n) by (apply Z.log2_le_pow2; lia).
    exists (Nat.pred f). subst f. lia. }
  destruct Hf as [f' Hf]. rewrite Hf. unfold decimal.
  set (g := Z.to_nat (Z.log2 (n / 10))).
  assert (Hg : (g <= f')%nat).
  { subst g. assert (Z.log2 (n / 10) < Z.log2 n); [|lia].
    assert (H8 : n / 10 <= n / 2 ^ 1) by (apply Z.div_le_compat_l; lia).
    apply Z.log2_le_mono in H8. rewrite <- Z.shiftr_div_pow2 in H8 by lia.
    rewrite Z.log2_shiftr in H8 by lia.
    assert (3 <= Z.log2 n) by (apply Z.log2_le_pow2; lia). lia. }
  apply decimal_digits_fuel; [|exact Hg].
  split; [exact Hq|]. apply log2_fuel. exact Hq.
Qed.

Lemma decimal_digit (d : Z) :
  0 <= d < 10 -> decimal d = String (digit_char d) "".
Proof.
  intros Hd. unfold decimal.
  rewrite (decimal_digits_fuel 0) by (change (10 ^ Z.of_nat 1) with 10; lia).
  simpl. destruct (d <? 10) eqn:E; [|apply Z.ltb_ge in E; lia].
  now rewrite Z.mod_small by lia.
Qed.

Lemma decimal_nonempty (n : Z) : decimal n <> "".
Proof.
  unfold decimal. set (f := Z.to_nat (Z.log2 n)).
  change (decimal_digits (S f) n "")
    with (let acc' := String (digit_char (n mod 10)) "" in
          if n <? 10 then acc' else decimal_digits f (n / 10) acc').
  cbv zeta. destruct (n <? 10); [discriminate|].
  rewrite decimal_digits_acc.
  destruct (decimal_digits f (n / 10) ""); discriminate.
Qed.

Lemma decimal_length_ge2 (n : Z) : 10 <= n -> (2 <= String.length (decimal n))%nat.
Proof.
  intros Hn. rewrite decimal_snoc, StrFacts.length_app by exact Hn. simpl.
  pose proof (decimal_nonempty (n / 10)).
  destruct (decimal (n / 10)); [congruence|simpl; lia].
Qed.

End Decimal.

Lemma toFixed1_nearest_spec (num den : Z) :
  0 < den -> nearest_tenths num den (toFixed1_nearest num den).
Proof.
  intros Hden k. unfold toFixed1_nearest.
  set (m := (20 * num + den) / (2 * den)).
  assert (Hm : 2 * den * m <= 20 * num + den < 2 * den * m + 2 * den).
  { pose proof (Z.mul_div_le (20 * num + den) (2 * den) ltac:(lia)).
    pose proof (Z.mul_succ_div_gt (20 * num + den) (2 * den) ltac:(lia)).
    fold m in H, H0. lia. }
  destruct (Z.eq_dec k m) as [->|Hne]; [split; lia|].
  assert (Hk : k <= m - 1 \/ m + 1 <= k) by lia.
  split; destruct Hk; nia.
Qed.

(** With one or more units before the point, [toFixed(1)] writes the units
    of the nearest number of tenths, a point, and its last digit. *)
Lemma toFixed1_shape (num den : Z) :
  0 < den -> den <= num ->
  let m := toFixed1_nearest num den in
  10 <= m /\
  toFixed1 num den = decimal (m / 10) +:+ "." +:+ decimal (m mod 10).
Proof.
  intros Hden Hnum m.
  assert (Hm : 10 <= m).
  { subst m. unfold toFixed1_nearest. apply Z.div_le_lower_bound; lia. }
  split; [exact Hm|].
  unfold toFixed1. replace (num <? 0) with false by (symmetry; apply Z.ltb_ge; lia).
  rewrite Z.abs_eq by lia. fold m.
  replace (m =? 0) with false by (symmetry; apply Z.eqb_neq; lia).
  pose proof (decimal_length_ge2 m Hm) as Hlen.
  destruct (Nat.leb (String.length (decimal m)) 1) eqn:E;
    [apply Nat.leb_le in E; lia|].
  rewrite (decimal_snoc m Hm) at 1 3.
  rewrite (decimal_snoc m Hm) in Hlen |- *.
  rewrite StrFacts.length_app in *. simpl String.length in *.
  replace (String.length (decimal (m / 10)) + 1 - 1)%nat
    with (String.length (decimal (m / 10))) by lia.
  rewrite StrFacts.take_app_length, StrFacts.drop_app_length.
  rewrite (decimal_digit (m mod 10)) by (apply Z.mod_pos_bound; lia).
  reflexivity.
Qed.

(** ** C1: the size label *)

(** C1, the claim as worded fails on its last example: [toFixed(1)] rounds
    to the nearest tenth, and 1048575 / 1024 = 1023.999..., so the label of
    1,048,575 bytes is "1024.0 kB" and not "1023.9 kB". *)
Lemma formatBytes_1048575_not_1023_9 :
  formatBytes 1048575 = "1024.0 kB" /\ formatBytes 1048575 <> "1023.9 kB".
Proof. split; [reflexivity | discriminate]. Qed.

(** C1 (amended): for a byte count from 0 to [MAX_SAFE_INTEGER] (a
    non-negative integer that a double holds exactly), [formatBytes]
    renders by binary thresholds.  From
    1,048,576 on, the label is the number of mebibytes with one decimal
    place, rounded to the nearest tenth (a tie goes up), and the suffix
    " MB"; from 1,024 on, the kibibytes in the same way with " kB"; below,
    the raw count with " B".  In particular 500 gives "500 B", 2048 gives
    "2.0 kB", 1572864 gives "1.5 MB" and 1048575 gives "1024.0 kB". *)
Theorem formatBytes_thresholds (bytes : Z) :
  0 <= bytes <= MAX_SAFE_INTEGER ->
  (1048576 <= bytes ->
   exists m, nearest_tenths bytes 1048576 m /\
     formatBytes bytes = decimal (m / 10) +:+ "." +:+ decimal (m mod 10) +:+ " MB")
  /\ (1024 <= bytes < 1048576 ->
      exists m, nearest_tenths bytes 1024 m /\
        formatBytes bytes = decimal (m / 10) +:+ "." +:+ decimal (m mod 10) +:+ " kB")
  /\ (bytes < 1024 -> formatBytes bytes = decimal bytes +:+ " B")
  /\ formatBytes 500 = "500 B"
  /\ formatBytes 2048 = "2.0 kB"
  /\ formatBytes 1572864 = "1.5 MB"
  /\ formatBytes 1048575 = "1024.0 kB".
Proof.
  intros [Hpos _]. repeat split; try reflexivity.
  - intros Hge. exists (toFixed1_nearest bytes 1048576).
    split; [apply toFixed1_nearest_spec; lia|].
    unfold formatBytes. change (1024 * 1024) with 1048576.
    replace (bytes >=? 1048576) with true by (symmetry; apply Z.geb_le; lia).
    destruct (toFixed1_shape bytes 1048576 ltac:(lia) Hge) as [_ ->].
    now rewrite !StrFacts.app_assoc.
  - intros [Hge Hlt]. exists (toFixed1_nearest bytes 1024).
    split; [apply toFixed1_nearest_spec; lia|].
    unfold formatBytes. change (1024 * 1024) with 1048576.
    destruct (bytes >=? 1048576) eqn:E; [apply Z.geb_le in E; lia|].
    replace (bytes >=? 1024) with true by (symmetry; apply Z.geb_le; lia).
    destruct (toFixed1_shape bytes 1024 ltac:(lia) Hge) as [_ ->].
    now rewrite !StrFacts.app_assoc.
  - intros Hlt. unfold formatBytes. change (1024 * 1024) with 1048576.
    destruct (bytes >=? 1048576) eqn:E; [apply Z.geb_le in E; lia|].
    destruct (bytes >=? 1024) eqn:E'; [apply Z.geb_le in E'; lia|].
    unfold Number_toString.
    now replace (bytes <? 0) with false by (symmetry; apply Z.ltb_ge; lia).
Qed.

Lemma formatBytes_thresholds_witness :
  0 <= 1434895 <= MAX_SAFE_INTEGER /\
  exists m, nearest_tenths 1434895 1048576 m /\
    formatBytes 1434895 = decimal (m / 10) +:+ "." +:+ decimal (m mod 10) +:+ " MB".
Proof.
  assert (H : 0 <= 1434895 <= MAX_SAFE_INTEGER) by (unfold MAX_SAFE_INTEGER; lia).
  split; [exact H|].
  apply (formatBytes_thresholds 1434895 H); lia.
Defined.

(** ** Regular expressions: the matcher decides the language *)

Module RegexFacts.
Import Regex.

Lemma app_eq_nil (s t : string) : s +:+ t = "" -> s = "" /\ t = "".
Proof.
  destruct s; [intros H; split; [reflexivity|exact H]|].
  rewrite StrFacts.app_cons. discriminate.
Qed.

Lemma app_eq_cons (s t : string) (a : ascii) (u : string) :
  s +:+ t = String a u ->
  (s = "" /\ t = String a u) \/ (exists s', s = String a s' /\ u = s' +:+ t).
Proof.
  destruct s as [|b s]; [intros H; left; split; [reflexivity|exact H]|].
  rewrite StrFacts.app_cons. intros [= -> <-]. right. now exists s.
Qed.

Lemma lang_void (s : string) : lang Void s <-> False.
Proof. split; [intros H; inversion H|tauto]. Qed.

Lemma lang_eps (s : string) : lang Eps s <-> s = "".
Proof. split; [intros H; now inversion H|intros ->; constructor]. Qed.

Lemma lang_class (p : ascii -> bool) (s : string) :
  lang (Class p) s <-> exists a, s = String a "" /\ p a = true.
Proof.
  split.
  - intros H. inversion H; subst. eauto.
  - intros (a & -> & Ha). now constructor.
Qed.

Lemma lang_seq (r1 r2 : re) (s : string) :
  lang (Seq r1 r2) s <-> exists s1 s2, s = s1 +:+ s2 /\ lang r1 s1 /\ lang r2 s2.
Proof.
  split.
  - intros H. inversion H; subst. eauto.
  - intros (s1 & s2 & -> & H1 & H2). now constructor.
Qed.

Lemma lang_alt (r1 r2 : re) (s : string) :
  lang (Alt r1 r2) s <-> lang r1 s \/ lang r2 s.
Proof.
  split.
  - intros H. inversion H; subst; auto.
  - intros [H|H]; [now apply L_Alt_l|now apply L_Alt_r].
Qed.

Lemma nullable_lang (r : re) : nullable r = true <-> lang r "".
Proof.
  induction r as [| |p|r1 IH1 r2 IH2|r1 IH1 r2 IH2|r IH]; simpl.
  - rewrite lang_void. split; [discriminate|tauto].
  - rewrite lang_eps. tauto.
  - rewrite lang_class. split; [discriminate|]. intros (a & E & _). discriminate.
  - rewrite lang_seq, andb_true_iff, IH1, IH2. split.
    + intros [H1 H2]. exists "", "". auto.
    + intros (s1 & s2 & E & H1 & H2). symmetry in E.
      apply app_eq_nil in E as [-> ->]. auto.
  - rewrite lang_alt, orb_true_iff, IH1, IH2. tauto.
  - split; [constructor|reflexivity].
Qed.

Lemma lang_seq_cons (r1 r2 : re) (a : ascii) (s : string) :
  lang (Seq r1 r2) (String a s) <->
  (exists s1 s2, s = s1 +:+ s2 /\ lang r1 (String a s1) /\ lang r2 s2)
  \/ (lang r1 "" /\ lang r2 (String a s)).
Proof.
  rewrite lang_seq. split.
  - intros (s1 & s2 & E & H1 & H2). symmetry in E.
    apply app_eq_cons in E as [[-> ->]|[s' [-> ->]]]; [right|left]; eauto.
  - intros [(s1 & s2 & -> & H1 & H2)|[H1 H2]].
    + exists (String a s1), s2. auto.
    + exists "", (String a s). auto.
Qed.

Lemma lang_star_cons (r : re) (a : ascii) (s : string) :
  lang (Star r) (String a s) <->
  exists s1 s2, s = s1 +:+ s2 /\ lang r (String a s1) /\ lang (Star r) s2.
Proof.
  split.
  - intros H. remember (Star r) as r' eqn:Er. remember (String a s) as t eqn:Et.
    revert s Et.
    induction H as [|p b Hb|r1 r2 s1 s2 H1 IH1 H2 IH2|r1 r2 u H1 IH1
                   |r1 r2 u H1 IH1|r0|r0 s1 s2 H1 IH1 H2 IH2];
      intros s Et; try discriminate.
    injection Er as ->.
    apply app_eq_cons in Et as [[-> ->]|[s' [-> ->]]].
    + now apply IH2.
    + now exists s', s2.
  - intros (s1 & s2 & -> & H1 & H2).
    rewrite <- StrFacts.app_cons. now constructor.
Qed.

Lemma deriv_lang (r : re) (a : ascii) (s : string) :
  lang (deriv a r) s <-> lang r (String a s).
Proof.
  revert s. induction r as [| |p|r1 IH1 r2 IH2|r1 IH1 r2 IH2|r IH]; intros s; simpl.
  - rewrite !lang_void. tauto.
  - rewrite lang_void, lang_eps. split; [tauto|discriminate].
  - rewrite lang_class. destruct (p a) eqn:E.
    + rewrite lang_eps. split.
      * intros ->. eauto.
      * intros (b & [= <- ->] & _). reflexivity.
    + rewrite lang_void. split; [tauto|].
      intros (b & [= <- ->] & Hb). congruence.
  - rewrite lang_seq_cons. destruct (nullable r1) eqn:En.
    + rewrite lang_alt, lang_seq, IH2, <- nullable_lang, En. split.
      * intros [(s1 & s2 & -> & H1 & H2)|H]; [left|right; auto].
        exists s1, s2. rewrite <- IH1. auto.
      * intros [(s1 & s2 & -> & H1 & H2)|[_ H]]; [left|right; auto].
        exists s1, s2. rewrite IH1. auto.
    + rewrite lang_seq, <- nullable_lang, En. split.
      * intros (s1 & s2 & -> & H1 & H2). left.
        exists s1, s2. rewrite <- IH1. auto.
      * intros [(s1 & s2 & -> & H1 & H2)|[H _]]; [|discriminate].
        exists s1, s2. rewrite IH1. auto.
  - rewrite !lang_alt, IH1, IH2. tauto.
  - rewrite lang_star_cons, lang_seq. split.
    + intros (s1 & s2 & -> & H1 & H2). exists s1, s2. rewrite <- IH. auto.
    + intros (s1 & s2 & -> & H1 & H2). exists s1, s2. rewrite IH. auto.
Qed.

Theorem test_lang (r : re) (s : string) : test r s = true <-> lang r s.
Proof.
  revert r. induction s as [|a s IH]; intros r; simpl.
  - apply nullable_lang.
  - rewrite IH. apply deriv_lang.
Qed.

(** The languages of the shapes the source's pattern is made of. *)

Lemma lang_chr (c : ascii) (s : string) : lang (Chr c) s <-> s = String c "".
Proof.
  unfold Chr. rewrite lang_class. split.
  - intros (a & -> & Ha). apply Ascii.eqb_eq in Ha. now subst.
  - intros ->. exists c. split; [reflexivity|apply Ascii.eqb_refl].
Qed.

Lemma lang_opt (r : re) (s : string) : lang (Opt r) s <-> s = "" \/ lang r s.
Proof. unfold Opt. rewrite lang_alt, lang_eps. tauto. Qed.

Lemma lang_star_class (p : ascii -> bool) (s : string) :
  lang (Star (Class p)) s <-> Str.all p s = true.
Proof.
  induction s as [|a s IH]; simpl.
  - split; [reflexivity|constructor].
  - rewrite lang_star_cons, andb_true_iff, <- IH. split.
    + intros (s1 & s2 & -> & H1 & H2).
      apply lang_class in H1 as (b & [= <- ->] & Hb). auto.
    + intros [Ha Hs]. exists "", s. rewrite lang_class. eauto.
Qed.

Lemma lang_plus_class (p : ascii -> bool) (s : string) :
  lang (Plus (Class p)) s <-> s <> "" /\ Str.all p s = true.
Proof.
  unfold Plus. rewrite lang_seq. split.
  - intros (s1 & s2 & -> & H1 & H2).
    apply lang_class in H1 as (a & -> & Ha).
    apply lang_star_class in H2. rewrite StrFacts.app_cons, StrFacts.app_nil_l.
    simpl. rewrite Ha, H2. split; [discriminate|reflexivity].
  - intros [Hne H]. destruct s as [|a s]; [congruence|].
    simpl in H. apply andb_prop in H as [Ha Hs].
    exists (String a ""), s. rewrite lang_class, lang_star_class. eauto.
Qed.

End RegexFacts.

(** ** C6: the exact-version detector *)

Lemma exact_version_re_shape (v : string) :
  Regex.lang exact_version_re v <-> exact_shape v.
Proof.
  unfold exact_version_re, exact_shape, all_digits.
  rewrite RegexFacts.lang_seq. split.
  - intros (major & s1 & -> & Hmaj & H).
    apply RegexFacts.lang_seq in H as (d1 & s2 & -> & Hd1 & H).
    apply RegexFacts.lang_seq in H as (minor & s3 & -> & Hmin & H).
    apply RegexFacts.lang_seq in H as (d2 & s4 & -> & Hd2 & H).
    apply RegexFacts.lang_seq in H as (patch & s5 & -> & Hpat & H).
    apply RegexFacts.lang_seq in H as (pre & build & -> & Hpre & Hbuild).
    apply RegexFacts.lang_chr in Hd1 as ->. apply RegexFacts.lang_chr in Hd2 as ->.
    apply RegexFacts.lang_plus_class in Hmaj, Hmin, Hpat.
    exists major, minor, patch, pre, build. repeat split; try tauto.
    + apply RegexFacts.lang_opt in Hpre as [->|Hpre]; [now left|right].
      apply RegexFacts.lang_seq in Hpre as (h & p & -> & Hh & Hp).
      apply RegexFacts.lang_chr in Hh as ->.
      apply RegexFacts.lang_plus_class in Hp. exists p. tauto.
    + apply RegexFacts.lang_opt in Hbuild as [->|Hb]; [now left|right].
      apply RegexFacts.lang_seq in Hb as (h & b & -> & Hh & Hb).
      apply RegexFacts.lang_chr in Hh as ->.
      apply RegexFacts.lang_star_class in Hb. now exists b.
  - intros (major & minor & patch & pre & build & -> & Hmaj & Hmin & Hpat & Hpre & Hbuild).
    exists major, ("." +:+ minor +:+ "." +:+ patch +:+ pre +:+ build).
    split; [reflexivity|]. split; [now apply RegexFacts.lang_plus_class|].
    apply RegexFacts.lang_seq. exists ".", (minor +:+ "." +:+ patch +:+ pre +:+ build).
    split; [reflexivity|]. split; [now apply RegexFacts.lang_chr|].
    apply RegexFacts.lang_seq. exists minor, ("." +:+ patch +:+ pre +:+ build).
    split; [reflexivity|]. split; [now apply RegexFacts.lang_plus_class|].
    apply RegexFacts.lang_seq. exists ".", (patch +:+ pre +:+ build).
    split; [reflexivity|]. split; [now apply RegexFacts.lang_chr|].
    apply RegexFacts.lang_seq. exists patch, (pre +:+ build).
    split; [reflexivity|]. split; [now apply RegexFacts.lang_plus_class|].
    apply RegexFacts.lang_seq. exists pre, build.
    split; [reflexivity|]. split; apply RegexFacts.lang_opt.
    + destruct Hpre as [->|(p & -> & Hp)]; [now left|right].
      apply RegexFacts.lang_seq. exists "-", p.
      split; [reflexivity|]. split; [now apply RegexFacts.lang_chr|].
      now apply RegexFacts.lang_plus_class.
    + destruct Hbuild as [->|(b & -> & Hb)]; [now left|right].
      apply RegexFacts.lang_seq. exists "+", b.
      split; [reflexivity|]. split; [now apply RegexFacts.lang_chr|].
      now apply RegexFacts.lang_star_class.
Qed.


(** ** The text document *)

Section Document.

Lemma list_sum_cons (x : nat) (l : list nat) : list_sum (x :: l) = (x + list_sum l)%nat.
Proof. reflexivity. Qed.

Lemma length_join (sep : string) (ls : list string) :
  ls <> [] ->
  (String.length (Str.join sep ls) + String.length sep
   = list_sum (map (fun l => String.length l + String.length sep) ls))%nat.
Proof.
  induction ls as [|l ls IH]; [congruence|]. intros _.
  destruct ls as [|l' ls].
  - simpl. lia.
  - change (Str.join sep (l :: l' :: ls)) with (l +:+ sep +:+ Str.join sep (l' :: ls)).
    rewrite !StrFacts.length_app. specialize (IH ltac:(discriminate)).
    rewrite map_cons, list_sum_cons. lia.
Qed.

(** [positionAt_from] finds the line whose span holds the offset. *)
Lemma positionAt_from_holds (eolLen : nat) (ls : list string) (offset ln : nat) :
  ls <> [] ->
  (offset < list_sum (map (fun l => String.length l + eolLen) ls))%nat ->
  exists i : nat,
    line (positionAt_from ls eolLen offset ln) = (ln + i)%nat
    /\ (i < length ls)%nat
    /\ (list_sum (map (fun l => String.length l + eolLen) (firstn i ls)) <= offset
        < list_sum (map (fun l => String.length l + eolLen) (firstn i ls))
          + String.length (nth i ls "") + eolLen)%nat.
Proof.
  revert offset ln. induction ls as [|l ls IH]; [congruence|].
  intros offset ln _ Hlt. destruct ls as [|l' ls].
  - exists 0%nat. simpl in *. lia.
  - change (positionAt_from (l :: l' :: ls) eolLen offset ln)
      with (if Nat.ltb offset (String.length l + eolLen)
            then {| line := ln; character := Nat.min offset (String.length l) |}
            else positionAt_from (l' :: ls) eolLen
                   (offset - (String.length l + eolLen)) (S ln)).
    destruct (Nat.ltb offset (String.length l + eolLen)) eqn:E.
    + apply Nat.ltb_lt in E. exists 0%nat. simpl. lia.
    + apply Nat.ltb_ge in E.
      rewrite map_cons, list_sum_cons in Hlt.
      destruct (IH (offset - (String.length l + eolLen))%nat (S ln)
                  ltac:(discriminate) ltac:(lia)) as (i & Hl & Hi & Hs).
      exists (S i). rewrite Hl. split; [lia|]. split; [cbn [length] in *; lia|].
      change (firstn (S i) (l :: l' :: ls)) with (l :: firstn i (l' :: ls)).
      change (nth (S i) (l :: l' :: ls) "") with (nth i (l' :: ls) "").
      rewrite map_cons, list_sum_cons. lia.
Qed.

(** The line [positionAt] reports for an offset inside the text holds it. *)
Lemma positionAt_line_holds (doc : TextDocument) (offset : nat) :
  (offset < String.length (getText doc))%nat ->
  line_holds doc (line (positionAt doc offset)) offset.
Proof.
  intros Hlt. unfold line_holds, positionAt, lineStart.
  assert (Hne : lines doc <> []).
  { unfold getText in Hlt. destruct (lines doc); [simpl in Hlt; lia|discriminate]. }
  pose proof (length_join (eol doc) (lines doc) Hne) as Hj. fold (getText doc) in Hj.
  destruct (positionAt_from_holds (String.length (eol doc)) (lines doc) offset 0 Hne
              ltac:(lia)) as (i & -> & Hi & Hs).
  simpl. auto.
Qed.

(** Line [ln] is the text found at [lineStart doc ln]. *)
Lemma line_at_lineStart (doc : TextDocument) (ln : nat) :
  (ln < length (lines doc))%nat ->
  Str.take (String.length (nth ln (lines doc) ""))
           (Str.drop (lineStart doc ln) (getText doc))
  = nth ln (lines doc) "".
Proof.
  unfold lineStart, getText. generalize (eol doc) as sep. generalize (lines doc) as ls.
  intros ls sep. revert ln. induction ls as [|l ls IH]; intros ln Hln; [simpl in Hln; lia|].
  destruct ln as [|ln].
  - simpl firstn. simpl list_sum. simpl Str.drop. simpl nth.
    destruct ls as [|l' ls].
    + simpl. rewrite <- (StrFacts.app_nil_r l) at 2. apply StrFacts.take_app_length.
    + change (Str.join sep (l :: l' :: ls)) with (l +:+ sep +:+ Str.join sep (l' :: ls)).
      apply StrFacts.take_app_length.
  - simpl in Hln. destruct ls as [|l' ls]; [simpl in Hln; lia|].
    change (Str.join sep (l :: l' :: ls)) with (l +:+ sep +:+ Str.join sep (l' :: ls)).
    change (firstn (S ln) (l :: l' :: ls)) with (l :: firstn ln (l' :: ls)).
    change (nth (S ln) (l :: l' :: ls) "") with (nth ln (l' :: ls) "").
    rewrite map_cons, list_sum_cons.
    rewrite <- StrFacts.app_assoc.
    set (x := list_sum _).
    replace (String.length l + String.length sep + x)%nat
      with (x + String.length (l +:+ sep))%nat by (rewrite StrFacts.length_app; lia).
    subst x.
    rewrite StrFacts.drop_add, StrFacts.drop_app_length.
    apply IH. lia.
Qed.

End Document.

(** ** The scan of the manifest text *)

Section Scan.

Lemma span_spec (p : ascii -> bool) (s x r : string) :
  span p s = (x, r) ->
  s = x +:+ r /\ Str.all p x = true
  /\ match r with String c _ => p c = false | EmptyString => True end.
Proof.
  revert x r. induction s as [|a s IH]; intros x r; simpl.
  - intros [= <- <-]. auto.
  - destruct (p a) eqn:E.
    + destruct (span p s) as [x' r'] eqn:Es. intros [= <- <-].
      destruct (IH x' r' eq_refl) as (-> & Hall & Hr).
      rewrite StrFacts.app_cons. simpl. rewrite E, Hall. auto.
    + intros [= <- <-]. auto.
Qed.

Lemma not_dquote_false (c : ascii) : not_dquote c = false -> c = dquote.
Proof.
  unfold not_dquote. intros H. apply negb_false_iff in H. now apply Ascii.eqb_eq.
Qed.

(** A match found at the head of a text is an occurrence of the pattern. *)
Lemma match_here_sound (s k v : string) (n : nat) :
  match_here s = Some (k, v, n) ->
  pattern_at s 0 k v /\ (0 < n <= String.length s)%nat.
Proof.
  unfold match_here, pattern_at.
  destruct s as [|q s1]; [discriminate|].
  destruct (Ascii.eqb q dquote) eqn:Eq; [|discriminate].
  apply Ascii.eqb_eq in Eq as ->.
  destruct (span not_dquote s1) as [k0 s2] eqn:Ek.
  destruct (String.eqb k0 "") eqn:Ek0; [discriminate|].
  apply String.eqb_neq in Ek0.
  destruct s2 as [|c2 s3]; [discriminate|].
  destruct (span is_space s3) as [w1 s4] eqn:Ew1.
  destruct s4 as [|c s5]; [discriminate|].
  destruct (Ascii.eqb c ":"%char) eqn:Ec; [|discriminate].
  apply Ascii.eqb_eq in Ec as ->.
  destruct (span is_space s5) as [w2 s6] eqn:Ew2.
  destruct s6 as [|q' s7]; [discriminate|].
  destruct (Ascii.eqb q' dquote) eqn:Eq'; [|discriminate].
  apply Ascii.eqb_eq in Eq' as ->.
  destruct (span not_dquote s7) as [v0 s8] eqn:Ev.
  destruct s8 as [|c8 s9]; [discriminate|].
  intros [= <- <- <-].
  apply span_spec in Ek as (-> & Hk & Hc2). apply not_dquote_false in Hc2 as ->.
  apply span_spec in Ew1 as (-> & Hw1 & _).
  apply span_spec in Ew2 as (-> & Hw2 & _).
  apply span_spec in Ev as (-> & Hv & Hc8). apply not_dquote_false in Hc8 as ->.
  split.
  - exists w1, w2, s9. simpl Str.drop.
    repeat split; assumption.
  - repeat (progress cbn [String.length] || rewrite StrFacts.length_app). lia.
Qed.

Lemma span_app (p : ascii -> bool) (x r : string) :
  Str.all p x = true ->
  match r with String c _ => p c = false | EmptyString => True end ->
  span p (x +:+ r) = (x, r).
Proof.
  intros Hx Hr. induction x as [|a x IH].
  - rewrite StrFacts.app_nil_l. destruct r as [|c r]; [reflexivity|].
    simpl. now rewrite Hr.
  - simpl in Hx. apply andb_prop in Hx as [Ha Hx].
    rewrite StrFacts.app_cons. simpl. now rewrite Ha, (IH Hx).
Qed.

(** Conversely, wherever the pattern occurs, the matcher finds it, with
    the same groups: the match at a position is unique. *)
Lemma match_here_complete (s k v : string) :
  pattern_at s 0 k v -> exists n, match_here s = Some (k, v, n).
Proof.
  intros (w1 & w2 & rest & Hs & Hk & Hkq & Hvq & Hw1 & Hw2).
  simpl Str.drop in Hs. subst s. unfold match_here.
  rewrite StrFacts.app_cons. change (Ascii.eqb dquote dquote) with true. cbv iota.
  rewrite (span_app not_dquote k) by (try assumption; reflexivity).
  apply String.eqb_neq in Hk. rewrite Hk.
  rewrite StrFacts.app_cons, (span_app is_space w1) by (try assumption; reflexivity).
  change (":" +:+ w2 +:+ String dquote v +:+ String dquote rest)
    with (String ":" (w2 +:+ String dquote v +:+ String dquote rest)).
  cbv iota. change (Ascii.eqb ":" ":") with true. cbv iota.
  rewrite (span_app is_space w2) by (try assumption; reflexivity).
  rewrite StrFacts.app_cons. change (Ascii.eqb dquote dquote) with true. cbv iota.
  rewrite (span_app not_dquote v) by (try assumption; reflexivity).
  eauto.
Qed.

(** Every match the loop reports sits inside the text, at an occurrence of
    the pattern. *)
Lemma exec_all_sound (s : string) (skip pos : nat) (m : Match) :
  In m (exec_all s skip pos) ->
  exists off : nat,
    index m = (pos + off)%nat /\ (off < String.length s)%nat
    /\ pattern_at s off (group1 m) (group2 m).
Proof.
  revert skip pos. induction s as [|a s IH]; intros skip pos; [intros []|].
  assert (Hshift : forall skip' : nat, In m (exec_all s skip' (S pos)) ->
            exists off : nat, index m = (pos + off)%nat
              /\ (off < String.length (String a s))%nat
              /\ pattern_at (String a s) off (group1 m) (group2 m)).
  { intros skip' H. destruct (IH _ _ H) as (off & Hi & Hlt & Hp).
    exists (S off). simpl String.length. repeat split; [lia|lia|exact Hp]. }
  cbn [exec_all]. destruct skip as [|skip]; [|apply Hshift].
  destruct (match_here (String a s)) as [[[k v] len]|] eqn:Em; [|apply Hshift].
  intros [<-|H]; [|now apply (Hshift (len - 1)%nat)].
  apply match_here_sound in Em as [Hp _].
  exists 0%nat. cbn [index group1 group2]. simpl String.length.
  repeat split; [lia|lia|exact Hp].
Qed.

(** The match found at the head of a text, with the length it covers. *)
Lemma match_here_span (s k v : string) (n : nat) :
  match_here s = Some (k, v, n) -> pattern_span s 0 k v n.
Proof.
  unfold match_here, pattern_span.
  destruct s as [|q s1]; [discriminate|].
  destruct (Ascii.eqb q dquote) eqn:Eq; [|discriminate].
  apply Ascii.eqb_eq in Eq as ->.
  destruct (span not_dquote s1) as [k0 s2] eqn:Ek.
  destruct (String.eqb k0 "") eqn:Ek0; [discriminate|].
  apply String.eqb_neq in Ek0.
  destruct s2 as [|c2 s3]; [discriminate|].
  destruct (span is_space s3) as [w1 s4] eqn:Ew1.
  destruct s4 as [|c s5]; [discriminate|].
  destruct (Ascii.eqb c ":"%char) eqn:Ec; [|discriminate].
  apply Ascii.eqb_eq in Ec as ->.
  destruct (span is_space s5) as [w2 s6] eqn:Ew2.
  destruct s6 as [|q' s7]; [discriminate|].
  destruct (Ascii.eqb q' dquote) eqn:Eq'; [|discriminate].
  apply Ascii.eqb_eq in Eq' as ->.
  destruct (span not_dquote s7) as [v0 s8] eqn:Ev.
  destruct s8 as [|c8 s9]; [discriminate|].
  intros [= <- <- <-].
  apply span_spec in Ek as (-> & Hk & Hc2). apply not_dquote_false in Hc2 as ->.
  apply span_spec in Ew1 as (-> & Hw1 & _).
  apply span_spec in Ew2 as (-> & Hw2 & _).
  apply span_spec in Ev as (-> & Hv & Hc8). apply not_dquote_false in Hc8 as ->.
  exists w1, w2, s9. simpl Str.drop. repeat split; assumption.
Qed.

Lemma drop_next (pos : nat) (text : string) (a : ascii) (s : string) :
  Str.drop pos text = String a s -> Str.drop (S pos) text = s.
Proof.
  revert text. induction pos as [|pos IH]; intros [|b text]; cbn; try discriminate.
  - now intros [= _ ->].
  - intros H. apply (IH text H).
Qed.

(** The matches the loop reports on the rest [s] of the text after [pos]
    follow one another without overlapping. *)
Lemma exec_all_spaced (text : string) (pos : nat) (s : string) (skip : nat) :
  Str.drop pos text = s ->
  Forall (fun m => (pos + skip <= index m)%nat) (exec_all s skip pos)
  /\ spaced text (exec_all s skip pos).
Proof.
  revert pos skip. induction s as [|a s IH]; intros pos skip Hs.
  - split; constructor.
  - pose proof (drop_next pos text a s Hs) as Hs'. cbn [exec_all].
    destruct skip as [|skip].
    + destruct (match_here (String a s)) as [[[k v] len]|] eqn:Em.
      * destruct (IH (S pos) (len - 1)%nat Hs') as [Hlow Hsp].
        pose proof (match_here_sound _ _ _ _ Em) as [_ Hlen].
        apply match_here_span in Em.
        split.
        -- constructor; [cbn [index]; lia|].
           eapply Forall_impl; [exact Hlow|]. cbn beta. intros m Hm. lia.
        -- apply (spaced_cons text _ _ len).
           ++ cbn [index group1 group2].
              destruct Em as (w1 & w2 & rest & Hd & Hrest).
              exists w1, w2, rest. split; [|exact Hrest].
              rewrite Hs. exact Hd.
           ++ eapply Forall_impl; [exact Hlow|]. cbn beta. intros m Hm.
              cbn [index]. lia.
           ++ exact Hsp.
      * destruct (IH (S pos) 0%nat Hs') as [Hlow Hsp]. split; [|exact Hsp].
        eapply Forall_impl; [exact Hlow|]. cbn beta. intros m Hm. lia.
    + destruct (IH (S pos) skip Hs') as [Hlow Hsp]. split; [|exact Hsp].
      eapply Forall_impl; [exact Hlow|]. cbn beta. intros m Hm. lia.
Qed.

Lemma spaced_span (text : string) (ms : list Match) (m : Match) :
  spaced text ms -> In m ms ->
  exists n, pattern_span text (index m) (group1 m) (group2 m) n.
Proof.
  induction 1 as [|m0 l n Hp _ _ IH]; intros Hin; [destruct Hin|].
  destruct Hin as [<-|Hin]; eauto.
Qed.

(** Conversely, an occurrence of the pattern is what the matcher finds
    there, with the same length. *)
Lemma match_here_of_span (text : string) (i : nat) (k v : string) (n : nat) :
  pattern_span text i k v n -> match_here (Str.drop i text) = Some (k, v, n).
Proof.
  intros (w1 & w2 & rest & Hd & Hk & Hkq & Hvq & Hw1 & Hw2 & ->).
  rewrite Hd. unfold match_here.
  rewrite StrFacts.app_cons. change (Ascii.eqb dquote dquote) with true. cbv iota.
  rewrite (span_app not_dquote k) by (try assumption; reflexivity).
  apply String.eqb_neq in Hk. rewrite Hk.
  rewrite StrFacts.app_cons, (span_app is_space w1) by (try assumption; reflexivity).
  change (":" +:+ w2 +:+ String dquote v +:+ String dquote rest)
    with (String ":" (w2 +:+ String dquote v +:+ String dquote rest)).
  cbv iota. change (Ascii.eqb ":" ":") with true. cbv iota.
  rewrite (span_app is_space w2) by (try assumption; reflexivity).
  rewrite StrFacts.app_cons. change (Ascii.eqb dquote dquote) with true. cbv iota.
  rewrite (span_app not_dquote v) by (try assumption; reflexivity).
  reflexivity.
Qed.

Lemma drop_S (n : nat) (a : ascii) (s : string) :
  Str.drop (S n) (String a s) = Str.drop n s.
Proof. reflexivity. Qed.

Lemma exec_all_complete (s : string) (skip pos i : nat) (k v : string) :
  pattern_at s i k v -> (skip <= i)%nat ->
  exists m, In m (exec_all s skip pos) /\ (pos <= index m)%nat
    /\ ((index m = (pos + i)%nat /\ group1 m = k /\ group2 m = v)
        \/ exists k' v' n,
             match_here (Str.drop (index m - pos) s) = Some (k', v', n)
             /\ (index m < pos + i < index m + n)%nat).
Proof.
  revert skip pos i. induction s as [|a s IH]; intros skip pos i Hp Hs.
  { destruct Hp as (w1 & w2 & rest & Hd & _). destruct i; discriminate Hd. }
  assert (Hshift : forall skip' i', i = S i' -> (skip' <= i')%nat ->
            exists m, In m (exec_all s skip' (S pos)) /\ (pos <= index m)%nat
              /\ ((index m = (pos + i)%nat /\ group1 m = k /\ group2 m = v)
                  \/ exists k' v' n,
                       match_here (Str.drop (index m - pos) (String a s)) = Some (k', v', n)
                       /\ (index m < pos + i < index m + n)%nat)).
  { intros skip' i' -> Hle.
    destruct (IH skip' (S pos) i') as (m & Hin & Hlow & Hcase); [exact Hp|exact Hle|].
    exists m. split; [exact Hin|]. split; [lia|].
    destruct Hcase as [(Hi & Hk & Hv)|(k' & v' & n & Hm & Hr)].
    - left. repeat split; [lia|assumption|assumption].
    - right. exists k', v', n. split; [|lia].
      replace (index m - pos)%nat with (S (index m - S pos)) by lia.
      now rewrite drop_S. }
  cbn [exec_all]. destruct skip as [|skip].
  - destruct (match_here (String a s)) as [[[k0 v0] len]|] eqn:Em.
    + destruct i as [|i'].
      * apply match_here_complete in Hp as (n & Hn). rewrite Em in Hn.
        injection Hn as -> -> ->.
        eexists. split; [left; reflexivity|]. cbn [index group1 group2].
        split; [lia|]. left. repeat split. lia.
      * destruct (Nat.lt_ge_cases (S i') len) as [Hlt|Hge].
        -- eexists. split; [left; reflexivity|]. cbn [index group1 group2].
           split; [lia|]. right. exists k0, v0, len.
           rewrite Nat.sub_diag. split; [exact Em|lia].
        -- destruct (Hshift (len - 1)%nat i' eq_refl) as (m & Hin & Hrest); [lia|].
           exists m. split; [right; exact Hin|exact Hrest].
    + destruct i as [|i'].
      * apply match_here_complete in Hp as (n & Hn). congruence.
      * destruct (Hshift 0%nat i' eq_refl) as (m & Hin & Hrest); [lia|].
        exists m. split; [exact Hin|exact Hrest].
  - destruct i as [|i']; [lia|].
    destruct (Hshift skip i' eq_refl) as (m & Hin & Hrest); [lia|].
    exists m. split; [exact Hin|exact Hrest].
Qed.

(** The loop leaves out no occurrence of the pattern but those that begin
    inside a match it reports. *)
Lemma scan_exhaustive (text : string) : exhaustive text (scan text).
Proof.
  intros i k v Hp.
  destruct (exec_all_complete text 0 0 i k v Hp) as (m & Hin & _ & Hcase); [lia|].
  destruct (spaced_span text (scan text) m) as [n Hn];
    [apply (exec_all_spaced text 0 text 0); reflexivity|exact Hin|].
  exists m, n. split; [exact Hin|]. split; [exact Hn|].
  destruct Hcase as [(Hi & Hk & Hv)|(k' & v' & n' & Hm & Hr)]; [left; auto|].
  right. rewrite Nat.sub_0_r in Hm.
  apply match_here_of_span in Hn. rewrite Hn in Hm. injection Hm as _ _ <-. exact Hr.
Qed.

Lemma scan_sound (text : string) (m : Match) :
  In m (scan text) ->
  (index m < String.length text)%nat /\ pattern_at text (index m) (group1 m) (group2 m).
Proof.
  intros H. apply exec_all_sound in H as (off & -> & Hlt & Hp). auto.
Qed.

End Scan.

(** ** C3 and C4: the dependency parser *)

Section Parser.

Variable JSON_parse : string -> option JSON.
Variable doc : TextDocument.

Lemma has_property_object (ms : list (string * JSON)) (k : string) :
  has_property (Json (JObj ms)) k = Some (name_in ms k).
Proof. reflexivity. Qed.

Lemma member_name_in (ms : list (string * JSON)) (k : string) :
  is_Some (member k ms) -> name_in ms k = true.
Proof. intros [v Hv]. unfold name_in, get_computed. now rewrite Hv. Qed.

Lemma declared_or_empty (json : JSON) (category : string) (ms : list (string * JSON)) :
  declared json category = Some ms ->
  exists v, get_field (Json json) category = Some v
            /\ or_empty_object v = Json (JObj ms).
Proof.
  unfold declared. destruct (get_field (Json json) category) as [v|]; [|discriminate].
  intros H. exists v. split; [reflexivity|]. unfold or_empty_object.
  destruct v as [|[|b|n|s|l|ms']|]; cbn in H |- *;
    try discriminate; try (injection H as <-; reflexivity).
  - destruct b; cbn in H |- *; [discriminate|injection H as <-; reflexivity].
  - destruct (n =? 0); cbn in H |- *; [injection H as <-; reflexivity|discriminate].
  - destruct (String.eqb s ""); cbn in H |- *;
      [injection H as <-; reflexivity|discriminate].
Qed.

(** With both categories objects, no step of the loop throws: the loop
    files every match under the first category that has its name. *)
Lemma collect_objects (D V : list (string * JSON)) (ms : list Match)
    (deps devDeps : list DepEntry) :
  collect doc (Json (JObj D)) (Json (JObj V)) ms deps devDeps =
  (deps ++ map (entryOf doc) (List.filter (fun m => name_in D (group1 m)) ms),
   devDeps ++ map (entryOf doc)
     (List.filter (fun m => negb (name_in D (group1 m)) && name_in V (group1 m)) ms)).
Proof.
  revert deps devDeps. induction ms as [|m ms IH]; intros deps devDeps.
  - simpl. now rewrite !app_nil_r.
  - cbn [collect List.filter]. rewrite !has_property_object.
    destruct (name_in D (group1 m)); cbn [negb andb].
    + rewrite IH. cbn [map]. now rewrite <- app_assoc.
    + destruct (name_in V (group1 m)).
      * rewrite IH. cbn [map]. now rewrite <- app_assoc.
      * apply IH.
Qed.

End Parser.

(** C4: when the text is not valid JSON ([JSON.parse] throws), the parser
    returns two empty sequences.  The function is total: the exception
    never leaves it. *)
Theorem parseDeps_invalid_json (JSON_parse : string -> option JSON) (doc : TextDocument) :
  JSON_parse (getText doc) = None ->
  parseDepsFromDocument JSON_parse doc = ([], []).
Proof. intros H. unfold parseDepsFromDocument. now rewrite H. Qed.

Lemma parseDeps_invalid_json_witness :
  RefJSON.parse (getText sample_broken) = None
  /\ parseDepsFromDocument RefJSON.parse sample_broken = ([], []).
Proof.
  split; [vm_compute; reflexivity|].
  apply (parseDeps_invalid_json RefJSON.parse sample_broken). vm_compute. reflexivity.
Defined.

Lemma name_in_iff (ms : list (string * JSON)) (k : string) :
  name_in ms k = true <-> is_Some (member k ms) \/ mem k Object_prototype_keys = true.
Proof.
  unfold name_in, get_computed. destruct (member k ms) as [v|].
  - split; [eauto|reflexivity].
  - destruct (mem k Object_prototype_keys); split; auto.
    intros [[? ?]|?]; discriminate.
Qed.




(** The sample manifest: "lodash" is declared in both categories, and both
    of its lines are filed under the direct dependencies. *)
Example parseDeps_sample_names :
  let '(deps, devDeps) := parseDepsFromDocument RefJSON.parse sample_manifest in
  map name deps = ["lodash"; "left-pad"; "lodash"]
  /\ map version deps = ["4.17.21"; "file:../left-pad"; "*"]
  /\ map name devDeps = ["@babel/core"]
  /\ map (fun d => line (range_end (range d))) deps = [3; 4; 6]%nat.
Proof. vm_compute. repeat split. Qed.

(** ** C2: the registry lookup of a spec that is not an exact version *)

Section Registry.

Lemma indexOf_bounds (c : ascii) (from : nat) (s : string) (i : nat) :
  Str.indexOf c from s = Some i -> (from <= i < String.length s)%nat.
Proof.
  revert from i. induction s as [|a s IH]; intros from i; simpl; [discriminate|].
  destruct from as [|from].
  - destruct (Ascii.eqb a c); [intros [= <-]; lia|].
    destruct (Str.indexOf c 0 s) as [j|] eqn:E; [|discriminate].
    intros [= <-]. apply IH in E. lia.
  - destruct (Str.indexOf c from s) as [j|] eqn:E; [|discriminate].
    intros [= <-]. apply IH in E. lia.
Qed.

(** A spec that is not empty has a name and a version that are not. *)
Lemma parsePackageSpec_nonempty (spec : string) :
  spec <> "" ->
  fst (parsePackageSpec spec) <> "" /\ snd (parsePackageSpec spec) <> "".
Proof.
  intros Hne. unfold parsePackageSpec.
  destruct (Str.indexOf "@" 1 spec) as [i|] eqn:E; simpl.
  - apply indexOf_bounds in E. split.
    + destruct spec as [|a s]; [congruence|]. destruct i; [lia|]. discriminate.
    + destruct (String.eqb (Str.drop (i + 1) spec) "") eqn:Ed; [discriminate|].
      now apply String.eqb_neq.
  - split; [exact Hne|discriminate].
Qed.

Lemma latest_value (body : list (string * JSON)) :
  get_field_opt (get_field_opt (Json (JObj body)) "dist-tags") "latest"
  = from_option Json Undefined (latest_json body).
Proof.
  unfold latest_json. cbn.
  now destruct (member "dist-tags" body) as [[|b|n|s|l|tags]|].
Qed.

Lemma truthy_not_nullish (v : Value) : truthy v = true -> nullish v = false.
Proof. now destruct v as [|[]|]. Qed.

Lemma get_computed_entry (versions : JSON) (k : string) :
  typeof_object (Json versions) = true -> truthy (Json versions) = true ->
  get_computed versions k
  = match entry_of versions k with
    | Some e => Json e
    | None => if inherits versions k then Builtin else Undefined
    end.
Proof.
  destruct versions as [|b|n|s|items|vs]; try discriminate; intros _ _; cbn.
  - destruct (element k 0 items); [reflexivity|].
    now destruct (String.eqb k "length").
  - reflexivity.
Qed.

Lemma entry_size_computed (versions : JSON) (k : string) :
  typeof_object (Json versions) = true -> truthy (Json versions) = true ->
  size_label (get_field_opt (get_field_opt (get_computed versions k) "dist") "unpackedSize")
  = entry_size (entry_of versions k).
Proof.
  intros Ho Ht. rewrite (get_computed_entry versions k Ho Ht).
  destruct (entry_of versions k) as [[|b|n|s|l|entry]|]; try reflexivity.
  - cbn. destruct (member "dist" entry) as [[|b|n|s|l|dist]|]; try reflexivity.
    cbn. now destruct (member "unpackedSize" dist) as [[|b|n|s|l|x]|].
  - now destruct (inherits versions k).
Qed.

Lemma truthy_computed (versions : JSON) (k : string) :
  typeof_object (Json versions) = true -> truthy (Json versions) = true ->
  truthy (get_computed versions k)
  = match entry_of versions k with
    | Some e => truthy (Json e)
    | None => inherits versions k
    end.
Proof.
  intros Ho Ht. rewrite (get_computed_entry versions k Ho Ht).
  destruct (entry_of versions k); [reflexivity|]. now destruct (inherits versions k).
Qed.

Lemma tag_name_key (body : list (string * JSON)) :
  let latest := from_option Json Undefined (latest_json body) in
  toPropertyKey (if nullish latest then Json (JStr "") else latest) = tag_name body.
Proof. unfold tag_name. now destruct (latest_json body) as [[]|]. Qed.

(** The [try] block on the metadata of a package, for every response. *)
Lemma fetchSize_try_metadata (ver : string) (res : FetchResult) :
  useExact ver = false -> ver <> "" ->
  default UNKNOWN (fetchSize_try ver res) = metadata_label ver res.
Proof.
  intros Hexact Hver.
  destruct res as [|[|] [data|]]; try reflexivity.
  unfold fetchSize_try, metadata_label.
  rewrite Hexact. cbn [mbind option_bind].
  destruct data as [|b|n|s|l|body]; try reflexivity.
  cbn [get_field from_option mbind option_bind].
  destruct (member "versions" body) as [versions|]; [|reflexivity].
  cbn [from_option].
  destruct (truthy (Json versions)) eqn:Ht;
    [|destruct versions as [|b|n|s|l|vs]; try discriminate; reflexivity].
  destruct (typeof_object (Json versions)) eqn:Ho;
    [|destruct versions as [|b|n|s|l|vs]; try discriminate; reflexivity].
  cbn [negb orb default]. rewrite latest_value.
  apply String.eqb_neq in Hver. rewrite Hver. cbn [orb].
  set (latest := from_option Json Undefined (latest_json body)).
  pose proof (tag_name_key body) as Hkey. cbn zeta in Hkey. fold latest in Hkey.
  rewrite Hkey.
  replace (match versions with
           | JObj _ | JArr _ =>
               if names_version versions ver then entry_size (entry_of versions ver)
               else entry_size (entry_of versions (tag_name body))
           | _ => UNKNOWN
           end)
    with (if names_version versions ver then entry_size (entry_of versions ver)
          else entry_size (entry_of versions (tag_name body)))
    by (destruct versions; try discriminate; reflexivity).
  unfold names_version. rewrite <- (truthy_computed versions ver Ho Ht).
  destruct (String.eqb ver "*") eqn:Estar; cbn [negb andb].
  - destruct (truthy latest && truthy (get_computed versions (toPropertyKey latest)))
      eqn:Ec.
    + apply andb_prop in Ec as [Hl _]. apply truthy_not_nullish in Hl.
      rewrite Hl in Hkey. rewrite Hkey. now apply entry_size_computed.
    + now apply entry_size_computed.
  - change (toPropertyKey (Json (JStr ver))) with ver.
    change (truthy (Json (JStr ver))) with (negb (String.eqb ver "")).
    rewrite Hver. cbn [negb andb].
    destruct (truthy (get_computed versions ver)); now apply entry_size_computed.
Qed.



End Registry.


(** ** C8: the size of an installed package *)

Section Installed.

Lemma FsNode_nested_ind (P : FsNode -> Prop) :
  (forall sz, P (FsFile sz)) ->
  (forall sz, P (FsSpecial sz)) ->
  P FsUnreadable ->
  P (FsDir None) ->
  (forall ents, Forall (fun e => P (snd e)) ents -> P (FsDir (Some ents))) ->
  forall node, P node.
Proof.
  intros Hfile Hspecial Hun Hnone Hdir.
  fix IH 1. intros [sz|[ents|]|sz|];
    [apply Hfile| |apply Hnone|apply Hspecial|apply Hun].
  apply Hdir. induction ents as [|[nm n] ents IHents]; constructor;
    [apply IH|exact IHents].
Qed.

Lemma sumZ_app (l1 l2 : list Z) : sumZ (l1 ++ l2) = sumZ l1 + sumZ l2.
Proof. induction l1 as [|x l1 IH]; simpl; [reflexivity|]. rewrite IH. lia. Qed.

Lemma sumEntries_total (dirPath : string) (ents : list (string * FsNode)) :
  Forall (fun e => dir_total (snd e)) ents ->
  forall total,
    snd (sumEntries getDirSize dirPath ents total)
    = if forallb (fun e => intact (snd e)) ents
      then Some (total + sumZ (flat_map (fun e => files_below (snd e)) ents))
      else None.
Proof.
  induction 1 as [|[nm ent] ents Hent _ IH]; intros total.
  - simpl. f_equal. lia.
  - cbn [sumEntries forallb flat_map snd].
    destruct ent as [sz|l|sz|].
    + specialize (IH (total + sz)).
      destruct (sumEntries getDirSize dirPath ents (total + sz)) as [ops r].
      cbn [snd intact andb files_below app] in *. rewrite IH.
      destruct (forallb _ ents); [|reflexivity]. f_equal. simpl. lia.
    + specialize (Hent (path_join [dirPath; nm])). cbn [snd] in Hent.
      destruct (getDirSize (path_join [dirPath; nm]) (FsDir l)) as [ops [n|]];
        cbn [snd] in Hent.
      * specialize (IH (total + n)).
        destruct (sumEntries getDirSize dirPath ents (total + n)) as [ops' r].
        cbn [snd] in *. rewrite IH.
        destruct (intact (FsDir l)); [|discriminate]. injection Hent as ->.
        cbn [andb]. destruct (forallb _ ents); [|reflexivity].
        f_equal. rewrite sumZ_app. cbn [files_below]. lia.
      * cbn [snd]. destruct (intact (FsDir l)); [discriminate|reflexivity].
    + specialize (IH (total + sz)).
      destruct (sumEntries getDirSize dirPath ents (total + sz)) as [ops r].
      cbn [snd intact andb files_below app] in *. rewrite IH.
      destruct (forallb _ ents); [|reflexivity]. f_equal. simpl. lia.
    + reflexivity.
Qed.

(** [getDirSize] totals the sizes of all files below a directory, and fails
    as a whole when a listing or a stat below it fails. *)
Lemma getDirSize_total (node : FsNode) : dir_total node.
Proof.
  induction node as [sz|sz| | |ents IH] using FsNode_nested_ind; cbn [dir_total]; auto.
  intros dirPath. cbn [getDirSize].
  pose proof (sumEntries_total dirPath ents IH 0) as H.
  destruct (sumEntries getDirSize dirPath ents 0) as [ops r]. cbn [snd] in *.
  rewrite H. cbn [intact files_below]. now destruct (forallb _ ents).
Qed.

Lemma split_no_slash (s : string) : no_slash s -> Str.split "/" s = [s].
Proof.
  unfold no_slash. induction s as [|a s IH]; [reflexivity|].
  cbn [Str.all Str.split]. intros H. apply andb_prop in H as [Ha Hs].
  unfold is_slash in Ha. apply negb_true_iff in Ha. rewrite Ha, (IH Hs). reflexivity.
Qed.

Lemma split_app_slash (s t : string) :
  no_slash s -> Str.split "/" (s +:+ "/" +:+ t) = s :: Str.split "/" t.
Proof.
  unfold no_slash. induction s as [|a s IH]; [reflexivity|].
  rewrite StrFacts.app_cons. cbn [Str.all Str.split]. intros H.
  apply andb_prop in H as [Ha Hs].
  unfold is_slash in Ha. apply negb_true_iff in Ha. rewrite Ha, (IH Hs). reflexivity.
Qed.

(** A scoped name contributes two path segments. *)
Lemma installPath_scoped (docDir scope nm : string) :
  no_slash scope -> no_slash nm ->
  installPath docDir ("@" +:+ scope +:+ "/" +:+ nm)
  = path_join [docDir; "node_modules"; "@" +:+ scope; nm].
Proof.
  intros Hs Hn. unfold installPath.
  change (Str.startsWith "@" ("@" +:+ scope +:+ "/" +:+ nm)) with true. cbv iota.
  rewrite <- StrFacts.app_assoc, split_app_slash, split_no_slash by assumption.
  reflexivity.
Qed.

(** The traversal talks to the file system only: a test that rejects
    [fs.stat] and [fs.readdir] rejects all its calls. *)
Section FsOnly.

Variable f : Effect -> bool.
Hypothesis f_stat : forall p, f (EStat p) = false.
Hypothesis f_readdir : forall p, f (EReaddir p) = false.

Lemma sumEntries_fs_only (dirPath : string) (ents : list (string * FsNode)) :
  Forall (fun e => forall p ops r, getDirSize p (snd e) = (ops, r) ->
                                   List.filter f ops = []) ents ->
  forall total ops r,
    sumEntries getDirSize dirPath ents total = (ops, r) ->
    List.filter f ops = [].
Proof.
  induction 1 as [|[nm ent] ents Hent _ IH]; intros total ops r.
  - intros [= <- _]. reflexivity.
  - cbn [sumEntries]. destruct ent as [sz|l|sz|].
    + destruct (sumEntries getDirSize dirPath ents (total + sz)) as [ops' r'] eqn:E.
      intros [= <- _]. cbn [List.filter]. rewrite f_stat. eapply IH, E.
    + destruct (getDirSize (path_join [dirPath; nm]) (FsDir l)) as [dops [n|]] eqn:Ed.
      * destruct (sumEntries getDirSize dirPath ents (total + n)) as [ops' r'] eqn:E.
        intros [= <- _]. rewrite List.filter_app.
        rewrite (Hent _ _ _ Ed), (IH _ _ _ E). reflexivity.
      * intros [= <- _]. apply (Hent _ _ _ Ed).
    + destruct (sumEntries getDirSize dirPath ents (total + sz)) as [ops' r'] eqn:E.
      intros [= <- _]. cbn [List.filter]. rewrite f_stat. eapply IH, E.
    + intros [= <- _]. cbn [List.filter]. now rewrite f_stat.
Qed.

Lemma getDirSize_fs_only (node : FsNode) (dirPath : string) (ops : list Effect)
    (r : option Z) :
  getDirSize dirPath node = (ops, r) -> List.filter f ops = [].
Proof.
  revert dirPath ops r.
  induction node as [sz|sz| | |ents IH] using FsNode_nested_ind;
    intros dirPath ops r; cbn [getDirSize];
    try (intros [= <- _]; cbn [List.filter]; now rewrite f_readdir).
  destruct (sumEntries getDirSize dirPath ents 0) as [ops' r'] eqn:E.
  intros [= <- _]. cbn [List.filter]. rewrite f_readdir.
  eapply sumEntries_fs_only; eauto.
Qed.

Lemma try_fs_only (root : FsNode) (path : string) :
  List.filter f (fst (getNodeModulesPackageSize_try root path)) = [].
Proof.
  unfold getNodeModulesPackageSize_try.
  destruct (fs_stat root path) as [[sz|l|sz|]|]; try reflexivity.
  destruct (getDirSize path (FsDir l)) as [ops total] eqn:E. cbn [fst].
  eapply getDirSize_fs_only, E.
Qed.

End FsOnly.

Lemma getDirSize_no_fetch (node : FsNode) (dirPath : string) (ops : list Effect)
    (r : option Z) :
  getDirSize dirPath node = (ops, r) -> List.filter is_fetch ops = [].
Proof. now apply getDirSize_fs_only. Qed.

End Installed.

(** C8: for an entry whose version starts with "file:" and whose size is
    not cached, the resolver stats the path joined from the manifest's
    directory, "node_modules" and the package name (the two parts of a
    scoped name as two segments) and returns and caches: the label of the
    size when the path is a file; the label of the sum of the sizes of all
    files transitively contained when it is a directory; the unknown label,
    with no partial total, when the path does not exist, is neither a file
    nor a directory, or a listing or a stat fails anywhere below it. *)
Theorem installed_size (env : Env) (cache : gmap string string) (docDir : string)
    (d : DepEntry) :
  isFileDependency (version d) = true ->
  cache !! cacheKeyOf docDir d = None ->
  let path := installPath docDir (name d) in
  let label := installed_label (fsRoot env) path in
  (exists ops, resolve env docDir cache d
               = (label, <[cacheKeyOf docDir d := label]> cache, EStat path :: ops))
  /\ (forall scope nm, no_slash scope -> no_slash nm ->
        installPath docDir ("@" +:+ scope +:+ "/" +:+ nm)
        = path_join [docDir; "node_modules"; "@" +:+ scope; nm])
  /\ (~ (exists scope, name d = String "@" scope) ->
      path = path_join [docDir; "node_modules"; name d]).
Proof.
  intros Hfile Hmiss path label. split; [|split].
  - unfold resolve, cacheKeyOf in *. rewrite Hfile in *.
    unfold getNodeModulesPackageSize, getNodeModulesPackageSize_begin.
    rewrite Hmiss. unfold getNodeModulesPackageSize_resume. fold path.
    unfold getNodeModulesPackageSize_try, label, installed_label.
    destruct (fs_stat (fsRoot env) path) as [[sz|l|sz|]|]; try (now eexists).
    pose proof (getDirSize_total (FsDir l) path) as H.
    destruct (getDirSize path (FsDir l)) as [ops r]. cbn [snd] in H. subst r.
    exists ops. now destruct (intact (FsDir l)).
  - intros scope nm. apply installPath_scoped.
  - intros Hns. unfold path, installPath.
    destruct (name d) as [|a s]; [reflexivity|].
    cbn [Str.startsWith]. destruct (Ascii.eqb "@" a) eqn:E; [|reflexivity].
    apply Ascii.eqb_eq in E as <-. exfalso. apply Hns. now exists s.
Qed.

Lemma installed_size_witness :
  (exists ops,
     resolve sample_env "/proj" ∅ sample_left_pad
     = (installed_label sample_fs (installPath "/proj" "left-pad"),
        <[cacheKeyOf "/proj" sample_left_pad :=
            installed_label sample_fs (installPath "/proj" "left-pad")]> ∅,
        EStat (installPath "/proj" "left-pad") :: ops))
  /\ installed_label sample_fs (installPath "/proj" "left-pad") = "2.0 kB".
Proof.
  split; [|vm_compute; reflexivity].
  apply (installed_size sample_env ∅ "/proj" sample_left_pad);
    [reflexivity | apply lookup_empty].
Defined.

(** A file is measured by its own size; a failure below the directory, or
    a path that does not exist, gives the unknown label. *)
Example installed_label_samples :
  installed_label sample_fs (installPath "/proj" "@scope/tool") = "1.5 MB"
  /\ installed_label sample_fs (installPath "/proj" "broken") = UNKNOWN
  /\ installed_label sample_fs (installPath "/proj" "absent") = UNKNOWN.
Proof. vm_compute. repeat split. Qed.

(** ** The size cache *)

Section Cache.

Variable docDir : string.

Lemma resolve_begin_hit (cache : gmap string string) (d : DepEntry) (v : string) :
  cache !! cacheKeyOf docDir d = Some v ->
  resolve_begin docDir cache d = (cache, Returned v).
Proof.
  unfold resolve_begin, cacheKeyOf.
  destruct (isFileDependency (version d)); intros H.
  - unfold getNodeModulesPackageSize_begin. now rewrite H.
  - unfold fetchSize_begin. now rewrite H.
Qed.

Lemma resolve_begin_miss (cache : gmap string string) (d : DepEntry) :
  cache !! cacheKeyOf docDir d = None ->
  resolve_begin docDir cache d
  = if isFileDependency (version d) || negb (String.eqb (specOf d) "")
    then (cache, Awaiting (request_of docDir d))
    else (<[cacheKeyOf docDir d := UNKNOWN]> cache, Returned UNKNOWN).
Proof.
  unfold resolve_begin, cacheKeyOf, request_of.
  destruct (isFileDependency (version d)); intros H; cbn [orb].
  - unfold getNodeModulesPackageSize_begin. now rewrite H.
  - unfold fetchSize_begin. rewrite H.
    destruct (String.eqb (specOf d) "") eqn:E; cbn [negb].
    + apply String.eqb_eq in E. rewrite E. reflexivity.
    + apply String.eqb_neq in E.
      destruct (parsePackageSpec_nonempty _ E) as [Hnm _].
      destruct (parsePackageSpec (specOf d)) as [nm ver]. cbn [fst] in Hnm.
      apply String.eqb_neq in Hnm. now rewrite Hnm.
Qed.

(** When a resolver resumes, it stores its label under the key of the
    entry and returns it. *)
Lemma resolve_resume_stores (env : Env) (cache : gmap string string) (d : DepEntry)
    (call : Effect) :
  exists text ops,
    resolve_resume env docDir cache d call
    = (<[cacheKeyOf docDir d := text]> cache, text, ops).
Proof.
  unfold resolve_resume, cacheKeyOf.
  destruct (isFileDependency (version d)).
  - unfold getNodeModulesPackageSize_resume.
    destruct (getNodeModulesPackageSize_try _ _) as [ops r]. eauto.
  - unfold fetchSize_resume. eauto.
Qed.

Lemma resolve_phases (env : Env) (cache : gmap string string) (d : DepEntry) :
  resolve env docDir cache d
  = match resolve_begin docDir cache d with
    | (cache', Returned text) => (text, cache', [])
    | (cache', Awaiting call) =>
        let '(cache'', text, ops) := resolve_resume env docDir cache' d call in
        (text, cache'', call :: ops)
    end.
Proof.
  unfold resolve, resolve_begin, resolve_resume.
  destruct (isFileDependency (version d)).
  - unfold getNodeModulesPackageSize.
    destruct (getNodeModulesPackageSize_begin cache docDir (name d)) as [c [t|call]];
      [reflexivity|].
    now destruct (getNodeModulesPackageSize_resume _ _ _ _) as [[c' t] ops].
  - unfold fetchSize.
    destruct (fetchSize_begin cache (specOf d)) as [c [t|call]]; [reflexivity|].
    now destruct (fetchSize_resume _ _ _) as [c' t].
Qed.

Lemma resolve_hit (env : Env) (cache : gmap string string) (d : DepEntry) (v : string) :
  cache !! cacheKeyOf docDir d = Some v ->
  resolve env docDir cache d = (v, cache, []).
Proof. intros H. now rewrite resolve_phases, (resolve_begin_hit _ _ _ H). Qed.

(** Every path of a resolver leaves its result in the cache, under the key
    of the entry, and touches no other key; it issues at most one registry
    call. *)
Lemma resolve_stores (env : Env) (cache : gmap string string) (d : DepEntry)
    (r : string) (cache' : gmap string string) (ops : list Effect) :
  resolve env docDir cache d = (r, cache', ops) ->
  cache' !! cacheKeyOf docDir d = Some r
  /\ (forall k, k <> cacheKeyOf docDir d -> cache' !! k = cache !! k)
  /\ (length (List.filter is_fetch ops) <= 1)%nat.
Proof.
  rewrite resolve_phases.
  destruct (cache !! cacheKeyOf docDir d) as [v|] eqn:E.
  - rewrite (resolve_begin_hit _ _ _ E). intros [= <- <- <-]. simpl. auto with lia.
  - rewrite (resolve_begin_miss _ _ E).
    destruct (isFileDependency (version d) || negb (String.eqb (specOf d) "")) eqn:Ek.
    + destruct (resolve_resume_stores env cache d (request_of docDir d))
        as (text & ops' & Hr).
      rewrite Hr. intros [= <- <- <-].
      split; [apply lookup_insert_eq|]. split; [intros k Hk; now apply lookup_insert_ne|].
      unfold resolve_resume in Hr. unfold request_of.
      destruct (isFileDependency (version d)).
      * unfold getNodeModulesPackageSize_resume in Hr.
        destruct (getNodeModulesPackageSize_try _ _) as [fsops res] eqn:Et.
        injection Hr as _ _ <-. cbn [List.filter is_fetch].
        unfold getNodeModulesPackageSize_try in Et.
        destruct (fs_stat _ _) as [[sz|l|sz|]|]; try (injection Et as <- _; simpl; lia).
        destruct (getDirSize _ _) as [dops total] eqn:Ed. injection Et as <- _.
        cbn [List.filter is_fetch]. rewrite (getDirSize_no_fetch _ _ _ _ Ed). simpl. lia.
      * destruct (parsePackageSpec (specOf d)) as [nm ver].
        destruct (fetchSize_resume _ _ _) as [c t]. injection Hr as _ _ <-.
        simpl. lia.
    + intros [= <- <- <-].
      split; [apply lookup_insert_eq|]. split; [intros k Hk; now apply lookup_insert_ne|].
      simpl. lia.
Qed.

Lemma nodeModulesKey_nonempty (packageName : string) :
  nodeModulesKey docDir packageName <> "".
Proof. unfold nodeModulesKey. discriminate. Qed.

Lemma resolve_resume_settled (env : Env) (cache : gmap string string) (d : DepEntry) :
  resolve_resume env docDir cache d (request_of docDir d)
  = (<[cacheKeyOf docDir d := fst (settled env docDir d)]> cache,
     fst (settled env docDir d), snd (settled env docDir d)).
Proof.
  unfold resolve_resume, request_of, settled, cacheKeyOf.
  destruct (isFileDependency (version d)).
  - unfold getNodeModulesPackageSize_resume.
    now destruct (getNodeModulesPackageSize_try _ _) as [ops r].
  - unfold fetchSize_resume.
    now destruct (parsePackageSpec (specOf d)) as [nm ver].
Qed.

Lemma resolve_begin_started (cache cache' : gmap string string) (d : DepEntry) :
  begin_inv cache cache' ->
  exists cache'', resolve_begin docDir cache' d = (cache'', started_of docDir cache d)
                  /\ begin_inv cache cache''.
Proof.
  intros Hinv. unfold started_of, needs_lookup.
  destruct (Hinv (cacheKeyOf docDir d)) as [Heq|(Hk & Hnone & Hsome)].
  - destruct (cache !! cacheKeyOf docDir d) as [v|] eqn:E.
    + rewrite bool_decide_eq_false_2 by discriminate. cbn [andb default].
      exists cache'. split; [now apply resolve_begin_hit|exact Hinv].
    + rewrite bool_decide_eq_true_2 by reflexivity. cbn [andb default].
      rewrite (resolve_begin_miss _ _ Heq).
      destruct (isFileDependency (version d) || negb (String.eqb (specOf d) "")) eqn:Ec.
      * exists cache'. auto.
      * eexists. split; [reflexivity|]. intros k.
        apply orb_false_elim in Ec as [Ef Es]. apply negb_false_iff, String.eqb_eq in Es.
        assert (Hkey : cacheKeyOf docDir d = "") by (unfold cacheKeyOf; now rewrite Ef).
        rewrite Hkey in *. destruct (decide (k = "")) as [->|Hne].
        -- right. rewrite lookup_insert_eq. auto.
        -- rewrite lookup_insert_ne by congruence. apply Hinv.
  - rewrite Hnone. rewrite bool_decide_eq_true_2 by reflexivity. cbn [andb default].
    assert (Hreg : isFileDependency (version d) || negb (String.eqb (specOf d) "") = false).
    { unfold cacheKeyOf in Hk. destruct (isFileDependency (version d)).
      - now apply nodeModulesKey_nonempty in Hk.
      - rewrite Hk. reflexivity. }
    rewrite Hreg. exists cache'. split; [now apply resolve_begin_hit|exact Hinv].
Qed.

Lemma begin_all_started (cache cache' : gmap string string) (all : list DepEntry) :
  begin_inv cache cache' ->
  exists cache'', begin_all docDir cache' all = (cache'', map (started_of docDir cache) all)
                  /\ begin_inv cache cache''.
Proof.
  revert cache'. induction all as [|d all IH]; intros cache' Hinv.
  - exists cache'. auto.
  - destruct (resolve_begin_started cache cache' d Hinv) as (c1 & Hb & Hinv1).
    destruct (IH c1 Hinv1) as (c2 & Hall & Hinv2).
    exists c2. cbn [begin_all map]. now rewrite Hb, Hall.
Qed.

Lemma issued_started (cache : gmap string string) (all : list DepEntry) :
  issued (map (started_of docDir cache) all)
  = map (request_of docDir) (List.filter (needs_lookup cache docDir) all).
Proof.
  unfold issued. induction all as [|d all IH]; [reflexivity|].
  cbn [map List.filter omap]. unfold started_of at 1.
  destruct (needs_lookup cache docDir d); cbn [map]; now rewrite <- IH.
Qed.

(** The second phase: every awaiting resolver stores and returns its own
    label; a key that no awaiting entry has keeps its cached value. *)
Lemma resume_all_started (env : Env) (cache c : gmap string string) (all : list DepEntry) :
  exists c',
    resume_all env docDir c all (map (started_of docDir cache) all)
    = (c',
       map (fun d => if needs_lookup cache docDir d then fst (settled env docDir d)
                     else default UNKNOWN (cache !! cacheKeyOf docDir d)) all,
       flat_map (fun d => snd (settled env docDir d))
                (List.filter (needs_lookup cache docDir) all))
    /\ forall k, is_Some (cache !! k) -> c' !! k = c !! k.
Proof.
  revert c. induction all as [|d all IH]; intros c.
  - exists c. auto.
  - cbn [map resume_all List.filter]. unfold started_of at 1.
    destruct (needs_lookup cache docDir d) eqn:En.
    + rewrite resolve_resume_settled.
      destruct (IH (<[cacheKeyOf docDir d := fst (settled env docDir d)]> c))
        as (c' & -> & Hc').
      exists c'. split; [reflexivity|]. intros k Hk. rewrite (Hc' k Hk).
      apply lookup_insert_ne. intros <-.
      unfold needs_lookup in En. apply andb_prop in En as [En _].
      apply bool_decide_eq_true_1 in En. rewrite En in Hk. now destruct Hk.
    + destruct (IH c) as (c' & -> & Hc'). exists c'. auto.
Qed.

(** A pass as a whole: its sizes, its calls, and the cached keys it leaves
    alone. *)
Lemma resolveAll_spec (env : Env) (cache : gmap string string) (all : list DepEntry) :
  exists cache',
    resolveAll env docDir cache all
    = (map (fun d => if needs_lookup cache docDir d then fst (settled env docDir d)
                     else default UNKNOWN (cache !! cacheKeyOf docDir d)) all,
       cache',
       pass_ops env docDir (List.filter (needs_lookup cache docDir) all))
    /\ forall k v, cache !! k = Some v -> cache' !! k = Some v.
Proof.
  unfold resolveAll, pass_ops.
  destruct (begin_all_started cache cache all) as (c1 & -> & Hinv); [now left|].
  destruct (resume_all_started env cache c1 all) as (c2 & -> & Hc2).
  exists c2. rewrite issued_started. split; [reflexivity|].
  intros k v Hk. rewrite Hc2 by eauto.
  destruct (Hinv k) as [->|(_ & Hnone & _)]; congruence.
Qed.

End Cache.

(** ** C5: resolving a key twice *)

Lemma settled_no_fetch (env : Env) (docDir : string) (d : DepEntry) :
  List.filter is_fetch (snd (settled env docDir d)) = [].
Proof.
  unfold settled. destruct (isFileDependency (version d)).
  - pose proof (try_fs_only is_fetch ltac:(reflexivity) ltac:(reflexivity)
                  (fsRoot env) (installPath docDir (name d))) as H.
    now destruct (getNodeModulesPackageSize_try _ _) as [ops r].
  - now destruct (parsePackageSpec (specOf d)).
Qed.

Lemma filter_fetch_requests (docDir : string) (l : list DepEntry) :
  List.filter is_fetch (map (request_of docDir) l)
  = map (request_of docDir)
        (List.filter (fun d => negb (isFileDependency (version d))) l).
Proof.
  induction l as [|d l IH]; [reflexivity|]. cbn [map List.filter].
  unfold request_of at 1. destruct (isFileDependency (version d)) eqn:E; cbn [negb].
  - exact IH.
  - destruct (parsePackageSpec (specOf d)) as [nm ver] eqn:Ep. cbn [is_fetch map].
    now rewrite IH.
Qed.

Lemma filter_filter {A} (p q : A -> bool) (l : list A) :
  List.filter q (List.filter p l) = List.filter (fun x => p x && q x) l.
Proof.
  induction l as [|x l IH]; [reflexivity|]. cbn [List.filter].
  destruct (p x); cbn [andb List.filter]; [destruct (q x)|]; now rewrite IH.
Qed.




(** ** C10: failures are cached like successes *)

(** A label cached for a key, with no resolver of that key in flight, is
    left alone by every action: a resolver called for the key returns it
    at once, and the resolvers of other keys write elsewhere. *)
Lemma act_keeps (key label : string) (cache : gmap string string)
    (flights : list InFlight) (a : Action) :
  cache !! key = Some label -> none_in_flight key flights ->
  (act cache flights a).1.1 !! key = Some label
  /\ none_in_flight key (act cache flights a).1.2
  /\ served key label a (act cache flights a).2.
Proof.
  intros Hkey Hfl. destruct a as [docDir d|i env]; cbn [act served].
  - destruct (decide (cacheKeyOf docDir d = key)) as [Hd|Hd].
    + rewrite (resolve_begin_hit docDir cache d label) by now rewrite Hd.
      cbn [fst snd]. auto.
    + destruct (cache !! cacheKeyOf docDir d) as [v|] eqn:E.
      * rewrite (resolve_begin_hit docDir cache d v E). cbn [fst snd].
        split; [exact Hkey|]. split; [exact Hfl|]. intros H. now destruct Hd.
      * rewrite (resolve_begin_miss docDir cache d E).
        destruct (_ || _); cbn [fst snd].
        -- split; [exact Hkey|]. split; [|intros H; now destruct Hd].
           apply Forall_app. split; [exact Hfl|]. constructor; [exact Hd|constructor].
        -- split; [now rewrite lookup_insert_ne|].
           split; [exact Hfl|]. intros H. now destruct Hd.
  - destruct (flights !! i) as [f|] eqn:Ef; [|cbn [fst snd]; auto].
    pose proof (Forall_lookup_1 _ _ _ _ Hfl Ef) as Hf. cbn beta in Hf.
    destruct (resolve_resume_stores (flightDir f) env cache (flightEntry f) (flightCall f))
      as (text & ops & ->). cbn [fst snd].
    split; [now rewrite lookup_insert_ne|]. split; [|exact I].
    now apply Forall_delete.
Qed.

Lemma interleave_keeps (key label : string) (acts : list Action)
    (cache : gmap string string) (flights : list InFlight) :
  cache !! key = Some label -> none_in_flight key flights ->
  (interleave cache flights acts).1.1 !! key = Some label
  /\ none_in_flight key (interleave cache flights acts).1.2
  /\ Forall2 (served key label) acts (interleave cache flights acts).2.
Proof.
  revert cache flights. induction acts as [|a acts IH]; intros cache flights Hkey Hfl.
  - cbn. auto.
  - cbn [interleave].
    destruct (act_keeps key label cache flights a Hkey Hfl) as (H1 & H2 & H3).
    destruct (act cache flights a) as [[cache1 flights1] out]. cbn [fst snd] in *.
    destruct (IH cache1 flights1 H1 H2) as (H4 & H5 & H6).
    destruct (interleave cache1 flights1 acts) as [[cache2 flights2] outs].
    cbn [fst snd] in *. auto.
Qed.

(** C10 (counterexample): two resolvers of one key are in flight; the
    first fails and stores the unknown label; the second, answered by the
    registry, then stores its size over it, and the next resolution of the
    key returns that size, with no clearing in between. *)
Lemma unknown_overwritten :
  (interleave ∅ [] (firstn 3 sample_race)).1.1 !! "lodash@^4.17.0" = Some UNKNOWN
  /\ (interleave ∅ [] sample_race).1.1 !! "lodash@^4.17.0" = Some "1.4 MB"
  /\ last (interleave ∅ [] sample_race).2 = Some (Some "1.4 MB", []).
Proof. vm_compute. repeat split. Qed.

(** C10 (amended): every path of a resolver stores the label it returns,
    the unknown label of a failure included, under the key of its entry.
    Once the unknown label is cached for a key and no resolver of that key
    is in flight, then whatever resolvers are called and answered, in
    whatever order: every resolver called for the key returns the unknown
    label at once, without a call; none of that key gets in flight; and
    the label stays cached, until [deactivate] clears the cache. *)
Theorem unknown_stays_cached (key : string) (cache : gmap string string)
    (flights : list InFlight) (acts : list Action) :
  cache !! key = Some UNKNOWN ->
  none_in_flight key flights ->
  let '(cache', flights', outs) := interleave cache flights acts in
  cache' !! key = Some UNKNOWN
  /\ none_in_flight key flights'
  /\ Forall2 (served key UNKNOWN) acts outs
  /\ (forall env docDir c d call,
        let '(c', text, ops) := resolve_resume env docDir c d call in
        c' !! cacheKeyOf docDir d = Some text)
  /\ (forall st, sizeCache (deactivate st) = ∅).
Proof.
  intros Hkey Hfl.
  destruct (interleave_keeps key UNKNOWN acts cache flights Hkey Hfl) as (H1 & H2 & H3).
  destruct (interleave cache flights acts) as [[cache' flights'] outs]. cbn [fst snd] in *.
  split; [exact H1|]. split; [exact H2|]. split; [exact H3|]. split; [|reflexivity].
  intros env docDir c d call.
  destruct (resolve_resume_stores docDir env c d call) as (text & ops & ->).
  apply lookup_insert_eq.
Qed.

Lemma unknown_stays_cached_witness :
  let '(cache', flights', outs) :=
    interleave (<["lodash@^4.17.0" := UNKNOWN]> ∅)
      [{| flightDir := "/proj"; flightEntry := sample_left_pad;
          flightCall := EStat "/proj/node_modules/left-pad" |}]
      [Called "/proj" sample_lodash; Settled 0 sample_env; Called "/proj" sample_lodash] in
  cache' !! "lodash@^4.17.0" = Some UNKNOWN
  /\ outs = [(Some UNKNOWN, []);
             (Some "2.0 kB", [EReaddir "/proj/node_modules/left-pad";
                              EStat "/proj/node_modules/left-pad/package.json";
                              EStat "/proj/node_modules/left-pad/index.js";
                              EReaddir "/proj/node_modules/left-pad/lib";
                              EStat "/proj/node_modules/left-pad/lib/pad.js"]);
             (Some UNKNOWN, [])].
Proof.
  pose proof (unknown_stays_cached "lodash@^4.17.0" (<["lodash@^4.17.0" := UNKNOWN]> ∅)
                [{| flightDir := "/proj"; flightEntry := sample_left_pad;
                    flightCall := EStat "/proj/node_modules/left-pad" |}]
                [Called "/proj" sample_lodash; Settled 0 sample_env;
                 Called "/proj" sample_lodash]
                (lookup_insert_eq _ _ _)) as H.
  destruct (interleave _ _ _) as [[cache' flights'] outs] eqn:E.
  split.
  - apply H. constructor; [|constructor]. vm_compute. discriminate.
  - vm_compute in E. now injection E as _ _ <-.
Defined.

(** A lookup that fails is answered from the cache the next time, also
    when the registry has become reachable. *)
Example failure_cached_sample :
  let '(r1, c1, ops1) := resolve offline_env "/proj" ∅ sample_lodash in
  r1 = UNKNOWN
  /\ ops1 = [EFetch "https://registry.npmjs.org/lodash"]
  /\ resolve sample_env "/proj" c1 sample_lodash = (UNKNOWN, c1, []).
Proof. vm_compute. repeat split. Qed.

(** ** C9: the configuration flag *)

Lemma updateDecorations_disabled (env : Env) (st : State) (editor : TextEditor) :
  enabled env = false -> updateDecorations env st editor = (st, []).
Proof. intros H. unfold updateDecorations. now rewrite H. Qed.

Lemma handle_disabled (env : Env) (st : State) (ev : Event) :
  enabled env = false -> manifest_event ev ->
  exists t, handle env st ev = (with_timeout st t, []).
Proof.
  intros Hoff Hev. destruct ev as [[ed|]|ed|ed|doc]; cbn [handle manifest_event] in *.
  - rewrite Hev. unfold triggerUpdate. rewrite Hev. cbn [negb].
    rewrite updateDecorations_disabled by exact Hoff. now exists None.
  - exists (timeout st). now destruct st.
  - unfold triggerUpdate. rewrite Hev. cbn [negb]. now exists (Some (editorId ed)).
  - rewrite Hev. unfold triggerUpdate. rewrite Hev. cbn [negb].
    rewrite updateDecorations_disabled by exact Hoff. now exists None.
  - destruct (timeout st) as [ed|] eqn:Et.
    + rewrite updateDecorations_disabled by exact Hoff. now exists None.
    + exists None. destruct st. cbn in Et. now subst.
Qed.

(** C9: while the configuration flag is disabled, an update does nothing:
    it returns before parsing, so whatever events reach the extension for
    editors that show a manifest (a change of the active editor, an edit,
    an opened manifest, the debounce timer), no text is parsed, no size is
    looked up, no paint or clear call is issued, and the caches and the
    labels every editor shows are what they were. *)
Theorem disabled_leaves_labels (st : State) (evs : list (Env * Event)) :
  Forall (fun p => enabled (fst p) = false /\ manifest_event (snd p)) evs ->
  let '(st', ops) := run st evs in
  ops = []
  /\ sizeCache st' = sizeCache st
  /\ decorationTypeCache st' = decorationTypeCache st
  /\ decorations st' = decorations st
  /\ (forall editor sizeText, painted st' editor sizeText = painted st editor sizeText)
  /\ (forall env editor, enabled env = false ->
        updateDecorations env st editor = (st, [])).
Proof.
  intros Hall.
  assert (Hrun : exists t, run st evs = (with_timeout st t, [])).
  { revert st. induction Hall as [|[env ev] evs [Hoff Hev] _ IH]; intros st.
    - exists (timeout st). now destruct st.
    - cbn [run]. cbn [fst snd] in Hoff, Hev.
      destruct (handle_disabled env st ev Hoff Hev) as (t & ->).
      destruct (IH (with_timeout st t)) as (t' & ->). now exists t'. }
  destruct Hrun as (t & ->).
  repeat split; try reflexivity.
  intros env editor Hoff. now apply updateDecorations_disabled.
Qed.

Lemma disabled_leaves_labels_witness :
  let st := fst (updateDecorations sample_env initial_state sample_editor) in
  let '(st', ops) :=
    run st [(disabled_env, TextChanged {| editorId := 1; document := sample_emptied |});
            (disabled_env, TimerFired sample_emptied);
            (disabled_env, ActiveEditorChanged
                             (Some {| editorId := 1; document := sample_emptied |}))] in
  ops = [] /\ decorations st' = decorations st.
Proof.
  intros st.
  pose proof (disabled_leaves_labels st
    [(disabled_env, TextChanged {| editorId := 1; document := sample_emptied |});
     (disabled_env, TimerFired sample_emptied);
     (disabled_env, ActiveEditorChanged
                      (Some {| editorId := 1; document := sample_emptied |}))]) as H.
  destruct (run st _) as [st' ops].
  destruct H as (Hops & _ & _ & Hdec & _); [|now split].
  repeat constructor.
Defined.

(** The calls of a pass are lookups: none of them paints. *)
Lemma filter_lookup_calls (ops : list Effect) :
  List.filter (fun e => negb (is_lookup e)) ops = [] -> setDecorations_calls ops = [].
Proof.
  induction ops as [|e ops IH]; [reflexivity|]. cbn [List.filter].
  destruct e; cbn [is_lookup negb]; try discriminate; exact IH.
Qed.

Lemma settled_lookups (env : Env) (docDir : string) (d : DepEntry) :
  List.filter (fun e => negb (is_lookup e)) (snd (settled env docDir d)) = [].
Proof.
  unfold settled. destruct (isFileDependency (version d)).
  - pose proof (try_fs_only (fun e => negb (is_lookup e)) ltac:(reflexivity)
                  ltac:(reflexivity) (fsRoot env) (installPath docDir (name d))) as H.
    now destruct (getNodeModulesPackageSize_try _ _) as [ops r].
  - now destruct (parsePackageSpec (specOf d)).
Qed.

Lemma request_is_lookup (docDir : string) (d : DepEntry) :
  is_lookup (request_of docDir d) = true.
Proof.
  unfold request_of. destruct (isFileDependency (version d)); [reflexivity|].
  now destruct (parsePackageSpec (specOf d)).
Qed.

Lemma pass_ops_lookups (env : Env) (docDir : string) (l : list DepEntry) :
  List.filter (fun e => negb (is_lookup e)) (pass_ops env docDir l) = [].
Proof.
  unfold pass_ops. rewrite List.filter_app.
  replace (List.filter _ (map (request_of docDir) l)) with (@nil Effect).
  - induction l as [|d l IH]; [reflexivity|].
    cbn [flat_map app]. now rewrite List.filter_app, settled_lookups.
  - induction l as [|d l IH]; [reflexivity|].
    cbn [map List.filter]. now rewrite request_is_lookup.
Qed.

Lemma resolveAll_no_paint (env : Env) (docDir : string) (cache : gmap string string)
    (all : list DepEntry) :
  setDecorations_calls (snd (resolveAll env docDir cache all)) = [].
Proof.
  destruct (resolveAll_spec docDir env cache all) as (c' & -> & _). cbn [snd].
  apply filter_lookup_calls, pass_ops_lookups.
Qed.

(** ** C7: grouping, painting and clearing *)

Section Rendering.

Lemma mem_In (k : string) (l : list string) : mem k l = true <-> In k l.
Proof.
  unfold mem. rewrite existsb_exists. split.
  - intros (x & Hx & E). apply String.eqb_eq in E. now subst.
  - intros H. exists k. split; [exact H|apply String.eqb_refl].
Qed.

Lemma mem_app (k : string) (l1 l2 : list string) :
  mem k (l1 ++ l2) = mem k l1 || mem k l2.
Proof. apply existsb_app. Qed.

Lemma mem_cons (k x : string) (l : list string) :
  mem k (x :: l) = String.eqb k x || mem k l.
Proof. reflexivity. Qed.

Lemma group_add_keys (k : string) (r : Range) (m : list (string * list Range)) :
  map fst (group_add k r m)
  = if mem k (map fst m) then map fst m else map fst m ++ [k].
Proof.
  induction m as [|[k' rs] m IH]; [reflexivity|].
  cbn [group_add map fst]. rewrite mem_cons, (String.eqb_sym k k').
  destruct (String.eqb k' k); cbn [orb map fst]; [reflexivity|].
  rewrite IH. now destruct (mem k (map fst m)).
Qed.

Lemma group_of_add (t k : string) (r : Range) (m : list (string * list Range)) :
  group_of t (group_add k r m)
  = if String.eqb k t then group_of t m ++ [r] else group_of t m.
Proof.
  induction m as [|[k' rs] m IH]; cbn [group_add group_of].
  - now destruct (String.eqb k t).
  - destruct (String.eqb k' k) eqn:E; cbn [group_of].
    + apply String.eqb_eq in E as ->. now destruct (String.eqb k t).
    + destruct (String.eqb k' t) eqn:E'; [|exact IH].
      apply String.eqb_eq in E' as ->. rewrite String.eqb_sym in E. now rewrite E.
Qed.

Lemma group_add_NoDup (k : string) (r : Range) (m : list (string * list Range)) :
  NoDup (map fst m) -> NoDup (map fst (group_add k r m)).
Proof.
  intros H. rewrite group_add_keys. destruct (mem k (map fst m)) eqn:E; [exact H|].
  apply NoDup_app. split; [exact H|]. split; [|apply NoDup_singleton].
  intros x Hx [->|[]]%list_elem_of_In. apply list_elem_of_In, mem_In in Hx. congruence.
Qed.

(** The groups of a pass: one per size text, each holding the ranges of the
    entries with that size, in the order of the entries. *)
Lemma group_all_spec (sizes : list string) (all : list DepEntry)
    (m : list (string * list Range)) :
  NoDup (map fst m) ->
  NoDup (map fst (group_all sizes all m))
  /\ forall t,
       group_of t (group_all sizes all m)
       = group_of t m
         ++ map (fun p => range (snd p))
                (List.filter (fun p => String.eqb (fst p) t) (combine sizes all)).
Proof.
  revert all m. induction sizes as [|s sizes IH]; intros all m Hm.
  - cbn. split; [exact Hm|]. intros t. now rewrite app_nil_r.
  - destruct all as [|d all].
    + cbn. split; [exact Hm|]. intros t. now rewrite app_nil_r.
    + cbn [group_all combine List.filter fst].
      destruct (IH all (group_add s (range d) m) (group_add_NoDup _ _ _ Hm)) as [Hn Hg].
      split; [exact Hn|]. intros t. rewrite Hg, group_of_add.
      destruct (String.eqb s t); cbn [map snd]; [now rewrite <- app_assoc|reflexivity].
Qed.

Lemma calls_app (ops1 ops2 : list Effect) :
  setDecorations_calls (ops1 ++ ops2)
  = setDecorations_calls ops1 ++ setDecorations_calls ops2.
Proof. apply omap_app. Qed.

Lemma calls_set (ed : nat) (t : string) (rs : list Range) (ops : list Effect) :
  setDecorations_calls (ESetDecorations ed t rs :: ops)
  = (ed, t, rs) :: setDecorations_calls ops.
Proof. reflexivity. Qed.

Lemma painted_setDecorations (st : State) (ed : nat) (k : string) (rs : list Range)
    (t : string) :
  painted (setDecorations st ed k rs) ed t
  = if String.eqb k t then rs else painted st ed t.
Proof.
  unfold painted, setDecorations. cbn [decorations].
  destruct (String.eqb k t) eqn:E.
  - apply String.eqb_eq in E as ->. now rewrite lookup_insert_eq.
  - apply String.eqb_neq in E. rewrite lookup_insert_ne; [reflexivity|congruence].
Qed.

Lemma painted_getDecorationType (st : State) (k : string) (ed : nat) (t : string) :
  painted (fst (getDecorationType st k)) ed t = painted st ed t.
Proof. unfold getDecorationType. now destruct (mem k (decorationTypeCache st)). Qed.

(** The paint loop: one [setDecorations] call per group; afterwards the
    editor shows, for the text of every group, the ranges of the group. *)
Lemma paint_groups_spec (ed : nat) (groups : list (string * list Range)) (st : State) :
  NoDup (map fst groups) ->
  exists extra,
    decorationTypeCache (fst (paint_groups ed groups st)) = decorationTypeCache st ++ extra
    /\ Forall (fun t => mem t (map fst groups) = true) extra
    /\ sizeCache (fst (paint_groups ed groups st)) = sizeCache st
    /\ setDecorations_calls (snd (paint_groups ed groups st))
       = map (fun g => (ed, fst g, snd g)) groups
    /\ forall t,
         painted (fst (paint_groups ed groups st)) ed t
         = if mem t (map fst groups) then group_of t groups else painted st ed t.
Proof.
  revert st. induction groups as [|[k rs] groups IH]; intros st Hnd.
  - exists []. cbn. rewrite app_nil_r. auto.
  - cbn [map fst] in Hnd. apply NoDup_cons in Hnd as [Hk Hnd].
    cbn [paint_groups].
    destruct (getDecorationType st k) as [st1 ops1] eqn:Eg.
    destruct (IH (setDecorations st1 ed k rs) Hnd) as (extra & Hc & Hex & Hs & Hcalls & Hp).
    destruct (paint_groups ed groups (setDecorations st1 ed k rs)) as [st3 ops3].
    cbn [fst snd] in *.
    assert (Hst1 : exists e1, decorationTypeCache st1 = decorationTypeCache st ++ e1
                     /\ Forall (fun t => mem t (k :: map fst groups) = true) e1
                     /\ sizeCache st1 = sizeCache st
                     /\ setDecorations_calls ops1 = []).
    { unfold getDecorationType in Eg.
      destruct (mem k (decorationTypeCache st)); injection Eg as <- <-.
      - exists []. rewrite app_nil_r. auto.
      - exists [k]. repeat split; try reflexivity. constructor; [|constructor].
        now rewrite mem_cons, String.eqb_refl. }
    destruct Hst1 as (e1 & Hc1 & He1 & Hs1 & Ho1).
    exists (e1 ++ extra). repeat split.
    + rewrite Hc. cbn [setDecorations decorationTypeCache]. rewrite Hc1.
      now rewrite app_assoc.
    + apply Forall_app. split; [exact He1|].
      eapply Forall_impl; [exact Hex|]. cbn beta. intros t Ht.
      cbn [map fst]. rewrite mem_cons, Ht. apply orb_true_r.
    + rewrite Hs. cbn [setDecorations sizeCache]. exact Hs1.
    + now rewrite calls_app, Ho1, calls_set, Hcalls.
    + intros t. cbn [group_of map fst]. rewrite Hp, painted_setDecorations, mem_cons.
      rewrite (String.eqb_sym t k).
      destruct (String.eqb k t) eqn:E; cbn [orb].
      * apply String.eqb_eq in E as <-.
        destruct (mem k (map fst groups)) eqn:Em; [|reflexivity].
        apply mem_In, list_elem_of_In in Em. contradiction.
      * destruct (mem t (map fst groups)); [reflexivity|].
        replace st1 with (fst (getDecorationType st k)) by now rewrite Eg.
        apply painted_getDecorationType.
Qed.

(** The clear loop: an empty [setDecorations] call for every cached type
    that is not used; the editor then shows nothing for its text. *)
Lemma clear_unused_spec (ed : nat) (used types : list string) (st : State) :
  decorationTypeCache (fst (clear_unused ed used types st)) = decorationTypeCache st
  /\ sizeCache (fst (clear_unused ed used types st)) = sizeCache st
  /\ setDecorations_calls (snd (clear_unused ed used types st))
     = map (fun t => (ed, t, [])) (List.filter (fun t => negb (mem t used)) types)
  /\ forall t,
       painted (fst (clear_unused ed used types st)) ed t
       = if mem t types && negb (mem t used) then [] else painted st ed t.
Proof.
  revert st. induction types as [|k types IH]; intros st.
  - cbn. auto.
  - cbn [clear_unused List.filter]. destruct (mem k used) eqn:Eu; cbn [negb].
    + destruct (IH st) as (Hc & Hs & Hcalls & Hp). repeat split; try assumption.
      intros t. rewrite Hp, mem_cons.
      destruct (String.eqb t k) eqn:E; cbn [orb]; [|reflexivity].
      apply String.eqb_eq in E as ->. rewrite Eu. cbn [negb].
      now rewrite andb_false_r.
    + destruct (IH (setDecorations st ed k [])) as (Hc & Hs & Hcalls & Hp).
      destruct (clear_unused ed used types (setDecorations st ed k [])) as [st' ops].
      cbn [fst snd] in *. repeat split; try assumption.
      * now rewrite calls_set, Hcalls.
      * intros t. rewrite Hp, painted_setDecorations, mem_cons.
        rewrite (String.eqb_sym t k).
        destruct (String.eqb k t) eqn:E; cbn [orb].
        -- apply String.eqb_eq in E as <-. rewrite Eu. cbn [negb andb].
           now destruct (mem k types).
        -- reflexivity.
Qed.

End Rendering.

Lemma filter_unused_extra (used extra : list string) :
  Forall (fun t => mem t used = true) extra ->
  List.filter (fun t => negb (mem t used)) extra = [].
Proof.
  induction 1 as [|t extra Ht _ IH]; [reflexivity|].
  cbn [List.filter]. now rewrite Ht.
Qed.

Lemma mem_extra_used (used extra : list string) (t : string) :
  Forall (fun t => mem t used = true) extra ->
  mem t used = false -> mem t extra = false.
Proof.
  intros Hall Hu. destruct (mem t extra) eqn:E; [|reflexivity].
  apply mem_In in E. rewrite List.Forall_forall in Hall. apply Hall in E. congruence.
Qed.

(** C7, the claim as worded fails for a pass whose parse yields no entry:
    [updateDecorations] returns right after the parse, before any paint or
    clear call.  Here the sample manifest is painted, then all its
    dependencies are deleted and the view is updated again: the label
    "1.4 MB" stays on the lines it was painted on. *)
Lemma stale_label_lingers :
  let st1 := fst (updateDecorations sample_env initial_state sample_editor) in
  let emptied := {| editorId := 1; document := sample_emptied |} in
  let '(st2, ops2) := updateDecorations sample_env st1 emptied in
  parseDepsFromDocument RefJSON.parse sample_emptied = ([], [])
  /\ painted st1 1 "1.4 MB" <> []
  /\ painted st2 1 "1.4 MB" = painted st1 1 "1.4 MB"
  /\ setDecorations_calls ops2 = [].
Proof. vm_compute. repeat split. discriminate. Qed.

(** C7 (amended): after every resolution pass over a manifest view whose
    parse yields at least one entry, the labels are grouped by identical
    display string (one group per string, holding the anchors of the
    entries with that size in their order), one paint call is issued per
    group with the anchors of the group, and one clear call, with no
    anchor, for every previously used display string that is absent from
    the pass; the view then shows each group on its anchors and nothing
    for a display string that is absent from the pass, so no stale label
    lingers. *)
Theorem updateDecorations_groups (env : Env) (st : State) (editor : TextEditor) :
  enabled env = true ->
  isPackageJson (document editor) = true ->
  let parsed := parseDepsFromDocument (JSON_parse env) (document editor) in
  let all := fst parsed ++ snd parsed in
  all <> [] ->
  let docDir := path_dirname (fsPath (document editor)) in
  let sizes := fst (fst (resolveAll env docDir (sizeCache st) all)) in
  let groups := bySize sizes all in
  let ed := editorId editor in
  let st' := fst (updateDecorations env st editor) in
  let trace := snd (updateDecorations env st editor) in
  NoDup (map fst groups)
  /\ (forall t,
        group_of t groups
        = map (fun p => range (snd p))
              (List.filter (fun p => String.eqb (fst p) t) (combine sizes all)))
  /\ setDecorations_calls trace
     = map (fun g => (ed, fst g, snd g)) groups
       ++ map (fun t => (ed, t, []))
              (List.filter (fun t => negb (mem t (map fst groups)))
                           (decorationTypeCache st))
  /\ (forall t,
        painted st' ed t
        = if mem t (map fst groups) then group_of t groups
          else if mem t (decorationTypeCache st) then [] else painted st ed t)
  /\ ((forall t, painted st ed t <> [] -> mem t (decorationTypeCache st) = true) ->
      forall t, mem t (map fst groups) = false -> painted st' ed t = []).
Proof.
  intros Hon Hdoc parsed all Hall docDir sizes groups ed st' trace.
  destruct (group_all_spec sizes all [] (NoDup_nil_2 : NoDup (map fst []))) as [Hnd Hgroups].
  fold (bySize sizes all) in Hnd, Hgroups. fold groups in Hnd, Hgroups.
  assert (Hupd : updateDecorations env st editor
                 = (let '(st1, ops1) :=
                      paint_groups ed groups
                        (with_sizeCache st (snd (fst (resolveAll env docDir (sizeCache st) all)))) in
                    let '(st2, ops2) :=
                      clear_unused ed (map fst groups) (decorationTypeCache st1) st1 in
                    (st2, EParse :: snd (resolveAll env docDir (sizeCache st) all)
                            ++ ops1 ++ ops2))).
  { unfold updateDecorations. rewrite Hon, Hdoc. cbn [negb].
    subst groups sizes all parsed docDir ed.
    destruct (parseDepsFromDocument (JSON_parse env) (document editor)) as [deps devDeps].
    cbn [fst snd] in *.
    destruct (deps ++ devDeps) as [|d0 rest] eqn:Eall; [congruence|].
    cbn [length Nat.eqb].
    now destruct (resolveAll env _ (sizeCache st) (d0 :: rest)) as [[sz c] ops]. }
  set (st0 := with_sizeCache st (snd (fst (resolveAll env docDir (sizeCache st) all)))) in *.
  destruct (paint_groups_spec ed groups st0 Hnd) as (extra & Hc1 & Hex & _ & Hcalls1 & Hp1).
  destruct (paint_groups ed groups st0) as [st1 ops1]. cbn [fst snd] in *.
  destruct (clear_unused_spec ed (map fst groups) (decorationTypeCache st1) st1)
    as (_ & _ & Hcalls2 & Hp2).
  destruct (clear_unused ed (map fst groups) (decorationTypeCache st1) st1) as [st2 ops2].
  cbn [fst snd] in *.
  assert (Hpainted : forall t,
             painted st' ed t
             = if mem t (map fst groups) then group_of t groups
               else if mem t (decorationTypeCache st) then [] else painted st ed t).
  { intros t. subst st'. rewrite Hupd. cbn [fst]. rewrite Hp2, Hp1, Hc1, mem_app.
    destruct (mem t (map fst groups)) eqn:Eu; cbn [negb].
    - now rewrite andb_false_r.
    - rewrite (mem_extra_used _ _ _ Hex Eu), orb_false_r, andb_true_r.
      reflexivity. }
  split; [exact Hnd|]. split; [exact Hgroups|]. split; [|split; [exact Hpainted|]].
  - subst trace. rewrite Hupd. cbn [snd].
    change (EParse :: ?l) with ([EParse] ++ l).
    rewrite !calls_app, Hcalls1, Hcalls2, Hc1, List.filter_app.
    change (decorationTypeCache st0) with (decorationTypeCache st).
    rewrite (filter_unused_extra _ _ Hex), app_nil_r.
    replace (setDecorations_calls [EParse]) with (@nil (nat * string * list Range))
      by reflexivity.
    replace (setDecorations_calls (snd (resolveAll env docDir (sizeCache st) all)))
      with (@nil (nat * string * list Range)); [reflexivity|].
    symmetry. apply resolveAll_no_paint.
  - intros Hinv t Hu. rewrite Hpainted, Hu.
    destruct (mem t (decorationTypeCache st)) eqn:Em; [reflexivity|].
    destruct (painted st ed t) eqn:Ep; [reflexivity|].
    assert (Hne : painted st ed t <> []) by (rewrite Ep; discriminate).
    apply Hinv in Hne. congruence.
Qed.

Lemma updateDecorations_groups_witness :
  let parsed := parseDepsFromDocument RefJSON.parse sample_manifest in
  let all := fst parsed ++ snd parsed in
  let sizes := fst (fst (resolveAll sample_env "/proj" ∅ all)) in
  all <> [] /\ NoDup (map fst (bySize sizes all)).
Proof.
  intros parsed all sizes.
  assert (Hall : all <> []) by (vm_compute; discriminate).
  split; [exact Hall|].
  apply (updateDecorations_groups sample_env initial_state sample_editor
           eq_refl eq_refl Hall).
Defined.

(** The sample manifest from open to paint: the exact version of "lodash"
    and its wildcard line share the label "1.4 MB", the installed
    "left-pad" shows "2.0 kB", and the package the registry does not know
    shows the unknown label. *)
Example updateDecorations_sample :
  map (fun c => (snd (fst c), map (fun r => line (range_end r)) (snd c)))
      (setDecorations_calls (snd (updateDecorations sample_env initial_state sample_editor)))
  = [("1.4 MB", [3; 6]%nat); ("2.0 kB", [4%nat]); (UNKNOWN, [6%nat])].
Proof. vm_compute. reflexivity. Qed.

(** * Further properties of the code *)

(** ** The size label *)

Lemma formatBytes_suffix (bytes : Z) :
  exists p, formatBytes bytes = p +:+ " B"
            \/ formatBytes bytes = p +:+ " kB"
            \/ formatBytes bytes = p +:+ " MB".
Proof.
  unfold formatBytes.
  destruct (bytes >=? 1024 * 1024); [eexists; right; right; reflexivity|].
  destruct (bytes >=? 1024); [eexists; right; left; reflexivity|].
  eexists; left; reflexivity.
Qed.

(** X1: whatever the number, the label [formatBytes] gives ends in one of
    the three unit suffixes and is never the unknown label: the unknown
    label always means that a lookup failed. *)
Theorem formatBytes_not_unknown (bytes : Z) :
  formatBytes bytes <> UNKNOWN
  /\ (Str.endsWith " B" (formatBytes bytes) = true
      \/ Str.endsWith " kB" (formatBytes bytes) = true
      \/ Str.endsWith " MB" (formatBytes bytes) = true).
Proof.
  destruct (formatBytes_suffix bytes) as (p & H).
  assert (Hends : forall q, Str.endsWith q (p +:+ q) = true).
  { intros q. unfold Str.endsWith. rewrite StrFacts.length_app.
    destruct (Nat.ltb _ _) eqn:E; [apply Nat.ltb_lt in E; lia|].
    replace (String.length p + String.length q - String.length q)%nat
      with (String.length p) by lia.
    rewrite StrFacts.drop_app_length. apply String.eqb_refl. }
  split.
  - intros Hu. assert (Hlen : String.length (formatBytes bytes) = 3%nat)
      by now rewrite Hu.
    destruct H as [H|[H|H]]; rewrite H in Hu, Hlen;
      rewrite StrFacts.length_app in Hlen; simpl in Hlen.
    + destruct p as [|a [|b p]]; simpl in Hlen; try lia. discriminate.
    + destruct p as [|a p]; simpl in Hlen; try lia. discriminate.
    + destruct p as [|a p]; simpl in Hlen; try lia. discriminate.
  - destruct H as [->|[->| ->]]; auto.
Qed.

(** X2: the kibibyte label is not always below 1024: each of the last 51
    byte counts under the mebibyte threshold rounds up to "1024.0 kB". *)
Theorem formatBytes_kB_carry (bytes : Z) :
  1048525 <= bytes < 1048576 -> formatBytes bytes = "1024.0 kB".
Proof.
  intros [Hge Hlt]. unfold formatBytes. change (1024 * 1024) with 1048576.
  destruct (bytes >=? 1048576) eqn:E; [apply Z.geb_le in E; lia|].
  replace (bytes >=? 1024) with true by (symmetry; apply Z.geb_le; lia).
  destruct (toFixed1_shape bytes 1024 ltac:(lia) ltac:(lia)) as [_ ->].
  replace (toFixed1_nearest bytes 1024) with 10240; [reflexivity|].
  unfold toFixed1_nearest.
  apply Z.div_unique with (20 * bytes + 1024 - 10240 * 2048); lia.
Qed.

Lemma formatBytes_kB_carry_witness :
  1048525 <= 1048525 < 1048576 /\ formatBytes 1048525 = "1024.0 kB".
Proof. split; [lia|]. apply (formatBytes_kB_carry 1048525). lia. Defined.

(** ** The registry lookup of an exact version *)

Lemma exact_size_computed (data : JSON) :
  size_label (get_field_opt (get_field_opt (Json data) "dist") "unpackedSize")
  = exact_size (Response true (Some data)).
Proof.
  destruct data as [|b|n|s|l|body]; try reflexivity. cbn.
  destruct (member "dist" body) as [[|b|n|s|l|dist]|]; try reflexivity. cbn.
  now destruct (member "unpackedSize" dist) as [[|b|n|s|l|x]|].
Qed.

(** X3: a call of [fetchSize] for a spec that is not cached and whose
    version is an exact version fetches the URL of that one version, once,
    and returns and caches the label of its [dist.unpackedSize]; a failed
    or unsuccessful response, a body that is not JSON or not an object, a
    missing [dist] or [unpackedSize], or a size that is not a number, give
    the unknown label.  No assumption on the shape of the body is needed. *)
Theorem fetchSize_exact (env : Env) (cache : gmap string string)
    (packageSpec nm ver : string) :
  cache !! packageSpec = None ->
  parsePackageSpec packageSpec = (nm, ver) ->
  useExact ver = true ->
  let url := NPM_REGISTRY +:+ "/" +:+ encodeURIComponent nm
             +:+ "/" +:+ encodeURIComponent ver in
  fetchSize env cache packageSpec
  = (exact_size (fetch env url),
     <[packageSpec := exact_size (fetch env url)]> cache,
     [EFetch url]).
Proof.
  intros Hmiss Hparse Hexact url.
  assert (Hnm : nm <> "").
  { destruct (String.eqb packageSpec "") eqn:E.
    - apply String.eqb_eq in E. subst packageSpec. cbv in Hparse.
      injection Hparse as <- <-. discriminate.
    - apply String.eqb_neq in E.
      destruct (parsePackageSpec_nonempty packageSpec E) as [H _].
      now rewrite Hparse in H. }
  unfold fetchSize, fetchSize_begin. rewrite Hmiss, Hparse.
  apply String.eqb_neq in Hnm. rewrite Hnm.
  unfold registry_url. rewrite Hexact. fold url.
  unfold fetchSize_resume. rewrite Hparse. cbn [snd].
  assert (Ht : default UNKNOWN (fetchSize_try ver (fetch env url)) = exact_size (fetch env url)).
  { unfold fetchSize_try. rewrite Hexact.
    destruct (fetch env url) as [|[|] [data|]]; try reflexivity.
    cbn [mbind option_bind default]. apply exact_size_computed. }
  now rewrite Ht.
Qed.

Lemma fetchSize_exact_witness :
  fetchSize sample_env ∅ "lodash@4.17.21"
  = (exact_size (fetch sample_env "https://registry.npmjs.org/lodash/4.17.21"),
     <["lodash@4.17.21" :=
         exact_size (fetch sample_env "https://registry.npmjs.org/lodash/4.17.21")]> ∅,
     [EFetch "https://registry.npmjs.org/lodash/4.17.21"])
  /\ exact_size (fetch sample_env "https://registry.npmjs.org/lodash/4.17.21") = "1.4 MB".
Proof.
  split; [|vm_compute; reflexivity].
  apply (fetchSize_exact sample_env ∅ "lodash@4.17.21" "lodash" "4.17.21");
    [apply lookup_empty | vm_compute; reflexivity ..].
Defined.

(** ** Package specs *)

Lemma indexOf_app_found (c : ascii) (n v : string) :
  Str.indexOf c 0 n = None ->
  Str.indexOf c 0 (n +:+ String c v) = Some (String.length n).
Proof.
  induction n as [|a n IH]; intros H.
  - rewrite StrFacts.app_nil_l. simpl. now rewrite Ascii.eqb_refl.
  - rewrite StrFacts.app_cons. simpl in *.
    destruct (Ascii.eqb a c); [discriminate|].
    destruct (Str.indexOf c 0 n); [discriminate|]. now rewrite IH.
Qed.

(** X4: the spec the coordinator builds for an entry parses back to the
    entry: when the name is not empty and has no "@" after its first
    character (a scope marker is allowed), [parsePackageSpec (specOf d)]
    is the name and the version of the entry, the wildcard standing for
    an empty version. *)
Theorem specOf_roundtrip (d : DepEntry) :
  name d <> "" ->
  Str.indexOf "@" 1 (name d) = None ->
  parsePackageSpec (specOf d)
  = (name d, if String.eqb (version d) "" then "*" else version d).
Proof.
  intros Hne Hat. unfold specOf.
  destruct (String.eqb (version d) "") eqn:Ev; cbn [negb andb].
  - unfold parsePackageSpec. now rewrite Hat.
  - destruct (String.eqb (version d) "*") eqn:Es; cbn [negb].
    + unfold parsePackageSpec. rewrite Hat. apply String.eqb_eq in Es. now rewrite Es.
    + unfold parsePackageSpec.
      destruct (name d) as [|a n] eqn:En; [congruence|].
      assert (Hn : Str.indexOf "@" 0 n = None).
      { simpl in Hat. now destruct (Str.indexOf "@" 0 n). }
      change ("@" +:+ version d) with (String "@" (version d)).
      rewrite StrFacts.app_cons.
      change (Str.indexOf "@" 1 (String a (n +:+ String "@" (version d))))
        with (S <$> Str.indexOf "@" 0 (n +:+ String "@" (version d))).
      rewrite (indexOf_app_found _ _ _ Hn). cbn [fmap option_fmap option_map].
      rewrite <- StrFacts.app_cons.
      change (S (String.length n)) with (String.length (String a n)).
      rewrite StrFacts.take_app_length.
      rewrite (Nat.add_comm _ 1), StrFacts.drop_add, StrFacts.drop_app_length.
      cbn [Str.drop]. now rewrite Ev.
Qed.

Lemma specOf_roundtrip_witness :
  parsePackageSpec (specOf sample_babel) = ("@babel/core", "^7.0.0").
Proof. apply (specOf_roundtrip sample_babel); [discriminate | reflexivity]. Defined.

(** ** The scan *)

(** X5: the scan finds every occurrence of the pattern but those that
    begin inside an earlier match: wherever the text holds a quoted
    non-empty key, a colon and a quoted value, the scan reports a match
    there with that key and value, or a match that begins before it and
    reaches past its first character. *)
Theorem scan_complete (text : string) (i : nat) (k v : string) :
  pattern_at text i k v ->
  exists m, In m (scan text)
    /\ ((index m = i /\ group1 m = k /\ group2 m = v)
        \/ (index m < i < index m + match_length text m)%nat).
Proof.
  intros Hp.
  destruct (exec_all_complete text 0 0 i k v Hp) as (m & Hin & _ & Hcase); [lia|].
  exists m. split; [exact Hin|].
  destruct Hcase as [(Hi & Hk & Hv)|(k' & v' & n & Hm & Hr)]; [left; auto|].
  right. unfold match_length. rewrite Nat.sub_0_r in Hm. rewrite Hm. lia.
Qed.

Lemma scan_complete_witness :
  exists m, In m (scan (qq "{'a': '1'}"))
    /\ ((index m = 1%nat /\ group1 m = "a" /\ group2 m = "1")
        \/ (index m < 1 < index m + match_length (qq "{'a': '1'}") m)%nat).
Proof.
  apply (scan_complete (qq "{'a': '1'}") 1 "a" "1").
  exists "", " ", "}". repeat split; try reflexivity. discriminate.
Defined.

(** X6: the matches of a scan come in the order of the text and never
    overlap: each is an occurrence of the pattern, and every later match
    starts at or after the end of the text it covers, white space around
    the colon included. *)
Theorem scan_spaced (text : string) : spaced text (scan text).
Proof. apply (exec_all_spaced text 0 text 0). reflexivity. Qed.

(** ** The dependency parser on any manifest *)

Lemma sublist_In {A} (l1 l2 : list A) (x : A) : sublist l1 l2 -> In x l1 -> In x l2.
Proof.
  induction 1 as [|y l1 l2 _ IH|y l1 l2 _ IH]; intros Hin.
  - exact Hin.
  - destruct Hin as [->|Hin]; [now left|right; auto].
  - right. auto.
Qed.

Lemma collect_sublists (doc : TextDocument) (D V : Value) (ms : list Match)
    (deps devDeps : list DepEntry) :
  exists ms1 ms2,
    collect doc D V ms deps devDeps
    = (deps ++ map (entryOf doc) ms1, devDeps ++ map (entryOf doc) ms2)
    /\ sublist ms1 ms /\ sublist ms2 ms
    /\ (length ms1 + length ms2 <= length ms)%nat.
Proof.
  revert deps devDeps. induction ms as [|m ms IH]; intros deps devDeps.
  - exists [], []. cbn. rewrite !app_nil_r. repeat split; constructor.
  - cbn [collect].
    assert (Hstop : exists ms1 ms2 : list Match,
               (deps, devDeps) = (deps ++ map (entryOf doc) ms1,
                                  devDeps ++ map (entryOf doc) ms2)
               /\ sublist ms1 (m :: ms) /\ sublist ms2 (m :: ms)
               /\ (length ms1 + length ms2 <= length (m :: ms))%nat).
    { exists [], []. cbn. rewrite !app_nil_r.
      repeat split; try apply sublist_nil_l. lia. }
    destruct (has_property D (group1 m)) as [[|]|]; [| |exact Hstop].
    + destruct (IH (deps ++ [entryOf doc m]) devDeps) as (ms1 & ms2 & -> & H1 & H2 & Hl).
      exists (m :: ms1), ms2. cbn [map length]. rewrite <- app_assoc.
      repeat split; [now constructor|now constructor|lia].
    + destruct (has_property V (group1 m)) as [[|]|]; [| |exact Hstop].
      * destruct (IH deps (devDeps ++ [entryOf doc m])) as (ms1 & ms2 & -> & H1 & H2 & Hl).
        exists ms1, (m :: ms2). cbn [map length]. rewrite <- app_assoc.
        repeat split; [now constructor|now constructor|lia].
      * destruct (IH deps devDeps) as (ms1 & ms2 & -> & H1 & H2 & Hl).
        exists ms1, ms2. cbn [length]. repeat split; [now constructor|now constructor|lia].
Qed.

Lemma parseDeps_matches (JSON_parse : string -> option JSON) (doc : TextDocument) :
  exists ms1 ms2,
    parseDepsFromDocument JSON_parse doc
    = (map (entryOf doc) ms1, map (entryOf doc) ms2)
    /\ sublist ms1 (scan (getText doc))
    /\ sublist ms2 (scan (getText doc))
    /\ (length ms1 + length ms2 <= length (scan (getText doc)))%nat.
Proof.
  unfold parseDepsFromDocument.
  assert (Hnone : exists ms1 ms2 : list Match,
             (@nil DepEntry, @nil DepEntry)
             = (map (entryOf doc) ms1, map (entryOf doc) ms2)
             /\ sublist ms1 (scan (getText doc)) /\ sublist ms2 (scan (getText doc))
             /\ (length ms1 + length ms2 <= length (scan (getText doc)))%nat).
  { exists [], []. repeat split; try apply sublist_nil_l. cbn. lia. }
  destruct (JSON_parse (getText doc)) as [json|]; [|exact Hnone].
  destruct (get_field (Json json) "dependencies") as [d|]; [|exact Hnone].
  destruct (get_field (Json json) "devDependencies") as [v|]; [|exact Hnone].
  apply (collect_sublists doc _ _ (scan (getText doc)) [] []).
Qed.

Lemma collect_tagged (doc : TextDocument) (D V : Value) (ms : list Match)
    (deps devDeps : list DepEntry) :
  exists l : list (Match * bool),
    sublist (map fst l) ms
    /\ collect doc D V ms deps devDeps
       = (deps ++ map (entryOf doc) (map fst (List.filter snd l)),
          devDeps ++ map (entryOf doc)
                       (map fst (List.filter (fun p => negb (snd p)) l))).
Proof.
  revert deps devDeps. induction ms as [|m ms IH]; intros deps devDeps.
  - exists []. cbn. rewrite !app_nil_r. split; [constructor|reflexivity].
  - cbn [collect].
    assert (Hstop : exists l : list (Match * bool),
               sublist (map fst l) (m :: ms)
               /\ (deps, devDeps)
                  = (deps ++ map (entryOf doc) (map fst (List.filter snd l)),
                     devDeps ++ map (entryOf doc)
                                  (map fst (List.filter (fun p => negb (snd p)) l)))).
    { exists []. cbn. rewrite !app_nil_r. split; [apply sublist_nil_l|reflexivity]. }
    destruct (has_property D (group1 m)) as [[|]|]; [| |exact Hstop].
    + destruct (IH (deps ++ [entryOf doc m]) devDeps) as (l & Hsub & ->).
      exists ((m, true) :: l). cbn [map fst snd List.filter negb].
      rewrite <- app_assoc. split; [now constructor|reflexivity].
    + destruct (has_property V (group1 m)) as [[|]|]; [| |exact Hstop].
      * destruct (IH deps (devDeps ++ [entryOf doc m])) as (l & Hsub & ->).
        exists ((m, false) :: l). cbn [map fst snd List.filter negb].
        rewrite <- app_assoc. split; [now constructor|reflexivity].
      * destruct (IH deps devDeps) as (l & Hsub & ->).
        exists l. split; [now constructor|reflexivity].
Qed.

Lemma spaced_NoDup (text : string) (ms : list Match) :
  spaced text ms -> NoDup (map index ms).
Proof.
  induction 1 as [|m l n Hp Hl _ IH]; [constructor|].
  cbn [map]. constructor; [|exact IH].
  intros Hin. apply list_elem_of_In, in_map_iff in Hin as (m' & Hi & Hm').
  apply list_elem_of_In in Hm'.
  rewrite Forall_forall in Hl. specialize (Hl m' Hm').
  destruct Hp as (w1 & w2 & rest & _ & _ & _ & _ & _ & _ & ->). lia.
Qed.

(** X7: whatever the manifest holds (also when a category is not an
    object and the scan is cut short), the parser never invents,
    duplicates or reorders an entry: some of the matches of the scan, each
    taken once and in scan order, are filed either as a dependency or as a
    development dependency, and the two sequences are the entries of the
    matches filed so, in that order. *)
Theorem parseDeps_sound (JSON_parse : string -> option JSON) (doc : TextDocument) :
  exists l : list (Match * bool),
    sublist (map fst l) (scan (getText doc))
    /\ NoDup (map index (map fst l))
    /\ parseDepsFromDocument JSON_parse doc
       = (map (entryOf doc) (map fst (List.filter snd l)),
          map (entryOf doc) (map fst (List.filter (fun p => negb (snd p)) l))).
Proof.
  assert (H : exists l : list (Match * bool),
             sublist (map fst l) (scan (getText doc))
             /\ parseDepsFromDocument JSON_parse doc
                = (map (entryOf doc) (map fst (List.filter snd l)),
                   map (entryOf doc) (map fst (List.filter (fun p => negb (snd p)) l)))).
  { unfold parseDepsFromDocument.
    assert (Hnone : exists l : list (Match * bool),
               sublist (map fst l) (scan (getText doc))
               /\ (@nil DepEntry, @nil DepEntry)
                  = (map (entryOf doc) (map fst (List.filter snd l)),
                     map (entryOf doc)
                       (map fst (List.filter (fun p => negb (snd p)) l)))).
    { exists []. split; [apply sublist_nil_l|reflexivity]. }
    destruct (JSON_parse (getText doc)) as [json|]; [|exact Hnone].
    destruct (get_field (Json json) "dependencies") as [d|]; [|exact Hnone].
    destruct (get_field (Json json) "devDependencies") as [v|]; [|exact Hnone].
    apply (collect_tagged doc _ _ (scan (getText doc)) [] []). }
  destruct H as (l & Hsub & Heq). exists l. split; [exact Hsub|]. split; [|exact Heq].
  apply (sublist_NoDup _ (map index (scan (getText doc))));
    [|apply (fmap_sublist index), Hsub].
  apply (spaced_NoDup (getText doc)), (exec_all_spaced (getText doc) 0 (getText doc) 0).
  reflexivity.
Qed.

(** X8: every entry the parser records, for any manifest, has a name and
    a version that are not empty, so the spec built from it is not empty
    (the resolver's guard for an empty name never fires on it); its range
    is empty and sits on a line of the document. *)
Theorem parseDeps_entry_wellformed (JSON_parse : string -> option JSON)
    (doc : TextDocument) (d : DepEntry) :
  In d (fst (parseDepsFromDocument JSON_parse doc)
        ++ snd (parseDepsFromDocument JSON_parse doc)) ->
  name d <> "" /\ version d <> "" /\ specOf d <> ""
  /\ range_start (range d) = range_end (range d)
  /\ (line (range_end (range d)) < length (lines doc))%nat.
Proof.
  destruct (parseDeps_matches JSON_parse doc) as (ms1 & ms2 & -> & H1 & H2 & _).
  cbn [fst snd]. rewrite <- map_app. intros Hin.
  apply in_map_iff in Hin as (m & <- & Hm).
  assert (Hscan : In m (scan (getText doc))).
  { apply in_app_or in Hm as [Hm|Hm]; eauto using sublist_In. }
  apply scan_sound in Hscan as [Hlt (w1 & w2 & rest & _ & Hk & _)].
  assert (Hv : version (entryOf doc m) <> "").
  { cbn [entryOf version]. destruct (String.eqb (group2 m) "") eqn:E; [discriminate|].
    now apply String.eqb_neq. }
  repeat split; try assumption.
  - unfold specOf. cbn [entryOf name] in *.
    destruct (_ && _); [|exact Hk].
    destruct (group1 m); [congruence|discriminate].
  - apply (positionAt_line_holds doc (index m) Hlt).
Qed.

Lemma parseDeps_entry_wellformed_witness :
  name sample_babel_entry <> "" /\ specOf sample_babel_entry <> "".
Proof.
  destruct (parseDeps_entry_wellformed RefJSON.parse sample_manifest sample_babel_entry)
    as (Hn & _ & Hs & _); [vm_compute; auto|]. split; assumption.
Defined.

Lemma collect_abort_dev (doc : TextDocument) (D : list (string * JSON)) (v : Value)
    (ms : list Match) (deps devDeps : list DepEntry) :
  (forall k, has_property v k = None) ->
  collect doc (Json (JObj D)) v ms deps devDeps
  = (deps ++ map (entryOf doc) (while_true (fun m => name_in D (group1 m)) ms), devDeps).
Proof.
  intros Hv. revert deps. induction ms as [|m ms IH]; intros deps.
  - cbn. now rewrite app_nil_r.
  - cbn [collect while_true]. rewrite has_property_object.
    destruct (name_in D (group1 m)).
    + rewrite IH. cbn [map]. now rewrite <- app_assoc.
    + rewrite Hv. cbn. now rewrite app_nil_r.
Qed.

Lemma not_object_throws (v : Value) :
  truthy v = true -> typeof_object v = false ->
  or_empty_object v = v /\ forall k, has_property v k = None.
Proof.
  intros Ht Ho. unfold or_empty_object. rewrite Ht. split; [reflexivity|].
  intros k. destruct v as [|[|b|n|s|l|ms]|]; try discriminate; reflexivity.
Qed.

(** X9: when [devDependencies] holds a number, a string or [true], the
    scan stops at the first pair whose key is not among the dependencies
    (the test on the development dependencies throws there): the result
    keeps the entries of the pairs before it and has no development
    entry. *)
Theorem parseDeps_bad_devDependencies (JSON_parse : string -> option JSON)
    (doc : TextDocument) (json : JSON) (D : list (string * JSON)) (v : Value) :
  JSON_parse (getText doc) = Some json ->
  declared json "dependencies" = Some D ->
  get_field (Json json) "devDependencies" = Some v ->
  truthy v = true -> typeof_object v = false ->
  parseDepsFromDocument JSON_parse doc
  = (map (entryOf doc)
       (while_true (fun m => name_in D (group1 m)) (scan (getText doc))), []).
Proof.
  intros Hp HD Hv Ht Ho. unfold parseDepsFromDocument. rewrite Hp.
  apply declared_or_empty in HD as (d & -> & ->). rewrite Hv.
  destruct (not_object_throws v Ht Ho) as [-> Hthrow].
  now rewrite collect_abort_dev.
Qed.

Lemma parseDeps_bad_devDependencies_witness :
  parseDepsFromDocument RefJSON.parse sample_bad_dev = ([], []).
Proof.
  rewrite (parseDeps_bad_devDependencies RefJSON.parse sample_bad_dev
             sample_bad_dev_json [("lodash", JStr "4.17.21")] (Json (JNum 7)));
    reflexivity.
Defined.

(** X10: when [dependencies] holds a number, a string or [true], a
    manifest with at least one pair gets no entry at all, whatever its
    development dependencies are. *)
Theorem parseDeps_bad_dependencies (JSON_parse : string -> option JSON)
    (doc : TextDocument) (json : JSON) (d : Value) :
  JSON_parse (getText doc) = Some json ->
  get_field (Json json) "dependencies" = Some d ->
  truthy d = true -> typeof_object d = false ->
  parseDepsFromDocument JSON_parse doc = ([], []).
Proof.
  intros Hp Hd Ht Ho. unfold parseDepsFromDocument. rewrite Hp, Hd.
  destruct (not_object_throws d Ht Ho) as [-> Hthrow].
  destruct (get_field (Json json) "devDependencies"); [|reflexivity].
  destruct (scan (getText doc)) as [|m ms]; [reflexivity|].
  cbn [collect]. now rewrite Hthrow.
Qed.

Lemma parseDeps_bad_dependencies_witness :
  parseDepsFromDocument (fun _ => Some (JObj [("dependencies", JStr "none")]))
    sample_manifest = ([], []).
Proof.
  apply (parseDeps_bad_dependencies _ sample_manifest
           (JObj [("dependencies", JStr "none")]) (Json (JStr "none")));
    reflexivity.
Defined.

Lemma name_in_inherited (D : list (string * JSON)) (k : string) :
  mem k Object_prototype_keys = true -> name_in D k = true.
Proof.
  intros H. unfold name_in, get_computed.
  destruct (member k D); [reflexivity|]. now rewrite H.
Qed.

(** X11: the membership test follows the prototype chain, so a pair of the
    text whose key is a name every object inherits ([constructor],
    [toString], ...) is recorded as a dependency, wherever it stands and
    whatever the manifest declares. *)
Theorem parseDeps_inherited_names (JSON_parse : string -> option JSON)
    (doc : TextDocument) (json : JSON) (D V : list (string * JSON)) (m : Match) :
  JSON_parse (getText doc) = Some json ->
  declared json "dependencies" = Some D ->
  declared json "devDependencies" = Some V ->
  In m (scan (getText doc)) ->
  mem (group1 m) Object_prototype_keys = true ->
  In (entryOf doc m) (fst (parseDepsFromDocument JSON_parse doc)).
Proof.
  intros Hp HD HV Hm Hk. unfold parseDepsFromDocument. rewrite Hp.
  apply declared_or_empty in HD as (d & -> & ->).
  apply declared_or_empty in HV as (v & -> & ->).
  rewrite collect_objects. cbn [fst app].
  apply in_map. apply filter_In. split; [exact Hm|].
  now apply name_in_inherited.
Qed.

Lemma parseDeps_inherited_names_witness :
  In (entryOf sample_inherited {| index := 35; group1 := "toString"; group2 := "echo" |})
     (fst (parseDepsFromDocument RefJSON.parse sample_inherited)).
Proof.
  apply (parseDeps_inherited_names RefJSON.parse sample_inherited
           sample_inherited_json [] []);
    [reflexivity|reflexivity|reflexivity|vm_compute; auto|reflexivity].
Defined.

(** ** Recognising a manifest *)

Lemma toLowerCase_app (s t : string) :
  toLowerCase (s +:+ t) = toLowerCase s +:+ toLowerCase t.
Proof.
  induction s as [|a s IH]; [reflexivity|].
  rewrite StrFacts.app_cons. cbn [toLowerCase]. rewrite StrFacts.app_cons.
  now rewrite IH.
Qed.

Lemma toLowerCase_length (s : string) :
  String.length (toLowerCase s) = String.length s.
Proof. induction s as [|a s IH]; [reflexivity|]. cbn. now rewrite IH. Qed.

Lemma toLowerCase_drop (n : nat) (s : string) :
  toLowerCase (Str.drop n s) = Str.drop n (toLowerCase s).
Proof.
  revert s. induction n as [|n IH]; intros [|a s]; try reflexivity.
  cbn. apply IH.
Qed.

Lemma take_drop (n : nat) (s : string) : Str.take n s +:+ Str.drop n s = s.
Proof.
  revert s. induction n as [|n IH]; intros [|a s]; try reflexivity.
  cbn [Str.take Str.drop]. rewrite StrFacts.app_cons. now rewrite IH.
Qed.

(** X12: a document counts as a manifest exactly when its path, split
    somewhere, ends in a part that reads [package.json] once lowered, or
    its file name as a whole does; so [Package.JSON] and
    [my-package.json] count as well. *)
Theorem isPackageJson_iff (doc : TextDocument) :
  isPackageJson doc = true <->
  (exists dir file, fsPath doc = dir +:+ file /\ toLowerCase file = PACKAGE_JSON)
  \/ toLowerCase (fileName doc) = PACKAGE_JSON.
Proof.
  unfold isPackageJson. rewrite orb_true_iff, String.eqb_eq.
  apply or_iff_compat_r. unfold Str.endsWith.
  rewrite toLowerCase_length. split.
  - destruct (Nat.ltb_spec (String.length (fsPath doc)) (String.length PACKAGE_JSON))
      as [Hlt|Hge]; [discriminate|].
    intros H. apply String.eqb_eq in H.
    exists (Str.take (String.length (fsPath doc) - String.length PACKAGE_JSON) (fsPath doc)),
           (Str.drop (String.length (fsPath doc) - String.length PACKAGE_JSON) (fsPath doc)).
    split; [now rewrite take_drop|]. now rewrite toLowerCase_drop.
  - intros (dir & file & -> & Hf).
    assert (Hl : String.length file = String.length PACKAGE_JSON).
    { now rewrite <- Hf, toLowerCase_length. }
    rewrite StrFacts.length_app, Hl.
    destruct (Nat.ltb_spec (String.length dir + String.length PACKAGE_JSON)
                (String.length PACKAGE_JSON)) as [Hlt|Hge]; [lia|].
    apply String.eqb_eq. rewrite toLowerCase_app, Hf.
    replace (String.length dir + String.length PACKAGE_JSON - String.length PACKAGE_JSON)%nat
      with (String.length (toLowerCase dir)) by (rewrite toLowerCase_length; lia).
    apply StrFacts.drop_app_length.
Qed.

(** ** The state of the extension over a run *)

Lemma created_app (ops1 ops2 : list Effect) :
  created (ops1 ++ ops2) = created ops1 ++ created ops2.
Proof. apply omap_app. Qed.

Lemma keeps_refl (st : State) : keeps st st [].
Proof. unfold keeps. cbn. rewrite app_nil_r. auto. Qed.

Lemma keeps_trans (st st1 st2 : State) (ops1 ops2 : list Effect) :
  keeps st st1 ops1 -> keeps st1 st2 ops2 -> keeps st st2 (ops1 ++ ops2).
Proof.
  intros (Hc1 & Hn1 & Hs1 & Hl1) (Hc2 & Hn2 & Hs2 & Hl2). repeat split; auto.
  now rewrite Hc2, Hc1, created_app, app_assoc.
Qed.

Lemma keeps_with_timeout (st : State) (t : option nat) : keeps st (with_timeout st t) [].
Proof. unfold keeps. cbn. rewrite app_nil_r. auto. Qed.

Lemma keeps_after_timeout (st st' : State) (t : option nat) (ops : list Effect) :
  keeps (with_timeout st t) st' ops -> keeps st st' ops.
Proof.
  intros H. apply (keeps_trans st (with_timeout st t) st' [] ops);
    [apply keeps_with_timeout|exact H].
Qed.

Lemma painted_set (st : State) (ed : nat) (k : string) (rs : list Range)
    (ed' : nat) (t : string) :
  painted (setDecorations st ed k rs) ed' t
  = if bool_decide ((ed, k) = (ed', t)) then rs else painted st ed' t.
Proof.
  unfold painted, setDecorations. cbn [decorations].
  case_bool_decide as E.
  - rewrite E. now rewrite lookup_insert_eq.
  - now rewrite lookup_insert_ne.
Qed.

Lemma labels_typed_set (st : State) (ed : nat) (k : string) (rs : list Range) :
  mem k (decorationTypeCache st) = true \/ rs = [] ->
  labels_typed st -> labels_typed (setDecorations st ed k rs).
Proof.
  intros Hk Hl ed' t. rewrite painted_set. cbn [setDecorations decorationTypeCache].
  case_bool_decide as E; [|apply Hl].
  injection E as _ <-. destruct Hk as [Hk| ->]; [auto|congruence].
Qed.

Lemma created_lookups (ops : list Effect) :
  List.filter (fun e => negb (is_lookup e)) ops = [] -> created ops = [].
Proof.
  induction ops as [|e ops IH]; [reflexivity|]. cbn [List.filter].
  destruct e; cbn [is_lookup negb]; try discriminate; exact IH.
Qed.

(** The paint loop. *)
Lemma paint_groups_keeps (ed : nat) (groups : list (string * list Range)) (st : State) :
  keeps st (fst (paint_groups ed groups st)) (snd (paint_groups ed groups st))
  /\ sizeCache (fst (paint_groups ed groups st)) = sizeCache st
  /\ timeout (fst (paint_groups ed groups st)) = timeout st
  /\ (forall ed' t, ed' <> ed ->
        painted (fst (paint_groups ed groups st)) ed' t = painted st ed' t)
  /\ List.filter is_lookup (snd (paint_groups ed groups st)) = [].
Proof.
  revert st. induction groups as [|[k rs] groups IH]; intros st.
  - cbn. split; [apply keeps_refl|auto].
  - cbn [paint_groups].
    destruct (getDecorationType st k) as [st1 ops1] eqn:Eg.
    assert (H1 : keeps st st1 ops1 /\ sizeCache st1 = sizeCache st
                 /\ timeout st1 = timeout st /\ decorations st1 = decorations st
                 /\ mem k (decorationTypeCache st1) = true
                 /\ List.filter is_lookup ops1 = []).
    { unfold getDecorationType in Eg.
      destruct (mem k (decorationTypeCache st)) eqn:Ek; injection Eg as <- <-.
      - split; [apply keeps_refl|auto].
      - unfold keeps. cbn [decorationTypeCache sizeCache timeout decorations].
        change (created [ECreateType k]) with [k].
        repeat split; auto.
        + intros Hnd. apply NoDup_app. repeat split; [exact Hnd| |apply NoDup_singleton].
          intros x Hx Hx'. apply list_elem_of_singleton in Hx' as ->.
          apply list_elem_of_In, mem_In in Hx. congruence.
        + intros Hl ed' t Hp. cbn [decorationTypeCache].
          rewrite mem_app. rewrite (Hl ed' t Hp). reflexivity.
        + rewrite mem_app, mem_cons, String.eqb_refl. apply orb_true_r. }
    destruct H1 as (Hk1 & Hs1 & Ht1 & Hd1 & Hm1 & Hf1).
    set (st2 := setDecorations st1 ed k rs).
    destruct (IH st2) as (Hk3 & Hs3 & Ht3 & Hp3 & Hf3).
    destruct (paint_groups ed groups st2) as [st3 ops3]. cbn [fst snd] in *.
    assert (Hk2 : keeps st1 st2 [ESetDecorations ed k rs]).
    { unfold keeps. cbn. rewrite app_nil_r. repeat split; auto.
      apply labels_typed_set. now left. }
    split; [|split; [|split; [|split]]].
    + apply (keeps_trans st st1 st3); [exact Hk1|].
      apply (keeps_trans st1 st2 st3 [_] ops3); assumption.
    + now rewrite Hs3.
    + now rewrite Ht3.
    + intros ed' t Hne. rewrite Hp3 by exact Hne. subst st2. rewrite painted_set.
      case_bool_decide as E; [congruence|]. unfold painted. now rewrite Hd1.
    + rewrite List.filter_app, Hf1. cbn [List.filter is_lookup app]. exact Hf3.
Qed.

(** The clear loop. *)
Lemma clear_unused_keeps (ed : nat) (used types : list string) (st : State) :
  keeps st (fst (clear_unused ed used types st)) (snd (clear_unused ed used types st))
  /\ timeout (fst (clear_unused ed used types st)) = timeout st
  /\ (forall ed' t, ed' <> ed ->
        painted (fst (clear_unused ed used types st)) ed' t = painted st ed' t)
  /\ List.filter is_lookup (snd (clear_unused ed used types st)) = [].
Proof.
  revert st. induction types as [|k types IH]; intros st.
  - cbn. split; [apply keeps_refl|auto].
  - cbn [clear_unused]. destruct (mem k used); [apply IH|].
    set (st1 := setDecorations st ed k []).
    destruct (IH st1) as (Hk & Ht & Hp & Hf).
    destruct (clear_unused ed used types st1) as [st' ops]. cbn [fst snd] in *.
    assert (Hk1 : keeps st st1 [ESetDecorations ed k []]).
    { unfold keeps. cbn. rewrite app_nil_r. repeat split; auto.
      apply labels_typed_set. now right. }
    split; [|split; [|split]].
    + apply (keeps_trans st st1 st' [_] ops); assumption.
    + now rewrite Ht.
    + intros ed' t Hne. rewrite Hp by exact Hne. subst st1. rewrite painted_set.
      case_bool_decide as E; [congruence|reflexivity].
    + exact Hf.
Qed.

Lemma updateDecorations_keeps (env : Env) (st : State) (editor : TextEditor) :
  keeps st (fst (updateDecorations env st editor)) (snd (updateDecorations env st editor))
  /\ timeout (fst (updateDecorations env st editor)) = timeout st
  /\ (forall ed' t, ed' <> editorId editor ->
        painted (fst (updateDecorations env st editor)) ed' t = painted st ed' t).
Proof.
  unfold updateDecorations.
  destruct (negb (enabled env)); [split; [apply keeps_refl|auto]|].
  destruct (negb (isPackageJson (document editor))); [split; [apply keeps_refl|auto]|].
  destruct (parseDepsFromDocument (JSON_parse env) (document editor)) as [deps devDeps].
  destruct (Nat.eqb (length (deps ++ devDeps)) 0).
  { cbn [fst snd]. split; [|auto]. apply (keeps_trans st st st [EParse] []); apply keeps_refl
      || (unfold keeps; cbn; rewrite app_nil_r; auto). }
  set (docDir := path_dirname (fsPath (document editor))).
  destruct (resolveAll_spec docDir env (sizeCache st) (deps ++ devDeps))
    as (cache & Hres & Hmono).
  rewrite Hres.
  set (groups := bySize _ _).
  set (st0 := with_sizeCache st cache).
  destruct (paint_groups_keeps (editorId editor) groups st0) as (Hk1 & Hs1 & Ht1 & Hp1 & _).
  destruct (paint_groups (editorId editor) groups st0) as [st1 ops1]. cbn [fst snd] in *.
  destruct (clear_unused_keeps (editorId editor) (map fst groups)
              (decorationTypeCache st1) st1) as (Hk2 & Ht2 & Hp2 & _).
  destruct (clear_unused (editorId editor) (map fst groups) (decorationTypeCache st1) st1)
    as [st2 ops2]. cbn [fst snd] in *.
  set (lookups := pass_ops _ _ _).
  assert (Hk0 : keeps st st0 (EParse :: lookups)).
  { unfold keeps. change (created (EParse :: lookups)) with (created lookups).
    rewrite (created_lookups lookups) by apply pass_ops_lookups.
    cbn [with_sizeCache decorationTypeCache sizeCache]. rewrite app_nil_r.
    repeat split; auto. }
  split; [|split].
  - change (EParse :: lookups ++ ops1 ++ ops2) with ((EParse :: lookups) ++ ops1 ++ ops2).
    apply (keeps_trans st st0 st2); [exact Hk0|].
    apply (keeps_trans st0 st1 st2); assumption.
  - now rewrite Ht2, Ht1.
  - intros ed' t Hne. now rewrite Hp2, Hp1.
Qed.

Lemma clearAllDecorations_keeps (st : State) (ed : nat) :
  keeps st (fst (clearAllDecorations st ed)) (snd (clearAllDecorations st ed))
  /\ timeout (fst (clearAllDecorations st ed)) = timeout st.
Proof.
  destruct (clear_unused_keeps ed [] (decorationTypeCache st) st) as (Hk & Ht & _).
  split; assumption.
Qed.

Lemma triggerUpdate_keeps (env : Env) (st : State) (editor : option TextEditor)
    (throttle : bool) :
  keeps st (fst (triggerUpdate env st editor throttle))
        (snd (triggerUpdate env st editor throttle)).
Proof.
  unfold triggerUpdate. destruct editor as [ed|]; [|apply keeps_with_timeout].
  destruct (negb (isPackageJson (document ed))).
  - apply (keeps_after_timeout _ _ None), clearAllDecorations_keeps.
  - destruct throttle;
      [apply (keeps_after_timeout _ _ None), keeps_with_timeout|].
    apply (keeps_after_timeout _ _ None), updateDecorations_keeps.
Qed.

Lemma handle_keeps (env : Env) (st : State) (ev : Event) :
  keeps st (fst (handle env st ev)) (snd (handle env st ev)).
Proof.
  destruct ev as [[ed|]|ed|ed|doc]; cbn [handle].
  - destruct (isPackageJson (document ed));
      [apply triggerUpdate_keeps|apply clearAllDecorations_keeps].
  - apply keeps_refl.
  - apply triggerUpdate_keeps.
  - destruct (isPackageJson (document ed)); [apply triggerUpdate_keeps|apply keeps_refl].
  - destruct (timeout st) as [ed|]; [|apply keeps_refl].
    apply (keeps_after_timeout _ _ None), updateDecorations_keeps.
Qed.

Lemma run_keeps (evs : list (Env * Event)) (st : State) :
  keeps st (fst (run st evs)) (snd (run st evs)).
Proof.
  revert st. induction evs as [|[env ev] evs IH]; intros st; [apply keeps_refl|].
  cbn [run]. pose proof (handle_keeps env st ev) as H1.
  destruct (handle env st ev) as [st1 ops1].
  pose proof (IH st1) as H2. destruct (run st1 evs) as [st2 ops2]. cbn [fst snd] in *.
  now apply (keeps_trans st st1 st2).
Qed.

(** X13: over any run of the extension the cache of decoration types
    grows by exactly the types the run creates, and holds no size text
    twice: a decoration type is created at most once per label, and never
    for a label that has one. *)
Theorem types_created_once (st : State) (evs : list (Env * Event)) :
  NoDup (decorationTypeCache st) ->
  decorationTypeCache (fst (run st evs))
  = decorationTypeCache st ++ created (snd (run st evs))
  /\ NoDup (decorationTypeCache st ++ created (snd (run st evs))).
Proof.
  intros Hnd. destruct (run_keeps evs st) as (Hc & Hn & _).
  split; [exact Hc|]. rewrite <- Hc. auto.
Qed.

Lemma types_created_once_witness :
  created (snd (run initial_state sample_opening)) = ["1.4 MB"; "2.0 kB"; UNKNOWN]
  /\ NoDup (decorationTypeCache initial_state
            ++ created (snd (run initial_state sample_opening))).
Proof.
  split; [vm_compute; reflexivity|].
  apply (types_created_once initial_state sample_opening). apply NoDup_nil_2.
Defined.

Lemma cached_sizes_persist_aux (st : State) (evs : list (Env * Event)) (k v : string) :
  sizeCache st !! k = Some v ->
  sizeCache (fst (run st evs)) !! k = Some v.
Proof. intros H. destruct (run_keeps evs st) as (_ & _ & Hs & _). auto. Qed.

(** X14: a size cached for a key, with no resolver of that key in flight,
    stays as it is whatever resolvers are called and answered, in whatever
    order and with whatever answers: every resolver called for the key
    returns the size at once, without a call, none of that key gets in
    flight, and the resolvers of other keys write under their own keys. *)
Theorem cached_sizes_persist (key label : string) (cache : gmap string string)
    (flights : list InFlight) (acts : list Action) :
  cache !! key = Some label ->
  none_in_flight key flights ->
  let '(cache', flights', outs) := interleave cache flights acts in
  cache' !! key = Some label
  /\ none_in_flight key flights'
  /\ Forall2 (served key label) acts outs.
Proof.
  intros Hkey Hfl.
  pose proof (interleave_keeps key label acts cache flights Hkey Hfl) as H.
  now destruct (interleave cache flights acts) as [[cache' flights'] outs].
Qed.

Lemma cached_sizes_persist_witness :
  let '(cache', flights', outs) :=
    interleave (<["lodash@^4.17.0" := "9 B"]> ∅) []
      [Called "/proj" sample_left_pad; Called "/proj" sample_lodash;
       Settled 0 sample_env; Called "/proj" sample_lodash] in
  cache' !! "lodash@^4.17.0" = Some "9 B"
  /\ map fst outs = [None; Some "9 B"; Some "2.0 kB"; Some "9 B"].
Proof.
  pose proof (cached_sizes_persist "lodash@^4.17.0" "9 B" (<["lodash@^4.17.0" := "9 B"]> ∅) []
                [Called "/proj" sample_left_pad; Called "/proj" sample_lodash;
                 Settled 0 sample_env; Called "/proj" sample_lodash]
                (lookup_insert_eq _ _ _)) as H.
  destruct (interleave _ _ _) as [[cache' flights'] outs] eqn:E.
  split.
  - apply H. constructor.
  - vm_compute in E. now injection E as _ _ <-.
Defined.

Lemma labels_typed_initial : labels_typed initial_state.
Proof. intros ed t H. exfalso. apply H. unfold painted. cbn. now rewrite lookup_empty. Qed.

(** X15: when every label shown has its type in the cache, as at
    activation, this stays so over any run; deactivation then leaves no
    label in any editor and empties both caches. *)
Theorem deactivate_clears_labels (st : State) (evs : list (Env * Event)) :
  labels_typed st ->
  let st' := fst (run st evs) in
  labels_typed st'
  /\ (forall ed t, painted (deactivate st') ed t = [])
  /\ sizeCache (deactivate st') = ∅ /\ decorationTypeCache (deactivate st') = [].
Proof.
  intros Hl. destruct (run_keeps evs st) as (_ & _ & _ & Hl').
  specialize (Hl' Hl). cbn zeta. split; [exact Hl'|]. split; [|split; reflexivity].
  intros ed t. unfold painted at 1, deactivate. cbn [decorations].
  destruct (filter _ _ !! (ed, t)) as [rs|] eqn:E; [|reflexivity].
  apply map_lookup_filter_Some in E as [E Hf]. cbn [fst snd] in Hf.
  destruct rs as [|r rs]; [reflexivity|].
  assert (Hm : mem t (decorationTypeCache (fst (run st evs))) = true).
  { apply (Hl' ed t). unfold painted. rewrite E. discriminate. }
  rewrite Hm in Hf. destruct Hf.
Qed.

Lemma deactivate_clears_labels_witness :
  painted (fst (run initial_state sample_opening)) 1 "2.0 kB" <> []
  /\ painted (deactivate (fst (run initial_state sample_opening))) 1 "2.0 kB" = [].
Proof.
  split; [vm_compute; discriminate|].
  apply (deactivate_clears_labels initial_state sample_opening labels_typed_initial).
Defined.

Lemma handle_edit (env : Env) (st : State) (ed : TextEditor) :
  isPackageJson (document ed) = true ->
  handle env st (TextChanged ed) = (with_timeout st (Some (editorId ed)), []).
Proof. intros H. cbn [handle]. unfold triggerUpdate. now rewrite H. Qed.

(** X16: a burst of edits of the manifest gives one update: when nothing
    but edits arrives before the timer fires, the run is the single update
    of the editor of the last edit, on the document as it is then, and
    nothing is parsed, looked up or painted before. *)
Theorem edits_debounced (evs : list (Env * Event)) (st : State) (env' env : Env)
    (ed : TextEditor) (doc : TextDocument) :
  Forall manifest_edit evs ->
  isPackageJson (document ed) = true ->
  run st (evs ++ [(env', TextChanged ed); (env, TimerFired doc)])
  = updateDecorations env (with_timeout st None)
      {| editorId := editorId ed; document := doc |}.
Proof.
  intros Hevs Hed. revert st. induction Hevs as [|[env0 ev0] evs (ed0 & Hev & H0) _ IH];
    intros st.
  - cbn [app run]. rewrite (handle_edit env' st ed Hed). cbn [handle timeout with_timeout].
    change (with_timeout (with_timeout st (Some (editorId ed))) None)
      with (with_timeout st None).
    destruct (updateDecorations _ _ _) as [st' ops]. cbn. now rewrite app_nil_r.
  - cbn [snd] in Hev. subst ev0. rewrite <- app_comm_cons. cbn [run].
    rewrite (handle_edit env0 st ed0 H0). rewrite IH.
    change (with_timeout (with_timeout st (Some (editorId ed0))) None)
      with (with_timeout st None).
    now destruct (updateDecorations _ _ _) as [st' ops].
Qed.

Lemma edits_debounced_witness :
  run initial_state
      ([(sample_env, TextChanged sample_editor)]
       ++ [(sample_env, TextChanged sample_editor); (sample_env, TimerFired sample_manifest)])
  = updateDecorations sample_env (with_timeout initial_state None)
      {| editorId := editorId sample_editor; document := sample_manifest |}.
Proof.
  apply (edits_debounced [(sample_env, TextChanged sample_editor)]);
    [|reflexivity].
  constructor; [|constructor]. exists sample_editor. split; reflexivity.
Defined.

(** X17: a change of the active editor cancels the pending update exactly
    when the new editor shows a manifest; the change to another file, or
    to no editor, leaves the timer running, and the update it fires still
    goes to the editor that was edited. *)
Theorem editor_change_timer (env : Env) (st : State) (editor : option TextEditor) :
  timeout (fst (handle env st (ActiveEditorChanged editor)))
  = match editor with
    | Some ed => if isPackageJson (document ed) then None else timeout st
    | None => timeout st
    end.
Proof.
  destruct editor as [ed|]; [|reflexivity]. cbn [handle].
  destruct (isPackageJson (document ed)) eqn:E.
  - unfold triggerUpdate. rewrite E. cbn [negb].
    now destruct (updateDecorations_keeps env (with_timeout st None) ed) as (_ & -> & _).
  - now destruct (clearAllDecorations_keeps st (editorId ed)) as (_ & ->).
Qed.

(** X18: an update paints its own editor only: the labels every other
    editor shows stay as they are, also those of another editor on the
    same manifest. *)
Theorem updateDecorations_other_editors (env : Env) (st : State) (editor : TextEditor)
    (ed' : nat) (t : string) :
  ed' <> editorId editor ->
  painted (fst (updateDecorations env st editor)) ed' t = painted st ed' t.
Proof.
  intros Hne. destruct (updateDecorations_keeps env st editor) as (_ & _ & Hp). auto.
Qed.

Lemma updateDecorations_other_editors_witness :
  painted (fst (updateDecorations sample_env
                  (fst (updateDecorations sample_env initial_state sample_editor))
                  {| editorId := 2; document := sample_emptied |})) 1 "2.0 kB"
  = painted (fst (updateDecorations sample_env initial_state sample_editor)) 1 "2.0 kB".
Proof.
  apply (updateDecorations_other_editors sample_env
           (fst (updateDecorations sample_env initial_state sample_editor))
           {| editorId := 2; document := sample_emptied |} 1 "2.0 kB").
  cbn. lia.
Defined.

(** X19: when every label shown has its type in the cache, the change to
    an editor that shows no manifest leaves that editor without any label:
    one empty call per cached type, and no lookup. *)
Theorem leaving_manifest_clears (env : Env) (st : State) (ed : TextEditor) :
  labels_typed st ->
  isPackageJson (document ed) = false ->
  let r := handle env st (ActiveEditorChanged (Some ed)) in
  (forall t, painted (fst r) (editorId ed) t = [])
  /\ setDecorations_calls (snd r)
     = map (fun t => (editorId ed, t, [])) (decorationTypeCache st)
  /\ List.filter is_lookup (snd r) = []
  /\ sizeCache (fst r) = sizeCache st.
Proof.
  intros Hl Hed. cbn [handle]. rewrite Hed. cbn zeta. unfold clearAllDecorations.
  destruct (clear_unused_spec (editorId ed) [] (decorationTypeCache st) st)
    as (_ & Hs & Hcalls & Hp).
  destruct (clear_unused_keeps (editorId ed) [] (decorationTypeCache st) st)
    as (_ & _ & _ & Hf).
  split; [|split; [|split]]; try assumption.
  - intros t. rewrite Hp. cbn [mem negb]. rewrite andb_true_r.
    destruct (mem t (decorationTypeCache st)) eqn:Em; [reflexivity|].
    destruct (painted st (editorId ed) t) as [|r rs] eqn:E; [reflexivity|].
    rewrite (Hl (editorId ed) t) in Em; [discriminate|]. rewrite E. discriminate.
  - rewrite Hcalls. f_equal. clear. induction (decorationTypeCache st) as [|x l IH];
      [reflexivity|]. cbn [List.filter mem negb]. now rewrite IH.
Qed.

Lemma leaving_manifest_clears_witness :
  painted sample_painted 1 "2.0 kB" <> []
  /\ decorationTypeCache sample_painted = ["1.4 MB"; "2.0 kB"; UNKNOWN]
  /\ painted (fst (handle sample_env sample_painted (ActiveEditorChanged (Some sample_left))))
             (editorId sample_left) "2.0 kB" = []
  /\ length (setDecorations_calls
               (snd (handle sample_env sample_painted
                       (ActiveEditorChanged (Some sample_left))))) = 3%nat.
Proof.
  split; [vm_compute; discriminate|]. split; [vm_compute; reflexivity|].
  assert (Hl : labels_typed sample_painted).
  { apply (run_keeps sample_opening initial_state), labels_typed_initial. }
  destruct (leaving_manifest_clears sample_env sample_painted sample_left Hl eq_refl)
    as (Hp & Hcalls & _).
  split; [apply Hp|]. rewrite Hcalls. vm_compute. reflexivity.
Defined.

(** ** A pass leaves every key cached *)

Section Cached.

Variable docDir : string.

Lemma resolve_begin_caches (c c1 : gmap string string) (d : DepEntry) (s : Started) :
  resolve_begin docDir c d = (c1, s) ->
  (forall k, is_Some (c !! k) -> is_Some (c1 !! k)) /\ returned_cached docDir c1 d s.
Proof.
  destruct (c !! cacheKeyOf docDir d) as [v|] eqn:E.
  - rewrite (resolve_begin_hit docDir c d v E). intros [= <- <-].
    split; [auto|]. cbn. rewrite E. eauto.
  - rewrite (resolve_begin_miss docDir c d E).
    destruct (_ || _); intros [= <- <-]; [split; [auto|exact I]|].
    split.
    + intros k Hk. destruct (decide (k = cacheKeyOf docDir d)) as [->|Hne].
      * rewrite lookup_insert_eq. eauto.
      * now rewrite lookup_insert_ne.
    + cbn. rewrite lookup_insert_eq. eauto.
Qed.

Lemma returned_cached_mono (c c1 : gmap string string) (d : DepEntry) (s : Started) :
  (forall k, is_Some (c !! k) -> is_Some (c1 !! k)) ->
  returned_cached docDir c d s -> returned_cached docDir c1 d s.
Proof. intros Hm. destruct s; cbn; auto. Qed.

Lemma begin_all_caches (all : list DepEntry) (c c1 : gmap string string)
    (ss : list Started) :
  begin_all docDir c all = (c1, ss) ->
  (forall k, is_Some (c !! k) -> is_Some (c1 !! k))
  /\ Forall2 (returned_cached docDir c1) all ss.
Proof.
  revert c c1 ss. induction all as [|d all IH]; intros c c1 ss; cbn [begin_all].
  - intros [= <- <-]. split; [auto|constructor].
  - destruct (resolve_begin docDir c d) as [c0 s] eqn:E1.
    destruct (begin_all docDir c0 all) as [c2 ss'] eqn:E2. intros [= <- <-].
    apply resolve_begin_caches in E1 as [Hm1 Hs].
    apply IH in E2 as [Hm2 Hall].
    split; [auto|]. constructor; [|exact Hall].
    now apply (returned_cached_mono c0).
Qed.

Lemma resume_all_caches (env : Env) (all : list DepEntry) (ss : list Started)
    (c : gmap string string) :
  Forall2 (returned_cached docDir c) all ss ->
  (forall k, is_Some (c !! k) -> is_Some ((resume_all env docDir c all ss).1.1 !! k))
  /\ forall d, In d all ->
       is_Some ((resume_all env docDir c all ss).1.1 !! cacheKeyOf docDir d).
Proof.
  revert ss c. induction all as [|d all IH]; intros ss c Hall.
  - inversion Hall; subst. cbn. split; [auto|intros d []].
  - inversion Hall as [|d' s all' ss' Hs Hrest]; subst. cbn [resume_all].
    destruct s as [text|call].
    + destruct (IH ss' c Hrest) as [Hm Hin].
      destruct (resume_all env docDir c all ss') as [[c' sizes] ops]. cbn [fst] in *.
      split; [exact Hm|]. intros d0 [<-|H0]; [apply Hm, Hs|now apply Hin].
    + destruct (resolve_resume_stores docDir env c d call) as (text & ops1 & ->).
      set (c1 := <[cacheKeyOf docDir d := text]> c).
      assert (Hm1 : forall k, is_Some (c !! k) -> is_Some (c1 !! k)).
      { intros k Hk. subst c1. destruct (decide (k = cacheKeyOf docDir d)) as [->|Hne].
        - rewrite lookup_insert_eq. eauto.
        - now rewrite lookup_insert_ne. }
      destruct (IH ss' c1) as [Hm Hin].
      { eapply Forall2_impl; [exact Hrest|]. intros d0 s0. now apply returned_cached_mono. }
      destruct (resume_all env docDir c1 all ss') as [[c' sizes] ops]. cbn [fst] in *.
      split; [auto|]. intros d0 [<-|H0]; [|now apply Hin].
      apply Hm. subst c1. rewrite lookup_insert_eq. eauto.
Qed.

Lemma resolveAll_caches (env : Env) (c : gmap string string) (all : list DepEntry)
    (d : DepEntry) :
  In d all -> is_Some ((resolveAll env docDir c all).1.2 !! cacheKeyOf docDir d).
Proof.
  intros Hd. unfold resolveAll.
  destruct (begin_all docDir c all) as [c1 ss] eqn:E1.
  apply begin_all_caches in E1 as [_ Hall].
  destruct (resume_all_caches env all ss c1 Hall) as [_ Hin].
  destruct (resume_all env docDir c1 all ss) as [[c2 sizes] ops]. cbn [fst snd] in *.
  now apply Hin.
Qed.

End Cached.

Lemma updateDecorations_caches (env : Env) (st : State) (editor : TextEditor)
    (d : DepEntry) :
  enabled env = true ->
  isPackageJson (document editor) = true ->
  In d (fst (parseDepsFromDocument (JSON_parse env) (document editor))
        ++ snd (parseDepsFromDocument (JSON_parse env) (document editor))) ->
  is_Some (sizeCache (fst (updateDecorations env st editor))
           !! cacheKeyOf (path_dirname (fsPath (document editor))) d).
Proof.
  intros Hen Hpk. unfold updateDecorations. rewrite Hen, Hpk. cbn [negb].
  destruct (parseDepsFromDocument (JSON_parse env) (document editor)) as [deps devDeps].
  cbn [fst snd]. intros Hd.
  destruct (Nat.eqb_spec (length (deps ++ devDeps)) 0) as [E|_].
  { destruct (deps ++ devDeps); [destruct Hd|discriminate]. }
  set (docDir := path_dirname (fsPath (document editor))).
  pose proof (resolveAll_caches docDir env (sizeCache st) (deps ++ devDeps) d Hd) as Hc.
  destruct (resolveAll env docDir (sizeCache st) (deps ++ devDeps)) as [[sizes cache] ops].
  cbn [fst snd] in Hc.
  set (groups := bySize sizes (deps ++ devDeps)).
  set (st0 := with_sizeCache st cache).
  destruct (paint_groups_keeps (editorId editor) groups st0) as (_ & Hs1 & _).
  destruct (paint_groups (editorId editor) groups st0) as [st1 ops1]. cbn [fst snd] in *.
  destruct (clear_unused_spec (editorId editor) (map fst groups)
              (decorationTypeCache st1) st1) as (_ & Hs2 & _).
  destruct (clear_unused (editorId editor) (map fst groups) (decorationTypeCache st1) st1)
    as [st2 ops2]. cbn [fst snd] in *.
  rewrite Hs2, Hs1. exact Hc.
Qed.

(** X20: after an update of a manifest, a later update of the same
    document makes no registry or file-system call, whatever happened in
    between and whatever the lookups of the first update gave: every size
    comes from the cache. *)
Theorem update_again_no_lookup (env env' : Env) (st : State) (editor : TextEditor)
    (evs : list (Env * Event)) :
  enabled env = true ->
  JSON_parse env' = JSON_parse env ->
  let st1 := fst (updateDecorations env st editor) in
  let st2 := fst (run st1 evs) in
  List.filter is_lookup (snd (updateDecorations env' st2 editor)) = [].
Proof.
  intros Hen Hparse st1 st2.
  assert (Hcached : isPackageJson (document editor) = true ->
            forall d, In d (fst (parseDepsFromDocument (JSON_parse env) (document editor))
                            ++ snd (parseDepsFromDocument (JSON_parse env) (document editor))) ->
            is_Some (sizeCache st2
                     !! cacheKeyOf (path_dirname (fsPath (document editor))) d)).
  { intros Hpk d Hd.
    destruct (updateDecorations_caches env st editor d Hen Hpk Hd) as [v Hv].
    exists v. apply (cached_sizes_persist_aux st1 evs), Hv. }
  clearbody st2. clear st1. unfold updateDecorations. rewrite Hparse.
  destruct (negb (enabled env')); [reflexivity|].
  destruct (isPackageJson (document editor)); [|reflexivity]. cbn [negb].
  specialize (Hcached eq_refl).
  destruct (parseDepsFromDocument (JSON_parse env) (document editor)) as [deps devDeps].
  cbn [fst snd] in Hcached.
  destruct (Nat.eqb (length (deps ++ devDeps)) 0); [reflexivity|].
  set (docDir := path_dirname (fsPath (document editor))) in *.
  destruct (resolveAll_spec docDir env' (sizeCache st2) (deps ++ devDeps))
    as (cache & -> & _).
  set (groups := bySize _ _).
  set (st0 := with_sizeCache st2 cache).
  destruct (paint_groups_keeps (editorId editor) groups st0) as (_ & _ & _ & _ & Hf1).
  destruct (paint_groups (editorId editor) groups st0) as [st3 ops1]. cbn [fst snd] in *.
  destruct (clear_unused_keeps (editorId editor) (map fst groups)
              (decorationTypeCache st3) st3) as (_ & _ & _ & Hf2).
  destruct (clear_unused (editorId editor) (map fst groups) (decorationTypeCache st3) st3)
    as [st4 ops2]. cbn [fst snd] in *.
  replace (List.filter (needs_lookup (sizeCache st2) docDir) (deps ++ devDeps))
    with (@nil DepEntry).
  - cbn [pass_ops map flat_map app List.filter is_lookup].
    now rewrite List.filter_app, Hf1, Hf2.
  - symmetry. induction (deps ++ devDeps) as [|d l IH]; [reflexivity|].
    cbn [List.filter]. unfold needs_lookup at 1.
    destruct (Hcached d (or_introl eq_refl)) as [v Hv]. rewrite Hv.
    rewrite bool_decide_eq_false_2 by discriminate. cbn [andb].
    apply IH. intros d0 H0. apply Hcached. now right.
Qed.

Lemma update_again_no_lookup_witness :
  List.filter is_lookup
    (snd (updateDecorations sample_env initial_state sample_editor)) <> []
  /\ List.filter is_lookup
       (snd (updateDecorations offline_env
               (fst (run (fst (updateDecorations sample_env initial_state sample_editor))
                         []))
               sample_editor)) = [].
Proof.
  split; [vm_compute; discriminate|].
  apply (update_again_no_lookup sample_env offline_env initial_state sample_editor []);
    reflexivity.
Defined.

(** ** The request path *)

Lemma all_app (p : ascii -> bool) (s t : string) :
  Str.all p (s +:+ t) = Str.all p s && Str.all p t.
Proof.
  induction s as [|a s IH]; [reflexivity|].
  rewrite StrFacts.app_cons. cbn [Str.all]. now rewrite IH, andb_assoc.
Qed.

Lemma encodeURIComponent_no_slash (s : string) : no_slash (encodeURIComponent s).
Proof.
  unfold no_slash. induction s as [|a s IH]; [reflexivity|].
  cbn [encodeURIComponent]. rewrite all_app, IH, andb_true_r.
  destruct a as [[] [] [] [] [] [] [] []]; vm_compute; reflexivity.
Qed.

(** X21: the path of a registry request has one segment for the encoded
    name, and a second one for the encoded version exactly when the exact
    version is asked for: encoding leaves no slash, so the slash of a
    scoped name never splits the path. *)
Theorem registry_url_segments (nm ver : string) :
  exists tail,
    registry_url nm ver = NPM_REGISTRY +:+ "/" +:+ tail
    /\ Str.split "/" tail
       = if useExact ver then [encodeURIComponent nm; encodeURIComponent ver]
         else [encodeURIComponent nm].
Proof.
  unfold registry_url. destruct (useExact ver).
  - exists (encodeURIComponent nm +:+ "/" +:+ encodeURIComponent ver).
    split; [reflexivity|].
    rewrite split_app_slash by apply encodeURIComponent_no_slash.
    now rewrite split_no_slash by apply encodeURIComponent_no_slash.
  - exists (encodeURIComponent nm). split; [reflexivity|].
    apply split_no_slash, encodeURIComponent_no_slash.
Qed.

(** ** The size of a directory *)

Lemma intact_perm (ents ents' : list (string * FsNode)) :
  Permutation ents ents' ->
  forallb (fun e => intact (snd e)) ents = forallb (fun e => intact (snd e)) ents'.
Proof.
  induction 1 as [|x l l' _ IH|x y l|l l' l'' _ IH1 _ IH2]; cbn [forallb].
  - reflexivity.
  - now rewrite IH.
  - now rewrite !andb_assoc, (andb_comm (intact (snd y))).
  - now rewrite IH1.
Qed.

Lemma files_below_perm (ents ents' : list (string * FsNode)) :
  Permutation ents ents' ->
  sumZ (flat_map (fun e => files_below (snd e)) ents)
  = sumZ (flat_map (fun e => files_below (snd e)) ents').
Proof.
  induction 1 as [|x l l' _ IH|x y l|l l' l'' _ IH1 _ IH2]; cbn [flat_map].
  - reflexivity.
  - now rewrite !sumZ_app, IH.
  - rewrite !sumZ_app. lia.
  - now rewrite IH1.
Qed.

(** X22: the total of a directory depends neither on the order in which
    its entries are listed nor on the path it is reached by: two listings
    with the same entries give the same total, or fail both. *)
Theorem getDirSize_order (dirPath dirPath' : string) (ents ents' : list (string * FsNode)) :
  Permutation ents ents' ->
  snd (getDirSize dirPath (FsDir (Some ents)))
  = snd (getDirSize dirPath' (FsDir (Some ents'))).
Proof.
  intros Hp.
  rewrite (getDirSize_total (FsDir (Some ents)) dirPath).
  rewrite (getDirSize_total (FsDir (Some ents')) dirPath').
  cbn [intact files_below]. now rewrite (intact_perm _ _ Hp), (files_below_perm _ _ Hp).
Qed.

Lemma getDirSize_order_witness :
  snd (getDirSize "/a" (FsDir (Some [("x", FsFile 1); ("y", FsDir (Some [("z", FsFile 2)]))])))
  = snd (getDirSize "/b" (FsDir (Some [("y", FsDir (Some [("z", FsFile 2)])); ("x", FsFile 1)]))).
Proof.
  apply (getDirSize_order "/a" "/b"). apply perm_swap.
Defined.

(** ** Where a size is looked up *)

(** X23: an entry whose version starts with [file:] is never asked of the
    registry, and any other entry never touches the file system: resolving
    the first makes no request, resolving the second makes nothing but at
    most one request. *)
Theorem lookups_by_kind (env : Env) (docDir : string) (cache : gmap string string)
    (d : DepEntry) :
  let ops := snd (resolve env docDir cache d) in
  if isFileDependency (version d) then List.filter is_fetch ops = []
  else List.filter (fun e => negb (is_fetch e)) ops = [] /\ (length ops <= 1)%nat.
Proof.
  cbn zeta. unfold resolve. destruct (isFileDependency (version d)).
  - unfold getNodeModulesPackageSize, getNodeModulesPackageSize_begin.
    destruct (cache !! nodeModulesKey docDir (name d)); [reflexivity|].
    unfold getNodeModulesPackageSize_resume.
    pose proof (try_fs_only is_fetch ltac:(reflexivity) ltac:(reflexivity)
                  (fsRoot env) (installPath docDir (name d))) as H.
    destruct (getNodeModulesPackageSize_try _ _) as [ops r]. exact H.
  - unfold fetchSize, fetchSize_begin.
    destruct (cache !! specOf d); [cbn; auto|].
    destruct (parsePackageSpec (specOf d)) as [nm ver].
    destruct (String.eqb nm ""); [cbn; auto|].
    destruct (fetchSize_resume _ _ _) as [c' text]. cbn. auto.
Qed.

(** ** An edit outside a manifest *)

(** X24: an edit in an editor that shows no manifest drops the pending
    update: the timer is cancelled, the editor gets an empty call for
    every cached type, and when the time is up nothing happens. *)
Theorem edit_elsewhere_cancels (env env' : Env) (st : State) (ed : TextEditor)
    (doc : TextDocument) :
  isPackageJson (document ed) = false ->
  let r := handle env st (TextChanged ed) in
  timeout (fst r) = None
  /\ setDecorations_calls (snd r)
     = map (fun t => (editorId ed, t, [])) (decorationTypeCache st)
  /\ handle env' (fst r) (TimerFired doc) = (fst r, []).
Proof.
  intros Hed. cbn zeta. cbn [handle]. unfold triggerUpdate. rewrite Hed. cbn [negb].
  destruct (clearAllDecorations_keeps (with_timeout st None) (editorId ed)) as (_ & Ht).
  unfold clearAllDecorations in *.
  destruct (clear_unused_spec (editorId ed) [] (decorationTypeCache (with_timeout st None))
              (with_timeout st None)) as (_ & _ & Hcalls & _).
  destruct (clear_unused _ _ _ _) as [st' ops]. cbn [fst snd] in *.
  split; [exact Ht|]. split.
  - rewrite Hcalls. cbn [with_timeout decorationTypeCache]. f_equal.
    clear. induction (decorationTypeCache st) as [|x l IH]; [reflexivity|].
    cbn [List.filter mem negb]. now rewrite IH.
  - now rewrite Ht.
Qed.

Lemma edit_elsewhere_cancels_witness :
  timeout (fst (handle sample_env (with_timeout initial_state (Some 1%nat))
                  (TextChanged sample_readme))) = None.
Proof.
  apply (edit_elsewhere_cancels sample_env sample_env (with_timeout initial_state (Some 1%nat))
           sample_readme sample_manifest eq_refl).
Defined.

(** ** When the registry is asked *)

(** X25: [fetchSize] makes no request exactly when the spec is cached or
    empty; in every other case it makes one. *)
Theorem fetchSize_requests (env : Env) (cache : gmap string string) (packageSpec : string) :
  (snd (fetchSize env cache packageSpec) = []
   <-> is_Some (cache !! packageSpec) \/ packageSpec = "")
  /\ (length (snd (fetchSize env cache packageSpec)) <= 1)%nat.
Proof.
  unfold fetchSize, fetchSize_begin.
  destruct (cache !! packageSpec) as [v|] eqn:Ec.
  { cbn. split; [|lia]. split; eauto. }
  destruct (parsePackageSpec packageSpec) as [nm ver] eqn:Ep.
  destruct (String.eqb nm "") eqn:En.
  - cbn. split; [|lia]. split; [|reflexivity]. intros _. right.
    apply String.eqb_eq in En. subst nm.
    destruct (String.eqb packageSpec "") eqn:E; [now apply String.eqb_eq|].
    apply String.eqb_neq in E.
    destruct (parsePackageSpec_nonempty packageSpec E) as [H _].
    rewrite Ep in H. now destruct H.
  - destruct (fetchSize_resume _ _ _) as [c' text]. cbn. split; [|lia].
    split; [discriminate|]. intros [[v Hv]| ->]; [discriminate|].
    cbv in Ep. injection Ep as <- <-. discriminate.
Qed.
